(** * go-qpress: a shallow embedding of the qpress archive decoder

    The development follows [qpress.go] (package [qpress]): the primitive
    field readers, the data block parser, the file target decoder with its
    worker pool, and the archive decoder.  Go values are modelled as follows.

    - a byte is [Byte.byte]; [uint32], [uint64] and [int64] are [Z] with the
      wrap-around written out ([wrap_uint64], [wrap_int64]);
    - an [io.Reader] is the list of bytes it still delivers together with the
      error it reports once they are used up ([io.EOF] for a plain stream);
    - an [error] is a value of the inductive type [error]; [Error] renders its
      message, which is what [strings.HasPrefix] inspects;
    - a slice is its backing array (as long as the capacity) and its length;
    - the operating system is a map from path names to nodes plus a set of
      paths on which every system call is refused;
    - the worker pool is the list of the tasks submitted and a [Schedule],
      the order in which the workers complete them: any permutation;
    - a run-time panic is the [Panic] outcome of the monad [M]; the loops take
      fuel, and the entry points supply enough of it ([S (length stream)]). *)

From Stdlib Require Import ZArith List Lia Strings.Byte Ascii String Permutation.
From stdpp Require Import base gmap strings list pretty.

Local Open Scope Z_scope.

(** ** Bytes, integers *)

#[global] Instance byte_eq_dec : EqDecision byte.
Proof.
  intros x y. destruct (Byte.eqb x y) eqn:E.
  - left. now apply byte_dec_bl.
  - right. now apply eqb_false.
Defined.

Definition byte_to_Z (b : byte) : Z := Z.of_N (Byte.to_N b).

(** [binary.LittleEndian.Uint32] and [Uint64]:
    [b[0] | b[1]<<8 | b[2]<<16 | ...]. *)
Fixpoint littleEndian (bs : list byte) : Z :=
  match bs with
  | [] => 0
  | b :: bs' => Z.lor (byte_to_Z b) (Z.shiftl (littleEndian bs') 8)
  end.

Definition max_int64 : Z := 2 ^ 63 - 1.
Definition min_int64 : Z := - 2 ^ 63.

(** Two's complement arithmetic of [int64] and [uint64]. *)
Definition wrap_int64 (z : Z) : Z := (z + 2 ^ 63) mod 2 ^ 64 - 2 ^ 63.
Definition wrap_uint64 (z : Z) : Z := z mod 2 ^ 64.

(** ** Constants of the package *)

Definition TypeDown : byte := "D"%byte.
Definition TypeUp : byte := "U"%byte.
Definition TypeFile : byte := "F"%byte.
Definition TypeNew : byte := "N"%byte.
Definition TypeEnd : byte := "E"%byte.
Definition DefaultChunkSize : Z := 1024.
Definition ChunkHeaderSize : Z := 9.

Definition QpressMagic : list byte := list_byte_of_string "qpress10".
Definition BlockStarter : list byte := list_byte_of_string "NEWBNEWB".
Definition TrailerStarter : list byte := list_byte_of_string "ENDSENDS".
Definition Terminator : list byte := [x00].

(** ** Errors *)

Inductive errno := EEXIST | ENOENT | EACCES | EISDIR.

Definition errno_Error (e : errno) : string :=
  match e with
  | EEXIST => "file exists"
  | ENOENT => "no such file or directory"
  | EACCES => "permission denied"
  | EISDIR => "is a directory"
  end.

(** The Go [error] values the decoder can meet: the two sentinels of package
    [io], an error of the reader or writer behind the interface, an
    [*fs.PathError] of package [os], and the two shapes [fmt.Errorf] builds
    (without and with a wrapped error, [%w]). *)
Inductive error :=
| io_EOF
| io_ErrUnexpectedEOF
| streamError (msg : string)
| PathError (op path : string) (e : errno)
| errorString (msg : string)
| wrapError (msg : string) (err : error).

Definition Error (e : error) : string :=
  match e with
  | io_EOF => "EOF"
  | io_ErrUnexpectedEOF => "unexpected EOF"
  | streamError msg => msg
  | PathError op path e => op +:+ " " +:+ path +:+ ": " +:+ errno_Error e
  | errorString msg => msg
  | wrapError msg _ => msg
  end.

(** [err == io.EOF] *)
Definition is_io_EOF (e : error) : bool :=
  match e with io_EOF => true | _ => false end.

(** [os.IsExist] and [os.IsNotExist] *)
Definition os_IsExist (e : error) : bool :=
  match e with PathError _ _ EEXIST => true | _ => false end.
Definition os_IsNotExist (e : error) : bool :=
  match e with PathError _ _ ENOENT => true | _ => false end.

(** [fmt]: [%s] of a byte slice or byte array, [%d] of a byte slice. *)
Definition fmt_s (bs : list byte) : string := string_of_list_byte bs.

Fixpoint fmt_d_elems (bs : list byte) : string :=
  match bs with
  | [] => ""
  | [b] => pretty (byte_to_Z b)
  | b :: bs' => pretty (byte_to_Z b) +:+ " " +:+ fmt_d_elems bs'
  end.
Definition fmt_d (bs : list byte) : string := "[" +:+ fmt_d_elems bs +:+ "]".

(** [strings.HasPrefix s prefix] *)
Definition strings_HasPrefix (s prefix : string) : bool := String.prefix prefix s.

(** ** Readers and writers *)

(** An [io.Reader]: the bytes it still delivers, and the error its [Read]
    returns once they are used up. *)
Record Reader := { r_data : list byte; r_end : error }.

(** An [io.Writer]: the bytes written so far; a broken writer fails every
    [Write] with its error. *)
Record Writer := { w_written : list byte; w_broken : option error }.

(** [io.ReadFull(r, buf)] with [len(buf) = n]: nothing is read for an empty
    buffer; a short stream gives [io.EOF] when no byte was read,
    [io.ErrUnexpectedEOF] when some were, and the reader's own error when it
    has one. *)
Definition io_ReadFull (n : nat) (r : Reader) : (list byte + error) * Reader :=
  match n with
  | O => (inl [], r)
  | S _ =>
      if (n <=? length (r_data r))%nat
      then (inl (take n (r_data r)), {| r_data := drop n (r_data r); r_end := r_end r |})
      else
        let err :=
          match r_data r with
          | [] => r_end r
          | _ :: _ => if is_io_EOF (r_end r) then io_ErrUnexpectedEOF else r_end r
          end in
        (inr err, {| r_data := []; r_end := r_end r |})
  end.

(** ** Slices *)

(** A byte slice: the backing array from the slice's start (its length is the
    capacity) and the slice's length. *)
Record slice := { s_array : list byte; s_len : Z }.

Definition cap (s : slice) : Z := Z.of_nat (length (s_array s)).

(** The bytes a slice shows: [s[0:len(s)]]. *)
Definition slice_bytes (s : slice) : list byte := take (Z.to_nat (s_len s)) (s_array s).

(** Overwriting [array[lo : lo+len(bs)]], as a read into a sub-slice does. *)
Definition array_write (arr : list byte) (lo : nat) (bs : list byte) : list byte :=
  take lo arr ++ bs ++ drop (lo + length bs) arr.

(** The largest allocation of the Go runtime on 64-bit platforms. *)
Definition maxAlloc : Z := 2 ^ 48.

(** ** The operating system *)

Inductive node := Dir | RegularFile (content : list byte).

(** [nodes] maps a path to what is there; every system call on a path in
    [denied] fails with [EACCES]. *)
Record FS := { nodes : gmap string node; denied : gset string }.

Definition fs_put (p : string) (n : node) (fs : FS) : FS :=
  {| nodes := <[p := n]> (nodes fs); denied := denied fs |}.

(** [f.WriteAt(b, off)] on an [os.File]: a negative offset is an error, an empty
    [b] writes nothing, and a write past the end fills the gap with zeros. *)
Definition pwrite (content : list byte) (off : nat) (b : list byte) : list byte :=
  take off (content ++ repeat x00 (off - length content)) ++ b
    ++ drop (off + length b) content.

Definition File_WriteAt (f : string) (b : list byte) (off : Z) (fs : FS) : FS * option error :=
  if off <? 0 then (fs, Some (errorString "negative offset"))
  else
    match b with
    | [] => (fs, None)
    | _ :: _ =>
        match nodes fs !! f with
        | Some (RegularFile c) => (fs_put f (RegularFile (pwrite c (Z.to_nat off) b)) fs, None)
        | _ => (fs, Some (PathError "write" f EISDIR))
        end
    end.

(** ** The codec (package [quicklz], an external collaborator) *)

(** [quicklz.New] may refuse its arguments; [Size_compressed] and
    [Size_decompressed] read the sizes a 9-byte mini-header declares;
    [qlz_Decompress source destination] returns the destination after the
    call and the error, if any. *)
Class Codec := {
  quicklz_New : option error;
  Size_compressed : list byte -> Z;
  Size_decompressed : list byte -> Z;
  qlz_Decompress : slice -> list byte -> list byte * option error
}.

(** ** The structures of the package *)

Record ArchiveHeader := {
  Magic : list byte;               (* [8]byte *)
  ah_ChunkSize : Z                 (* uint64 *)
}.

Record TargetHeader := {
  th_TargetType : byte;            (* [1]byte *)
  NameLength : Z;                  (* uint32 *)
  Name : list byte;
  th_Terminator : byte             (* [1]byte *)
}.

Record DataBlock := {
  BlockType : byte;
  db_StarterTail : list byte;      (* [7]byte *)
  db_RecoverInfo : list byte;      (* [8]byte *)
  Checksum : list byte;            (* [4]byte *)
  CompressedChunk : slice;
  CompressedSize : Z;              (* int64 *)
  DecompressedSize : Z;            (* int64 *)
  DecompressedOffset : Z           (* int64 *)
}.

Record FileTrailer := {
  TrailerType : byte;
  ft_StarterTail : list byte;      (* [7]byte *)
  ft_RecoverInfo : list byte       (* [8]byte *)
}.

Record FileTarget := {
  ft_header : TargetHeader;
  DataBlocks : list DataBlock;
  ft_trailer : FileTrailer
}.

(** The implementations of the interface [Target]. *)
Inductive Target :=
| UpTarget (h : TargetHeader)
| DownTarget (h : TargetHeader)
| FileTarget_ (t : FileTarget).

Record ArchiveFile := {
  af_header : ArchiveHeader;
  Targets : list Target
}.

(** Zero values. *)
Definition zero_ArchiveHeader : ArchiveHeader :=
  {| Magic := repeat x00 8; ah_ChunkSize := 0 |}.
Definition zero_TargetHeader : TargetHeader :=
  {| th_TargetType := x00; NameLength := 0; Name := []; th_Terminator := x00 |}.
Definition zero_FileTrailer : FileTrailer :=
  {| TrailerType := x00; ft_StarterTail := repeat x00 7; ft_RecoverInfo := repeat x00 8 |}.
Definition zero_FileTarget : FileTarget :=
  {| ft_header := zero_TargetHeader; DataBlocks := []; ft_trailer := zero_FileTrailer |}.
Definition zero_ArchiveFile : ArchiveFile :=
  {| af_header := zero_ArchiveHeader; Targets := [] |}.

Definition with_TargetType (tt : byte) (h : TargetHeader) : TargetHeader :=
  {| th_TargetType := tt; NameLength := NameLength h; Name := Name h;
     th_Terminator := th_Terminator h |}.

(** A task handed to the worker pool: the closure captures the destination
    file [f] and the block, whose [DecompressedOffset] is already set. *)
Record Task := { task_file : string; task_block : DataBlock }.

(** The order in which the workers of the pool complete the tasks submitted
    for one file.  The pool runs every submitted task once, so the order is a
    permutation of the submissions; nothing else is known about it. *)
Record Schedule := {
  completion_order :> list Task -> list Task;
  completion_order_perm : forall l, Permutation (completion_order l) l
}.

(** The schedule of a decode without concurrency: the tasks complete in the
    order of their submission. *)
Definition sequential : Schedule :=
  {| completion_order := fun l => l;
     completion_order_perm := fun l => Permutation_refl l |}.

(** The tasks complete in the reverse order of their submission. *)
Definition last_first : Schedule :=
  {| completion_order := fun l => rev l;
     completion_order_perm := fun l => Permutation_sym (Permutation_rev l) |}.

(** ** The state of a decode and its monad *)

Record World := {
  reader : Reader;                 (* the [r io.Reader] argument *)
  writer : Writer;                 (* the [w io.Writer] argument *)
  fs : FS;                         (* the file system *)
  ChunkSize : Z;                   (* the package variable [ChunkSize] *)
  pool : list Task                 (* the tasks submitted to the pool created last *)
}.

Definition set_reader (r : Reader) (w : World) : World :=
  {| reader := r; writer := writer w; fs := fs w; ChunkSize := ChunkSize w; pool := pool w |}.
Definition set_writer (x : Writer) (w : World) : World :=
  {| reader := reader w; writer := x; fs := fs w; ChunkSize := ChunkSize w; pool := pool w |}.
Definition set_fs (x : FS) (w : World) : World :=
  {| reader := reader w; writer := writer w; fs := x; ChunkSize := ChunkSize w; pool := pool w |}.
Definition set_ChunkSize (x : Z) (w : World) : World :=
  {| reader := reader w; writer := writer w; fs := fs w; ChunkSize := x; pool := pool w |}.
Definition set_pool (x : list Task) (w : World) : World :=
  {| reader := reader w; writer := writer w; fs := fs w; ChunkSize := ChunkSize w; pool := x |}.

(** A call returns a value, panics, or (for a loop of the model) runs out of
    fuel. *)
Inductive result (A : Type) : Type :=
| Val (a : A) (w : World)
| Panic (msg : string) (w : World)
| OutOfFuel.
Arguments Val {A} a w.
Arguments Panic {A} msg w.
Arguments OutOfFuel {A}.

Definition M (A : Type) : Type := World -> result A.

Definition ret {A} (a : A) : M A := fun w => Val a w.
Definition bind {A B} (m : M A) (k : A -> M B) : M B :=
  fun w =>
    match m w with
    | Val a w' => k a w'
    | Panic msg w' => Panic msg w'
    | OutOfFuel => OutOfFuel
    end.
Definition panic {A} (msg : string) : M A := fun w => Panic msg w.

Notation "'let*' p ':=' m 'in' k" := (bind m (fun p => k))
  (at level 10, p pattern, m at level 100, k at level 200).

(** The world a call leaves behind, whether it returned or panicked. *)
Definition world_of {A} (r : result A) (w0 : World) : World :=
  match r with Val _ w => w | Panic _ w => w | OutOfFuel => w0 end.

(** ** Primitive field readers *)

(** [binary.Read(r, nil, &dst)] for a byte array or byte slice of [n] bytes:
    [io.ReadFull] into a scratch buffer, copied to [dst] only on success. *)
Definition binary_Read (n : nat) (dst : list byte) : M (list byte * option error) :=
  fun w =>
    match io_ReadFull n (reader w) with
    | (inl bs, r') => Val (bs, None) (set_reader r' w)
    | (inr e, r') => Val (dst, Some e) (set_reader r' w)
    end.

(** [binary.Read(r, binary.LittleEndian, &x)] for an unsigned integer of [n]
    bytes. *)
Definition binary_Read_uint (n : nat) (x : Z) : M (Z * option error) :=
  fun w =>
    match io_ReadFull n (reader w) with
    | (inl bs, r') => Val (littleEndian bs, None) (set_reader r' w)
    | (inr e, r') => Val (x, Some e) (set_reader r' w)
    end.

Definition ReadRecoverInfo (ri : list byte) : M (list byte * option error) :=
  binary_Read 8 ri.

Definition ReadStarterTail (s : list byte) : M (list byte * option error) :=
  binary_Read 7 s.

Definition ReadByte : M (byte * option error) :=
  let* (b, err) := binary_Read 1 [x00] in
  ret (hd x00 b, err).

(** [(t *TargetType).ReadType]: [*t, err = ReadByte(r)]. *)
Definition ReadType : M (byte * option error) := ReadByte.

Definition ReadTerminator : M (byte * option error) :=
  let* (terminator, err) := ReadByte in
  match err with
  | Some e => ret (terminator, Some (errorString ("read terminator failed: " +:+ Error e)))
  | None =>
      if decide (terminator <> hd x00 Terminator)
      then ret (terminator, Some (errorString ("invalid terminator: " +:+ fmt_s [terminator])))
      else ret (terminator, None)
  end.

Definition ReadLengthU32EncodedString : M (Z * list byte * option error) :=
  let* (readBytesLen, err) := binary_Read_uint 4 0 in
  match err with
  | Some e => ret (readBytesLen, [], Some e)
  | None =>
      let readBytes := repeat x00 (Z.to_nat readBytesLen) in
      let* (readBytes, err) := binary_Read (Z.to_nat readBytesLen) readBytes in
      ret (readBytesLen, readBytes, err)
  end.

(** [(t *TargetHeader).ReadHeader] *)
Definition ReadHeader (t : TargetHeader) : M (TargetHeader * option error) :=
  let* (len, name, err) := ReadLengthU32EncodedString in
  let t := {| th_TargetType := th_TargetType t; NameLength := len; Name := name;
              th_Terminator := th_Terminator t |} in
  match err with
  | Some e => ret (t, Some e)
  | None =>
      let* (term, err) := ReadTerminator in
      ret ({| th_TargetType := th_TargetType t; NameLength := NameLength t;
              Name := Name t; th_Terminator := term |}, err)
  end.

(** [(t *UpTarget).ReadHeader] reads nothing; [Read] of both directory
    targets calls the target's [ReadHeader]. *)
Definition UpTarget_ReadHeader (t : TargetHeader) : M (TargetHeader * option error) :=
  ret (t, None).
Definition UpTarget_Read (t : TargetHeader) : M (TargetHeader * option error) :=
  UpTarget_ReadHeader t.
Definition DownTarget_Read (t : TargetHeader) : M (TargetHeader * option error) :=
  ReadHeader t.

(** [(ah *ArchiveHeader).ReadFileHeader] *)
Definition ReadFileHeader (ah : ArchiveHeader) : M (ArchiveHeader * option error) :=
  let* (magic, err) := binary_Read 8 (Magic ah) in
  let ah := {| Magic := magic; ah_ChunkSize := ah_ChunkSize ah |} in
  match err with
  | Some e => ret (ah, Some (errorString ("read magic failed: " +:+ Error e)))
  | None =>
      if decide (Magic ah <> QpressMagic)
      then ret (ah, Some (errorString ("invalid magic: " +:+ fmt_s (Magic ah))))
      else
        let* (cs, err) := binary_Read_uint 8 (ah_ChunkSize ah) in
        let ah := {| Magic := Magic ah; ah_ChunkSize := cs |} in
        match err with
        | Some e => ret (ah, Some (errorString ("read chunk size failed: " +:+ Error e)))
        | None =>
            fun w => Val (ah, None) (set_ChunkSize (ah_ChunkSize ah) w)
        end
  end.

(** ** System calls *)

(** [os.Mkdir(name, 0755)] *)
Definition os_Mkdir (name : string) : M (option error) :=
  fun w =>
    if decide (name ∈ denied (fs w)) then Val (Some (PathError "mkdir" name EACCES)) w
    else
      match nodes (fs w) !! name with
      | Some _ => Val (Some (PathError "mkdir" name EEXIST)) w
      | None => Val None (set_fs (fs_put name Dir (fs w)) w)
      end.

(** [os.Stat(name)]; the [FileInfo] is not used by the decoder. *)
Definition os_Stat (name : string) : M (option error) :=
  fun w =>
    if decide (name ∈ denied (fs w)) then Val (Some (PathError "stat" name EACCES)) w
    else
      match nodes (fs w) !! name with
      | Some _ => Val None w
      | None => Val (Some (PathError "stat" name ENOENT)) w
      end.

(** [os.OpenFile(name, os.O_CREATE|os.O_WRONLY, 0640)]: an existing regular
    file is opened as it is (no [O_TRUNC], no [O_EXCL]), a missing one is
    created empty.  The handle is the path. *)
Definition os_OpenFile (name : string) : M (string * option error) :=
  fun w =>
    if decide (name ∈ denied (fs w)) then Val (name, Some (PathError "open" name EACCES)) w
    else
      match nodes (fs w) !! name with
      | Some Dir => Val (name, Some (PathError "open" name EISDIR)) w
      | Some (RegularFile _) => Val (name, None) w
      | None => Val (name, None) (set_fs (fs_put name (RegularFile []) (fs w)) w)
      end.

(** [w.Write(b)] *)
Definition Writer_Write (b : list byte) : M (option error) :=
  fun w =>
    match w_broken (writer w) with
    | Some e => Val (Some e) w
    | None =>
        Val None (set_writer {| w_written := w_written (writer w) ++ b; w_broken := None |} w)
    end.

(** [make([]byte, len, cap)]: the run-time check of [makeslice]. *)
Definition make (len cap : Z) : M slice :=
  if (len <? 0) || (cap <? len) || (maxAlloc <? cap)
  then panic "makeslice: len or cap out of range"
  else ret {| s_array := repeat x00 (Z.to_nat cap); s_len := len |}.

(** [defer d]: [d] runs when the body returns and when it panics. *)
Definition defer {A} (d : World -> World) (body : M A) : M A :=
  fun w =>
    match body w with
    | Val a w' => Val a (d w')
    | Panic msg w' => Panic msg (d w')
    | OutOfFuel => OutOfFuel
    end.

(** [pond.New]: a fresh pool; [pool.Submit]: the task joins the pool. *)
Definition pond_New : M unit := fun w => Val tt (set_pool [] w).
Definition pool_Submit (tk : Task) : M unit :=
  fun w => Val tt (set_pool (pool w ++ [tk]) w).

(** [NewDataBlock]: the buffer has length [ChunkSize] and capacity
    [ChunkSize+400], both [uint64] converted to [int] by [make]. *)
Definition NewDataBlock : M DataBlock :=
  fun w =>
    (let* chunk := make (wrap_int64 (ChunkSize w))
                        (wrap_int64 (wrap_uint64 (ChunkSize w + 400))) in
     ret {| BlockType := TypeNew;
            db_StarterTail := repeat x00 7;
            db_RecoverInfo := repeat x00 8;
            Checksum := repeat x00 4;
            CompressedChunk := chunk;
            CompressedSize := 0;
            DecompressedSize := 0;
            DecompressedOffset := 0 |}) w.

Definition with_StarterTail (s : list byte) (t : DataBlock) : DataBlock :=
  {| BlockType := BlockType t; db_StarterTail := s; db_RecoverInfo := db_RecoverInfo t;
     Checksum := Checksum t; CompressedChunk := CompressedChunk t;
     CompressedSize := CompressedSize t; DecompressedSize := DecompressedSize t;
     DecompressedOffset := DecompressedOffset t |}.
Definition with_RecoverInfo (ri : list byte) (t : DataBlock) : DataBlock :=
  {| BlockType := BlockType t; db_StarterTail := db_StarterTail t; db_RecoverInfo := ri;
     Checksum := Checksum t; CompressedChunk := CompressedChunk t;
     CompressedSize := CompressedSize t; DecompressedSize := DecompressedSize t;
     DecompressedOffset := DecompressedOffset t |}.
Definition with_Checksum (c : list byte) (t : DataBlock) : DataBlock :=
  {| BlockType := BlockType t; db_StarterTail := db_StarterTail t;
     db_RecoverInfo := db_RecoverInfo t;
     Checksum := c; CompressedChunk := CompressedChunk t;
     CompressedSize := CompressedSize t; DecompressedSize := DecompressedSize t;
     DecompressedOffset := DecompressedOffset t |}.
(** A read into a sub-slice [t.CompressedChunk[lo:hi]] lands in the backing
    array; the slice's own length stays. *)
Definition with_chunk_bytes (lo : nat) (bs : list byte) (t : DataBlock) : DataBlock :=
  {| BlockType := BlockType t; db_StarterTail := db_StarterTail t;
     db_RecoverInfo := db_RecoverInfo t; Checksum := Checksum t;
     CompressedChunk :=
       {| s_array := array_write (s_array (CompressedChunk t)) lo bs;
          s_len := s_len (CompressedChunk t) |};
     CompressedSize := CompressedSize t; DecompressedSize := DecompressedSize t;
     DecompressedOffset := DecompressedOffset t |}.
Definition with_CompressedSize (n : Z) (t : DataBlock) : DataBlock :=
  {| BlockType := BlockType t; db_StarterTail := db_StarterTail t;
     db_RecoverInfo := db_RecoverInfo t; Checksum := Checksum t;
     CompressedChunk := CompressedChunk t;
     CompressedSize := n; DecompressedSize := DecompressedSize t;
     DecompressedOffset := DecompressedOffset t |}.
Definition with_DecompressedSize (n : Z) (t : DataBlock) : DataBlock :=
  {| BlockType := BlockType t; db_StarterTail := db_StarterTail t;
     db_RecoverInfo := db_RecoverInfo t; Checksum := Checksum t;
     CompressedChunk := CompressedChunk t;
     CompressedSize := CompressedSize t; DecompressedSize := n;
     DecompressedOffset := DecompressedOffset t |}.
Definition with_DecompressedOffset (n : Z) (t : DataBlock) : DataBlock :=
  {| BlockType := BlockType t; db_StarterTail := db_StarterTail t;
     db_RecoverInfo := db_RecoverInfo t; Checksum := Checksum t;
     CompressedChunk := CompressedChunk t;
     CompressedSize := CompressedSize t; DecompressedSize := DecompressedSize t;
     DecompressedOffset := n |}.

Definition with_header (h : TargetHeader) (t : FileTarget) : FileTarget :=
  {| ft_header := h; DataBlocks := DataBlocks t; ft_trailer := ft_trailer t |}.
Definition with_trailer (tr : FileTrailer) (t : FileTarget) : FileTarget :=
  {| ft_header := ft_header t; DataBlocks := DataBlocks t; ft_trailer := tr |}.
Definition append_Target (x : Target) (af : ArchiveFile) : ArchiveFile :=
  {| af_header := af_header af; Targets := Targets af ++ [x] |}.
Definition with_ArchiveHeader (h : ArchiveHeader) (af : ArchiveFile) : ArchiveFile :=
  {| af_header := h; Targets := Targets af |}.

(** The file target the archive loop hands to the file decoder:
    [&FileTarget{}] with its [TargetType] set. *)
Definition fresh_FileTarget (ty : byte) : FileTarget :=
  with_header (with_TargetType ty zero_TargetHeader) zero_FileTarget.

(** [(t *DataBlock).ReadChecksum] *)
Definition ReadChecksum (t : DataBlock) : M (DataBlock * option error) :=
  let* (c, err) := binary_Read 4 (Checksum t) in
  ret (with_Checksum c t, err).

(** [(t *FileTrailer).ReadTrailer] *)
Definition ReadTrailer (t : FileTrailer) : M (FileTrailer * option error) :=
  let* (s, err) := ReadStarterTail (ft_StarterTail t) in
  let t := {| TrailerType := TrailerType t; ft_StarterTail := s;
              ft_RecoverInfo := ft_RecoverInfo t |} in
  match err with
  | Some e => ret (t, Some e)
  | None =>
      if decide (ft_StarterTail t <> drop 1 TrailerStarter)
      then ret (t, Some (errorString
                  ("invalid trailer starter tail: " +:+ fmt_s (ft_StarterTail t))))
      else
        let* (ri, err) := ReadRecoverInfo (ft_RecoverInfo t) in
        ret ({| TrailerType := TrailerType t; ft_StarterTail := ft_StarterTail t;
                ft_RecoverInfo := ri |}, err)
  end.

(** ** The decoder *)

Section Decoder.

Context {codec : Codec}.

(** [filepath.Join(dir, name)] of the Go library. *)
Variable filepath_Join : string -> string -> string.

(** The schedule of the worker pool. *)
Variable schedule : Schedule.

(** [(t *DataBlock).ReadChunk]: the two slice expressions are checked against
    the capacity of [t.CompressedChunk], not its length. *)
Definition ReadChunk (t : DataBlock) : M (DataBlock * option error) :=
  (* header := t.CompressedChunk[:ChunkHeaderSize] *)
  if cap (CompressedChunk t) <? ChunkHeaderSize
  then panic "slice bounds out of range"
  else
    let* (header, err) :=
      binary_Read (Z.to_nat ChunkHeaderSize)
                  (take (Z.to_nat ChunkHeaderSize) (s_array (CompressedChunk t))) in
    match err with
    | Some e => ret (t, Some e)
    | None =>
        let t := with_chunk_bytes 0 header t in
        let t := with_CompressedSize (Size_compressed header) t in
        (* payload := t.CompressedChunk[ChunkHeaderSize:t.CompressedSize] *)
        if (CompressedSize t <? ChunkHeaderSize) || (cap (CompressedChunk t) <? CompressedSize t)
        then panic "slice bounds out of range"
        else
          let n := Z.to_nat (CompressedSize t - ChunkHeaderSize) in
          let* (payload, err) :=
            binary_Read n (take n (drop (Z.to_nat ChunkHeaderSize)
                                        (s_array (CompressedChunk t)))) in
          match err with
          | Some e => ret (t, Some e)
          | None =>
              let t := with_chunk_bytes (Z.to_nat ChunkHeaderSize) payload t in
              ret (with_DecompressedSize (Size_decompressed header) t, None)
          end
    end.

(** [(t *DataBlock).ReadBlock] *)
Definition ReadBlock (t : DataBlock) : M (DataBlock * option error) :=
  let* (s, err) := ReadStarterTail (db_StarterTail t) in
  let t := with_StarterTail s t in
  match err with
  | Some e => ret (t, Some e)
  | None =>
      if decide (db_StarterTail t <> drop 1 BlockStarter)
      then ret (t, Some (errorString
                  ("invalid block starter tail: " +:+ fmt_s (db_StarterTail t))))
      else
        let* (ri, err) := ReadRecoverInfo (db_RecoverInfo t) in
        let t := with_RecoverInfo ri t in
        match err with
        | Some e => ret (t, Some e)
        | None =>
            let* (t, err) := ReadChecksum t in
            match err with
            | Some e => ret (t, Some e)
            | None =>
                let* (t, err) := ReadChunk t in
                match err with
                | Some e => ret (t, Some e)
                | None => ret (t, None)
                end
            end
        end
  end.

(** [(t *DataBlock).DecompressChunk] *)
Definition DecompressChunk (t : DataBlock) (decompressedChunk : list byte)
  : list byte * option error :=
  match quicklz_New with
  | Some e => (decompressedChunk, Some e)
  | None =>
      let '(out, err) := qlz_Decompress (CompressedChunk t) decompressedChunk in
      match err with
      | Some e => (out, Some (errorString ("decompress: " +:+ Error e)))
      | None => (out, None)
      end
  end.

(** The function submitted to the pool.  A failed decompression or write is
    printed and the task returns; a panic of [make] is recovered by the
    pool's worker.  Either way nothing is written.  A task reads its own
    block and touches nothing but the destination file, which the reader of
    the stream never touches: its effect is one positional write, and the
    model applies it when the pool is drained. *)
Definition task_run (tk : Task) (fs0 : FS) : FS :=
  let block := task_block tk in
  if (DecompressedSize block <? 0) || (maxAlloc <? DecompressedSize block) then fs0
  else
    let decompressedChunk := repeat x00 (Z.to_nat (DecompressedSize block)) in
    let '(decompressedChunk, err) := DecompressChunk block decompressedChunk in
    match err with
    | Some _ => fs0
    | None => fst (File_WriteAt (task_file tk) decompressedChunk (DecompressedOffset block) fs0)
    end.

Definition run_tasks (order : list Task) (fs0 : FS) : FS :=
  fold_left (fun fs1 tk => task_run tk fs1) order fs0.

(** [pool.StopAndWait()]: every submitted task has run when it returns.  The
    list of the tasks stays in the world as a record of what was submitted. *)
Definition pool_StopAndWait (w : World) : World :=
  set_fs (run_tasks (schedule (pool w)) (fs w)) w.

Definition is_nil (err : option error) : bool :=
  match err with None => true | Some _ => false end.

(** The block loop of [(t *FileTarget).Decompress].  The test of the outer
    [err] at the head of the loop is omitted: that variable is nil when the
    loop is entered and the body assigns only its own [err]. *)
Fixpoint FileTarget_Decompress_loop (fuel : nat) (f : string) (limitSize offset : Z)
    (t : FileTarget) : M (FileTarget * option error) :=
  match fuel with
  | O => fun _ => OutOfFuel
  | S fuel' =>
      let* (ty, err) := ReadType in
      match err with
      | Some e =>
          ret (t, Some (wrapError ("read type " +:+ fmt_s [ty] +:+ " failed: " +:+ Error e) e))
      | None =>
          if decide (ty = TypeNew) then
            let* block := NewDataBlock in
            let* (block, err) := ReadBlock block in
            match err with
            | Some e => ret (t, Some (wrapError ("decompress block failed: " +:+ Error e) e))
            | None =>
                if (0 <? limitSize)
                   && (limitSize <? wrap_int64 (offset + DecompressedSize block))
                then ret (t, Some (errorString
                            ("partial decompress to limited size " +:+ pretty limitSize)))
                else
                  let block := with_DecompressedOffset offset block in
                  let* _ := pool_Submit {| task_file := f; task_block := block |} in
                  FileTarget_Decompress_loop fuel' f limitSize
                    (wrap_int64 (offset + DecompressedSize block)) t
            end
          else if decide (ty = TypeEnd) then
            let* (tr, err) := ReadTrailer (ft_trailer t) in
            let t := with_trailer tr t in
            match err with
            | Some e => ret (t, Some (errorString ("read trailer failed: " +:+ Error e)))
            | None => ret (t, None)
            end
          else
            ret (t, Some (errorString
                   ("invalid block header, 'N' or 'E' not found, get: " +:+ fmt_d [ty])))
      end
  end.

(** [(t *FileTarget).Decompress]; the deferred [f.Close()] changes nothing
    the model observes. *)
Definition FileTarget_Decompress (t : FileTarget) (baseDIR : string) (limitSize : Z)
  : M (FileTarget * option error) :=
  let* (h, err) := ReadHeader (ft_header t) in
  let t := with_header h t in
  match err with
  | Some e => ret (t, Some e)
  | None =>
      let targetFilePath := filepath_Join baseDIR (string_of_list_byte (Name (ft_header t))) in
      let* err := os_Stat targetFilePath in
      if negb (is_nil err) && negb (from_option os_IsNotExist false err) then ret (t, err)
      else if is_nil err then
        ret (t, Some (errorString ("file " +:+ targetFilePath +:+ " already exists")))
      else
        let* (f, err) := os_OpenFile targetFilePath in
        match err with
        | Some e => ret (t, Some e)
        | None =>
            let* _ := pond_New in
            defer pool_StopAndWait
              (fun w => FileTarget_Decompress_loop (S (length (r_data (reader w))))
                          f limitSize 0 t w)
        end
  end.

(** The block loop of [(t *FileTarget).DecompressStream]. *)
Fixpoint FileTarget_DecompressStream_loop (fuel : nat) (limitSize offset : Z)
    (t : FileTarget) : M (FileTarget * option error) :=
  match fuel with
  | O => fun _ => OutOfFuel
  | S fuel' =>
      let* (ty, err) := ReadType in
      match err with
      | Some e =>
          ret (t, Some (wrapError ("read type " +:+ fmt_s [ty] +:+ " failed: " +:+ Error e) e))
      | None =>
          if decide (ty = TypeNew) then
            let* block := NewDataBlock in
            let* (block, err) := ReadBlock block in
            match err with
            | Some e => ret (t, Some (wrapError ("decompress block failed: " +:+ Error e) e))
            | None =>
                if (0 <? limitSize)
                   && (limitSize <? wrap_int64 (offset + DecompressedSize block))
                then ret (t, Some (errorString
                            ("partial decompress to limited size " +:+ pretty limitSize)))
                else
                  let block := with_DecompressedOffset offset block in
                  let* buf := make (DecompressedSize block) (DecompressedSize block) in
                  let '(decompressedChunk, err) := DecompressChunk block (s_array buf) in
                  match err with
                  | Some e =>
                      ret (t, Some (errorString ("decompress chunk failed: " +:+ Error e)))
                  | None =>
                      let* err := Writer_Write decompressedChunk in
                      match err with
                      | Some e => ret (t, Some (errorString ("write failed: " +:+ Error e)))
                      | None =>
                          FileTarget_DecompressStream_loop fuel' limitSize
                            (wrap_int64 (offset + DecompressedSize block)) t
                      end
                  end
            end
          else if decide (ty = TypeEnd) then
            let* (tr, err) := ReadTrailer (ft_trailer t) in
            let t := with_trailer tr t in
            match err with
            | Some e => ret (t, Some (errorString ("read trailer failed: " +:+ Error e)))
            | None => ret (t, None)
            end
          else
            ret (t, Some (errorString
                   ("invalid block header, 'N' or 'E' not found, get: " +:+ fmt_d [ty])))
      end
  end.

(** [(t *FileTarget).DecompressStream] *)
Definition FileTarget_DecompressStream (t : FileTarget) (limitSize : Z)
  : M (FileTarget * option error) :=
  let* (h, err) := ReadHeader (ft_header t) in
  let t := with_header h t in
  match err with
  | Some e => ret (t, Some e)
  | None =>
      fun w => FileTarget_DecompressStream_loop (S (length (r_data (reader w))))
                 limitSize 0 t w
  end.

(** The target loop shared by [(af *ArchiveFile).Decompress] and
    [DecompressStream], which differ only in the file decoder they call. *)
Fixpoint ArchiveFile_loop (decodeFile : FileTarget -> M (FileTarget * option error))
    (fuel : nat) (af : ArchiveFile) : M (ArchiveFile * bool * option error) :=
  match fuel with
  | O => fun _ => OutOfFuel
  | S fuel' =>
      let* (ty, err) := ReadType in
      match err with
      | Some e =>
          if is_io_EOF e then ret (af, false, None)
          else ret (af, false,
                    Some (errorString ("read type " +:+ fmt_s [ty] +:+ " failed: " +:+ Error e)))
      | None =>
          if decide (ty = x00) then ret (af, false, None)
          else if decide (ty = TypeDown) then
            let* (d, err) := DownTarget_Read (with_TargetType ty zero_TargetHeader) in
            match err with
            | Some e => ret (af, false, Some e)
            | None =>
                ret (append_Target (DownTarget d) af, false,
                     Some (errorString "unsupport down directory"))
            end
          else if decide (ty = TypeUp) then
            let* (u, err) := UpTarget_Read (with_TargetType ty zero_TargetHeader) in
            match err with
            | Some e => ret (af, false, Some e)
            | None =>
                ret (append_Target (UpTarget u) af, false,
                     Some (errorString "unsupport up directory"))
            end
          else if decide (ty = TypeFile) then
            let* (ft, err) :=
              decodeFile (fresh_FileTarget ty) in
            match err with
            | Some e =>
                if strings_HasPrefix (Error e) "partial decompress to limited size"
                then ret (af, true, None)
                else ret (af, false, Some e)
            | None => ArchiveFile_loop decodeFile fuel' (append_Target (FileTarget_ ft) af)
            end
          else ret (af, false, Some (errorString ("unknown type: " +:+ fmt_s [ty])))
      end
  end.

(** The part of both entry points before the loop: the archive header, then
    [os.Mkdir("tmp", 0755)]. *)
Definition ArchiveFile_run (decodeFile : FileTarget -> M (FileTarget * option error))
    (af : ArchiveFile) : M (ArchiveFile * bool * option error) :=
  let* (h, err) := ReadFileHeader (af_header af) in
  let af := with_ArchiveHeader h af in
  match err with
  | Some e => ret (af, false, Some (errorString ("read file header failed: " +:+ Error e)))
  | None =>
      let* err := os_Mkdir "tmp" in
      if negb (is_nil err) && negb (from_option os_IsExist false err)
      then ret (af, false, err)
      else fun w => ArchiveFile_loop decodeFile (S (length (r_data (reader w)))) af w
  end.

(** [(af *ArchiveFile).Decompress] *)
Definition ArchiveFile_Decompress (af : ArchiveFile) (baseDIR : string) (limitSize : Z)
  : M (ArchiveFile * bool * option error) :=
  ArchiveFile_run (fun t => FileTarget_Decompress t baseDIR limitSize) af.

(** [(af *ArchiveFile).DecompressStream] *)
Definition ArchiveFile_DecompressStream (af : ArchiveFile) (limitSize : Z)
  : M (ArchiveFile * bool * option error) :=
  ArchiveFile_run (fun t => FileTarget_DecompressStream t limitSize) af.

End Decoder.

(** ** A codec instance and archives to run the decoder on *)

(** A codec with the header layout of QuickLZ: bit 1 of the flag byte selects
    4-byte size fields (else 1-byte), the compressed size comes first.  It
    decodes stored payloads and payloads made of one control word followed by
    literals, which is all the archives below contain; the packet of
    [sample_block "hello"] is the one of the example archive in the comment
    at the head of [qpress.go]. *)
Definition sample_width (h : list byte) : nat :=
  if Z.testbit (byte_to_Z (hd x00 h)) 1 then 4%nat else 1%nat.

Definition sample_Decompress (src : slice) (dst : list byte) : list byte * option error :=
  let bytes := slice_bytes src in
  let body := drop (1 + 2 * sample_width bytes) bytes in
  let literals := if Z.testbit (byte_to_Z (hd x00 bytes)) 0 then drop 4 body else body in
  if (length dst <=? length literals)%nat
  then (take (length dst) literals, None)
  else (dst, Some (errorString "corrupt input")).

Definition sample_codec : Codec := {|
  quicklz_New := None;
  Size_compressed := fun h => littleEndian (take (sample_width h) (drop 1 h));
  Size_decompressed := fun h =>
    littleEndian (take (sample_width h) (drop (1 + sample_width h) h));
  qlz_Decompress := sample_Decompress
|}.

(** [filepath.Join] on a directory without trailing separator and a plain
    file name. *)
Definition sample_Join (dir name : string) : string := dir +:+ "/" +:+ name.

Definition zeros (n : nat) : list byte := repeat x00 n.

(** A block record (after its type byte is written): starter, recovery
    information, checksum, and a packet with a 3-byte header, one control
    word and the literals [text]. *)
Definition sample_block (text : string) : list byte :=
  let n := String.length text in
  BlockStarter ++ zeros 8 ++ [xeb; x02; x25; x0d]
    ++ [x45; hd x00 (list_byte_of_string (String (ascii_of_nat (n + 7)) ""));
        hd x00 (list_byte_of_string (String (ascii_of_nat n) ""))]
    ++ [x00; x00; x00; x80] ++ list_byte_of_string text.

Definition sample_file (name : string) (blocks : list string) : list byte :=
  [TypeFile; hd x00 (list_byte_of_string (String (ascii_of_nat (String.length name)) ""));
   x00; x00; x00]
    ++ list_byte_of_string name ++ [x00]
    ++ concat (map sample_block blocks) ++ TrailerStarter ++ zeros 8.

Definition sample_header (chunkSize : byte) : list byte :=
  QpressMagic ++ [chunkSize] ++ zeros 7.

Definition sample_world (stream : list byte) : World :=
  {| reader := {| r_data := stream; r_end := io_EOF |};
     writer := {| w_written := []; w_broken := None |};
     fs := {| nodes := ∅; denied := ∅ |};
     ChunkSize := DefaultChunkSize;
     pool := [] |}.

(** An archive of two files, the first of two blocks; its chunk size is 64. *)
Definition sample_archive : list byte :=
  sample_header x40 ++ sample_file "c.txt" ["hello"; "world!"]
    ++ sample_file "d.txt" ["there"].

(** The decode of [sample_archive] paused after [n] bytes. *)
Definition sample_at (n : nat) : World :=
  set_ChunkSize 64 (sample_world (drop n sample_archive)).

(** The same, with a file "out/c.txt" already in the file system. *)
Definition sample_taken (n : nat) : World :=
  set_fs {| nodes := {[ "out/c.txt" := RegularFile (list_byte_of_string "old") ]};
            denied := ∅ |}
         (sample_at n).

(** A block record whose mini-header declares 3 compressed bytes. *)
Definition tiny_block : list byte :=
  drop 1 BlockStarter ++ zeros 8 ++ zeros 4 ++ [x44; x03; x00] ++ zeros 6.

(** An archive whose header declares the chunk size 5. *)
Definition small_chunk_archive : list byte :=
  sample_header x05 ++ sample_file "c.txt" ["hello"].

(** The value a call returned; [default] stands in for a call that did not
    return. *)
Definition value_of {A} (r : result A) (default : A) : A :=
  match r with Val a _ => a | _ => default end.

(** The zero value of [DataBlock]. *)
Definition zero_DataBlock : DataBlock :=
  {| BlockType := x00; db_StarterTail := repeat x00 7; db_RecoverInfo := repeat x00 8;
     Checksum := repeat x00 4; CompressedChunk := {| s_array := []; s_len := 0 |};
     CompressedSize := 0; DecompressedSize := 0; DecompressedOffset := 0 |}.

(** The parse of the first block of "c.txt": the block and the world it
    leaves. *)
Definition sample_parse : result (DataBlock * option error) :=
  (let* blk := NewDataBlock in @ReadBlock sample_codec blk) (sample_at 28).
Definition sample_parsed_block : DataBlock :=
  fst (value_of sample_parse (zero_DataBlock, None)).
Definition sample_parsed_world : World := world_of sample_parse (sample_at 28).

(** The decode of "c.txt" under the limit of 8 bytes: what it returns and the
    world it leaves. *)
Definition sample_limited : result (FileTarget * option error) :=
  @FileTarget_Decompress sample_codec sample_Join sequential
    (fresh_FileTarget TypeFile) "out" 8 (sample_at 17).
Definition sample_limited_target : FileTarget :=
  fst (value_of sample_limited (zero_FileTarget, None)).
Definition sample_limited_world : World := world_of sample_limited (sample_at 17).

(** The fresh block of a decode with chunk size 64. *)
Definition sample_fresh_block : DataBlock :=
  value_of (NewDataBlock (sample_at 28)) zero_DataBlock.


(** The stream decode of "c.txt": what it returns and the world it leaves. *)
Definition sample_streamed : result (FileTarget * option error) :=
  @FileTarget_DecompressStream sample_codec (fresh_FileTarget TypeFile) 0 (sample_at 17).
Definition sample_streamed_target : FileTarget :=
  fst (value_of sample_streamed (zero_FileTarget, None)).
Definition sample_streamed_world : World := world_of sample_streamed (sample_at 17).

(** The header of "c.txt" as [ReadHeader] returns it. *)
Definition sample_target_header : TargetHeader :=
  fst (value_of (ReadHeader (ft_header (fresh_FileTarget TypeFile)) (sample_at 17))
                (zero_TargetHeader, None)).


(** ** Notions used in the statements *)

(** The value [littleEndian] computes, as a sum: byte [i] weighs [256^i]. *)
Fixpoint le_value (bs : list byte) : Z :=
  match bs with
  | [] => 0
  | b :: bs' => byte_to_Z b + 256 * le_value bs'
  end.

(** The world after the reader has moved on to [rest]. *)
Definition advance (w : World) (rest : list byte) : World :=
  set_reader {| r_data := rest; r_end := r_end (reader w) |} w.

(** The worlds at the head of the target loop from which the archive ends:
    the stream is at its end, or the next type byte is zero, or a file target
    comes next, is decoded without error, and the archive ends from the world
    its decoder leaves. *)
Inductive CleanEnd (decodeFile : FileTarget -> M (FileTarget * option error))
  : World -> Prop :=
| CleanEnd_EOF (w : World) :
    r_data (reader w) = [] -> r_end (reader w) = io_EOF -> CleanEnd decodeFile w
| CleanEnd_zero (w : World) (rest : list byte) :
    r_data (reader w) = x00 :: rest -> CleanEnd decodeFile w
| CleanEnd_file (w : World) (rest : list byte) (ft : FileTarget) (w' : World) :
    r_data (reader w) = TypeFile :: rest ->
    decodeFile (fresh_FileTarget TypeFile) (advance w rest) = Val (ft, None) w' ->
    CleanEnd decodeFile w' ->
    CleanEnd decodeFile w.

(** The error value built at the size-limit check of the two file decoders. *)
Definition partial_limit_error (limitSize : Z) : error :=
  errorString ("partial decompress to limited size " +:+ pretty limitSize).

(** The offsets the block loop assigns, starting from [off]: each block gets
    the running offset, which then advances by the block's declared
    decompressed size in [int64] arithmetic. *)
Fixpoint chained (off : Z) (bs : list DataBlock) : Prop :=
  match bs with
  | [] => True
  | b :: bs' =>
      DecompressedOffset b = off /\ chained (wrap_int64 (off + DecompressedSize b)) bs'
  end.

(** The sum of the declared decompressed sizes, as an unbounded integer. *)
Fixpoint sum_sizes (bs : list DataBlock) : Z :=
  match bs with
  | [] => 0
  | b :: bs' => DecompressedSize b + sum_sizes bs'
  end.

(** The block [ReadBlock] leaves when it has read the starter tail [s], the
    recovery information [ri], the checksum [ck], the mini-header [hdr] and
    the payload: header and payload lie in the backing array of
    [CompressedChunk] from index 0 and 9. *)
Definition parsed_block {codec : Codec} (t : DataBlock) (s ri ck hdr payload : list byte)
  : DataBlock :=
  {| BlockType := BlockType t;
     db_StarterTail := s;
     db_RecoverInfo := ri;
     Checksum := ck;
     CompressedChunk :=
       {| s_array := array_write (array_write (s_array (CompressedChunk t)) 0 hdr) 9 payload;
          s_len := s_len (CompressedChunk t) |};
     CompressedSize := Size_compressed hdr;
     DecompressedSize := Size_decompressed hdr;
     DecompressedOffset := DecompressedOffset t |}.

(** [b] has everything [a] has: the same refused paths, every directory of
    [a] still a directory, every regular file still a regular file (its
    content may differ). *)
Definition fs_extends (a b : FS) : Prop :=
  denied b = denied a
  /\ forall p,
      match nodes a !! p with
      | Some Dir => nodes b !! p = Some Dir
      | Some (RegularFile _) => exists c, nodes b !! p = Some (RegularFile c)
      | None => True
      end.

(** A call is steady at a world when it returns or panics there (it does not
    run out of fuel) and leaves a reader that is no longer and ends the same
    way. *)
Definition steady_at {A} (m : M A) (w : World) : Prop :=
  match m w with
  | Val _ w' | Panic _ w' =>
      (length (r_data (reader w')) <= length (r_data (reader w)))%nat
      /\ r_end (reader w') = r_end (reader w)
  | OutOfFuel => False
  end.

Definition steady {A} (m : M A) : Prop := forall w, steady_at m w.

(** A call only reads when it returns or panics and changes nothing but the
    position of the reader. *)
Definition only_reads {A} (m : M A) : Prop :=
  forall w,
    match m w with
    | Val _ w' | Panic _ w' => exists rest, w' = advance w rest
    | OutOfFuel => False
    end.

(** A call is uniform when its outcome depends on the world through the
    reader and the package variable [ChunkSize] only: from two worlds that
    agree on these it returns the same value (or panics alike) and moves both
    readers to the same rest. *)
Definition uniform {A} (m : M A) : Prop :=
  forall w1 w2,
    reader w1 = reader w2 -> ChunkSize w1 = ChunkSize w2 ->
    match m w1 with
    | Val a w1' => exists rest, w1' = advance w1 rest /\ m w2 = Val a (advance w2 rest)
    | Panic msg w1' =>
        exists rest, w1' = advance w1 rest /\ m w2 = Panic msg (advance w2 rest)
    | OutOfFuel => False
    end.

(** A block record taken apart: recovery information, checksum, mini-header
    and payload; [block_record] is how it lies in the stream, its type byte
    'N' first (the first byte of the marker "NEWBNEWB"). *)
Record BlockRecord := {
  br_RecoverInfo : list byte;
  br_Checksum : list byte;
  br_header : list byte;
  br_payload : list byte
}.

Definition block_record (b : BlockRecord) : list byte :=
  BlockStarter ++ br_RecoverInfo b ++ br_Checksum b ++ br_header b ++ br_payload b.

(** A block record is well formed: its fields have the lengths of the
    format, and the packet (mini-header and payload) is as long as the
    mini-header declares. *)
Definition block_wellformed {codec : Codec} (b : BlockRecord) : Prop :=
  length (br_RecoverInfo b) = 8%nat
  /\ length (br_Checksum b) = 4%nat
  /\ length (br_header b) = 9%nat
  /\ Z.of_nat (length (br_payload b)) = Size_compressed (br_header b) - ChunkHeaderSize.

(** A well-formed block record whose packet fits a buffer of capacity [c]. *)
Definition block_fits {codec : Codec} (c : Z) (b : BlockRecord) : Prop :=
  block_wellformed b /\ Size_compressed (br_header b) <= c.

(** The block records of a file, as they lie in the stream between the
    header of the file and its trailer. *)
Definition block_records {codec : Codec} (body : list byte) : Prop :=
  exists blocks, body = concat (map block_record blocks) /\ Forall block_wellformed blocks.

(** The record of a file after its type byte 'F': the length of the name in
    four bytes, the name, a zero byte, the block records, and the trailer:
    the marker "ENDSENDS" and eight bytes of recovery information. *)
Definition file_record {codec : Codec} (name ri record : list byte) : Prop :=
  exists len4 body,
    record = len4 ++ name ++ x00 :: body ++ TrailerStarter ++ ri
    /\ length len4 = 4%nat
    /\ Z.of_nat (length name) = littleEndian len4
    /\ block_records body
    /\ length ri = 8%nat.


(** The buffer of a block, allocated for the chunk size [cs], once the packet
    of [b] has been read into it. *)
Definition chunk_slice (cs : Z) (b : BlockRecord) : slice :=
  {| s_array := array_write (array_write (repeat x00 (Z.to_nat (cs + 400))) 0 (br_header b))
                            9 (br_payload b);
     s_len := cs |}.

(** What the codec makes of the packet of [b], given a zeroed buffer of the
    size the mini-header declares. *)
Definition block_decoded {codec : Codec} (cs : Z) (b : BlockRecord)
  : list byte * option error :=
  qlz_Decompress (chunk_slice cs b)
                 (repeat x00 (Z.to_nat (Size_decompressed (br_header b)))).

(** A block record that fits the buffer, declares a decompressed size [make]
    accepts, and that the codec decompresses without error. *)
Definition block_decodes {codec : Codec} (cs : Z) (b : BlockRecord) : Prop :=
  block_fits (cs + 400) b
  /\ 0 <= Size_decompressed (br_header b) <= maxAlloc
  /\ snd (block_decoded cs b) = None.

(** A file record taken apart; [file_bytes] is how it lies in the stream, its
    type byte 'F' first. *)
Record FileRecord := {
  fr_length : list byte;
  fr_name : list byte;
  fr_blocks : list BlockRecord;
  fr_RecoverInfo : list byte
}.

Definition file_bytes (f : FileRecord) : list byte :=
  TypeFile :: fr_length f ++ fr_name f ++ x00
    :: concat (map block_record (fr_blocks f)) ++ TrailerStarter ++ fr_RecoverInfo f.

Definition file_decodes {codec : Codec} (cs : Z) (f : FileRecord) : Prop :=
  length (fr_length f) = 4%nat
  /\ Z.of_nat (length (fr_name f)) = littleEndian (fr_length f)
  /\ Forall (block_decodes cs) (fr_blocks f)
  /\ length (fr_RecoverInfo f) = 8%nat.

(** The content of a file: its blocks decompressed, in the order of the
    stream. *)
Definition file_output {codec : Codec} (cs : Z) (f : FileRecord) : list byte :=
  concat (map (fun b => fst (block_decoded cs b)) (fr_blocks f)).

(** The target the archive loop records for a file. *)
Definition file_target (f : FileRecord) : FileTarget :=
  {| ft_header := {| th_TargetType := TypeFile; NameLength := littleEndian (fr_length f);
                     Name := fr_name f; th_Terminator := x00 |};
     DataBlocks := [];
     ft_trailer := {| TrailerType := x00; ft_StarterTail := drop 1 TrailerStarter;
                      ft_RecoverInfo := fr_RecoverInfo f |} |}.

(** The blocks of a file that a positive size limit lets through, the
    running offset being [offset]: the longest prefix of the blocks whose
    declared decompressed sizes, added to the offset, stay within the limit. *)
Fixpoint blocks_within {codec : Codec} (limitSize offset : Z) (blocks : list BlockRecord)
  : list BlockRecord :=
  match blocks with
  | [] => []
  | b :: blocks' =>
      if limitSize <? offset + Size_decompressed (br_header b) then []
      else b :: blocks_within limitSize (offset + Size_decompressed (br_header b)) blocks'
  end.

(** The size limit lets a whole file through: there is none, or it is a
    limit that leaves room for one allocation below the largest [int64] and
    the declared sizes of the blocks add up to at most the limit. *)
Definition within_limit {codec : Codec} (limitSize : Z) (f : FileRecord) : Prop :=
  limitSize <= 0
  \/ (limitSize <= max_int64 - maxAlloc
      /\ blocks_within limitSize 0 (fr_blocks f) = fr_blocks f).

(** The block record [sample_block text], taken apart. *)
Definition sample_block_record (text : string) : BlockRecord :=
  {| br_RecoverInfo := take 8 (drop 8 (sample_block text));
     br_Checksum := take 4 (drop 16 (sample_block text));
     br_header := take 9 (drop 20 (sample_block text));
     br_payload := drop 29 (sample_block text) |}.

(** The file record [sample_file name blocks], taken apart. *)
Definition sample_file_record (name : string) (blocks : list string) : FileRecord :=
  {| fr_length :=
       [hd x00 (list_byte_of_string (String (ascii_of_nat (String.length name)) ""));
        x00; x00; x00];
     fr_name := list_byte_of_string name;
     fr_blocks := map sample_block_record blocks;
     fr_RecoverInfo := zeros 8 |}.

(** * Properties *)

(** ** Integers *)

Lemma byte_to_Z_range (b : byte) : 0 <= byte_to_Z b < 256.
Proof.
  unfold byte_to_Z. pose proof (Byte.to_N_bounded b) as H. lia.
Qed.

Lemma le_value_range (bs : list byte) : 0 <= le_value bs < 256 ^ Z.of_nat (length bs).
Proof.
  induction bs as [|b bs IH]; [simpl; lia|].
  cbn [le_value length]. rewrite Nat2Z.inj_succ, Z.pow_succ_r by lia.
  pose proof (byte_to_Z_range b). lia.
Qed.

Lemma littleEndian_le_value (bs : list byte) : littleEndian bs = le_value bs.
Proof.
  induction bs as [|b bs IH]; [reflexivity|].
  cbn [littleEndian le_value]. rewrite IH.
  pose proof (byte_to_Z_range b) as Hb. pose proof (le_value_range bs) as Hr.
  rewrite Z.shiftl_mul_pow2 by lia.
  change (2 ^ 8) with 256.
  rewrite <- Z.lxor_lor.
  - rewrite <- Z.add_nocarry_lxor; [lia|].
    apply Z.bits_inj'. intros n Hn. rewrite Z.land_spec, Z.bits_0.
    destruct (Z.ltb_spec n 8).
    + replace (le_value bs * 256) with (le_value bs * 2 ^ 8) by lia.
      rewrite (Z.mul_pow2_bits_low (le_value bs) 8 n) by lia. apply andb_false_r.
    + rewrite (Z.bits_above_log2 (byte_to_Z b) n); [reflexivity|lia|].
      destruct (Z.eq_dec (byte_to_Z b) 0) as [->|Hne]; [simpl; lia|].
      apply Z.log2_lt_pow2; [lia|].
      apply Z.lt_le_trans with (2 ^ 8); [change (2 ^ 8) with 256; lia|].
      apply Z.pow_le_mono_r; lia.
  - apply Z.bits_inj'. intros n Hn. rewrite Z.land_spec, Z.bits_0.
    destruct (Z.ltb_spec n 8).
    + replace (le_value bs * 256) with (le_value bs * 2 ^ 8) by lia.
      rewrite (Z.mul_pow2_bits_low (le_value bs) 8 n) by lia. apply andb_false_r.
    + rewrite (Z.bits_above_log2 (byte_to_Z b) n); [reflexivity|lia|].
      destruct (Z.eq_dec (byte_to_Z b) 0) as [->|Hne]; [simpl; lia|].
      apply Z.log2_lt_pow2; [lia|].
      apply Z.lt_le_trans with (2 ^ 8); [change (2 ^ 8) with 256; lia|].
      apply Z.pow_le_mono_r; lia.
Qed.

(** ** The reader *)

Lemma advance_same (w : World) : advance w (r_data (reader w)) = w.
Proof. destruct w as [[d e] wr f c p]. reflexivity. Qed.

Lemma io_ReadFull_enough (n : nat) (r : Reader) :
  (n <= length (r_data r))%nat ->
  io_ReadFull n r
  = (inl (take n (r_data r)), {| r_data := drop n (r_data r); r_end := r_end r |}).
Proof.
  intros H. unfold io_ReadFull. destruct n as [|n].
  - destruct r; reflexivity.
  - apply Nat.leb_le in H. rewrite H. reflexivity.
Qed.

Lemma io_ReadFull_short (n : nat) (r : Reader) :
  (length (r_data r) < n)%nat ->
  exists e, io_ReadFull n r = (inr e, {| r_data := []; r_end := r_end r |}).
Proof.
  intros H. unfold io_ReadFull. destruct n as [|n]; [lia|].
  apply Nat.leb_gt in H. rewrite H. eauto.
Qed.

Lemma binary_Read_enough (n : nat) (dst : list byte) (w : World) :
  (n <= length (r_data (reader w)))%nat ->
  binary_Read n dst w
  = Val (take n (r_data (reader w)), None) (advance w (drop n (r_data (reader w)))).
Proof.
  intros H. unfold binary_Read. rewrite io_ReadFull_enough by exact H. reflexivity.
Qed.

Lemma binary_Read_short (n : nat) (dst : list byte) (w : World) :
  (length (r_data (reader w)) < n)%nat ->
  exists e, binary_Read n dst w = Val (dst, Some e) (advance w []).
Proof.
  intros H. unfold binary_Read.
  destruct (io_ReadFull_short n (reader w) H) as [e ->]. eauto.
Qed.

Lemma binary_Read_app (bs rest dst : list byte) (w : World) :
  r_data (reader w) = bs ++ rest ->
  binary_Read (length bs) dst w = Val (bs, None) (advance w rest).
Proof.
  intros H. rewrite binary_Read_enough by (rewrite H, length_app; lia).
  rewrite H, take_app_length, drop_app_length. reflexivity.
Qed.

Lemma binary_Read_uint_enough (n : nat) (x : Z) (w : World) :
  (n <= length (r_data (reader w)))%nat ->
  binary_Read_uint n x w
  = Val (littleEndian (take n (r_data (reader w))), None)
        (advance w (drop n (r_data (reader w)))).
Proof.
  intros H. unfold binary_Read_uint. rewrite io_ReadFull_enough by exact H. reflexivity.
Qed.

Lemma binary_Read_uint_short (n : nat) (x : Z) (w : World) :
  (length (r_data (reader w)) < n)%nat ->
  exists e, binary_Read_uint n x w = Val (x, Some e) (advance w []).
Proof.
  intros H. unfold binary_Read_uint.
  destruct (io_ReadFull_short n (reader w) H) as [e ->]. eauto.
Qed.

Lemma binary_Read_cases (n : nat) (dst : list byte) (w : World) :
  ((n <= length (r_data (reader w)))%nat
   /\ binary_Read n dst w
      = Val (take n (r_data (reader w)), None) (advance w (drop n (r_data (reader w)))))
  \/ ((length (r_data (reader w)) < n)%nat
      /\ exists e, binary_Read n dst w = Val (dst, Some e) (advance w [])).
Proof.
  destruct (le_lt_dec n (length (r_data (reader w)))) as [H|H].
  - left. split; [exact H|apply binary_Read_enough, H].
  - right. split; [exact H|apply binary_Read_short, H].
Qed.

(** ** Every call returns or panics, and the reader only moves forward *)

Lemma steady_ret {A} (a : A) : steady (ret a).
Proof. intros w. cbn. split; [lia|reflexivity]. Qed.

Lemma steady_panic {A} (msg : string) : steady (@panic A msg).
Proof. intros w. cbn. split; [lia|reflexivity]. Qed.

Lemma steady_at_bind {A B} (m : M A) (k : A -> M B) (w : World) :
  steady_at m w ->
  (forall a w1, m w = Val a w1 ->
                (length (r_data (reader w1)) <= length (r_data (reader w)))%nat ->
                steady_at (k a) w1) ->
  steady_at (bind m k) w.
Proof.
  unfold steady_at, bind. intros Hm Hk.
  destruct (m w) as [a w1|msg w1|]; [|exact Hm|exact Hm].
  destruct Hm as [Hlen Hend]. specialize (Hk a w1 eq_refl Hlen).
  destruct (k a w1) as [b w2|msg w2|]; [| |exact Hk];
    destruct Hk as [Hlen2 Hend2]; split; (lia || congruence).
Qed.

Lemma steady_bind {A B} (m : M A) (k : A -> M B) :
  steady m -> (forall a, steady (k a)) -> steady (bind m k).
Proof.
  intros Hm Hk w. apply steady_at_bind; [apply Hm|]. intros a w1 _ _. apply Hk.
Qed.

Lemma steady_same_reader {A} (m : M A) :
  (forall w, match m w with
             | Val _ w' | Panic _ w' => reader w' = reader w
             | OutOfFuel => False
             end) ->
  steady m.
Proof.
  intros H w. unfold steady_at. specialize (H w).
  destruct (m w); try exact H; rewrite H; split; (lia || reflexivity).
Qed.

Lemma io_ReadFull_steady (n : nat) (r : Reader) :
  (length (r_data (snd (io_ReadFull n r))) <= length (r_data r))%nat
  /\ r_end (snd (io_ReadFull n r)) = r_end r.
Proof.
  unfold io_ReadFull. destruct n as [|n]; [cbn [snd]; split; [lia|reflexivity]|].
  destruct (S n <=? length (r_data r))%nat; cbn [snd r_data r_end length].
  - rewrite length_drop. split; [lia|reflexivity].
  - split; [lia|reflexivity].
Qed.

Lemma steady_binary_Read (n : nat) (dst : list byte) : steady (binary_Read n dst).
Proof.
  intros w. unfold steady_at, binary_Read.
  pose proof (io_ReadFull_steady n (reader w)) as H.
  destruct (io_ReadFull n (reader w)) as [[bs|e] r']; exact H.
Qed.

Lemma steady_binary_Read_uint (n : nat) (x : Z) : steady (binary_Read_uint n x).
Proof.
  intros w. unfold steady_at, binary_Read_uint.
  pose proof (io_ReadFull_steady n (reader w)) as H.
  destruct (io_ReadFull n (reader w)) as [[bs|e] r']; exact H.
Qed.

Create HintDb steady.
#[local] Hint Resolve steady_ret steady_panic steady_binary_Read steady_binary_Read_uint
  : steady.

(** One step through a monadic term. *)
Ltac steady_step :=
  lazymatch goal with
  | |- steady (bind _ _) => apply steady_bind; [|intros ?]
  | |- steady (match ?x with _ => _ end) => destruct x
  | |- steady (let _ := _ in _) => cbv zeta
  | |- steady _ => solve [auto with steady]
  end.
Ltac steady_tac := repeat steady_step.

Lemma steady_ReadByte : steady ReadByte.
Proof. unfold ReadByte. steady_tac. Qed.
#[local] Hint Resolve steady_ReadByte : steady.

Lemma steady_ReadType : steady ReadType.
Proof. exact steady_ReadByte. Qed.
#[local] Hint Resolve steady_ReadType : steady.

Lemma steady_ReadTerminator : steady ReadTerminator.
Proof. unfold ReadTerminator. steady_tac. Qed.
#[local] Hint Resolve steady_ReadTerminator : steady.

Lemma steady_ReadLengthU32EncodedString : steady ReadLengthU32EncodedString.
Proof. unfold ReadLengthU32EncodedString. steady_tac. Qed.
#[local] Hint Resolve steady_ReadLengthU32EncodedString : steady.

Lemma steady_ReadHeader (t : TargetHeader) : steady (ReadHeader t).
Proof. unfold ReadHeader. steady_tac. Qed.
#[local] Hint Resolve steady_ReadHeader : steady.

Lemma steady_ReadTrailer (t : FileTrailer) : steady (ReadTrailer t).
Proof. unfold ReadTrailer, ReadStarterTail, ReadRecoverInfo. steady_tac. Qed.
#[local] Hint Resolve steady_ReadTrailer : steady.

Lemma steady_ReadChecksum (t : DataBlock) : steady (ReadChecksum t).
Proof. unfold ReadChecksum. steady_tac. Qed.
#[local] Hint Resolve steady_ReadChecksum : steady.

Lemma steady_make (len cap : Z) : steady (make len cap).
Proof. unfold make. steady_tac. Qed.
#[local] Hint Resolve steady_make : steady.

Lemma steady_NewDataBlock : steady NewDataBlock.
Proof.
  intros w. unfold NewDataBlock.
  apply (steady_bind (make _ _)); [auto with steady|intros; auto with steady].
Qed.
#[local] Hint Resolve steady_NewDataBlock : steady.

Lemma steady_os_Mkdir (name : string) : steady (os_Mkdir name).
Proof.
  apply steady_same_reader. intros w. unfold os_Mkdir.
  destruct (decide _); [reflexivity|]. destruct (nodes (fs w) !! name); reflexivity.
Qed.

Lemma steady_os_Stat (name : string) : steady (os_Stat name).
Proof.
  apply steady_same_reader. intros w. unfold os_Stat.
  destruct (decide _); [reflexivity|]. destruct (nodes (fs w) !! name); reflexivity.
Qed.

Lemma steady_os_OpenFile (name : string) : steady (os_OpenFile name).
Proof.
  apply steady_same_reader. intros w. unfold os_OpenFile.
  destruct (decide _); [reflexivity|].
  destruct (nodes (fs w) !! name) as [[|c]|]; reflexivity.
Qed.

Lemma steady_Writer_Write (b : list byte) : steady (Writer_Write b).
Proof.
  apply steady_same_reader. intros w. unfold Writer_Write.
  destruct (w_broken (writer w)); reflexivity.
Qed.

Lemma steady_pond_New : steady pond_New.
Proof. apply steady_same_reader. intros w. reflexivity. Qed.

Lemma steady_pool_Submit (tk : Task) : steady (pool_Submit tk).
Proof. apply steady_same_reader. intros w. reflexivity. Qed.

#[local] Hint Resolve steady_os_Mkdir steady_os_Stat steady_os_OpenFile steady_Writer_Write
  steady_pond_New steady_pool_Submit : steady.

Lemma steady_ReadFileHeader (ah : ArchiveHeader) : steady (ReadFileHeader ah).
Proof.
  unfold ReadFileHeader. steady_tac.
Qed.
#[local] Hint Resolve steady_ReadFileHeader : steady.

(** ** The field readers touch nothing but the reader *)

Lemma advance_advance (w : World) (r1 r2 : list byte) :
  advance (advance w r1) r2 = advance w r2.
Proof. reflexivity. Qed.

Lemma only_reads_ret {A} (a : A) : only_reads (ret a).
Proof. intros w. exists (r_data (reader w)). cbn. now rewrite advance_same. Qed.

Lemma only_reads_panic {A} (msg : string) : only_reads (@panic A msg).
Proof. intros w. exists (r_data (reader w)). cbn. now rewrite advance_same. Qed.

Lemma only_reads_bind {A B} (m : M A) (k : A -> M B) :
  only_reads m -> (forall a, only_reads (k a)) -> only_reads (bind m k).
Proof.
  intros Hm Hk w. unfold bind. specialize (Hm w).
  destruct (m w) as [a w1|msg w1|]; [|exact Hm|exact Hm].
  destruct Hm as [r1 ->]. specialize (Hk a (advance w r1)).
  destruct (k a (advance w r1)) as [b w2|msg w2|]; [| |exact Hk];
    destruct Hk as [r2 ->]; exists r2; apply advance_advance.
Qed.

Lemma only_reads_binary_Read (n : nat) (dst : list byte) : only_reads (binary_Read n dst).
Proof.
  intros w. unfold binary_Read.
  pose proof (io_ReadFull_steady n (reader w)) as [_ He].
  destruct (io_ReadFull n (reader w)) as [[bs|e] [d e']]; cbn in He; subst e';
    exists d; reflexivity.
Qed.

Lemma only_reads_binary_Read_uint (n : nat) (x : Z) : only_reads (binary_Read_uint n x).
Proof.
  intros w. unfold binary_Read_uint.
  pose proof (io_ReadFull_steady n (reader w)) as [_ He].
  destruct (io_ReadFull n (reader w)) as [[bs|e] [d e']]; cbn in He; subst e';
    exists d; reflexivity.
Qed.

Create HintDb only_reads.
#[local] Hint Resolve only_reads_ret only_reads_panic only_reads_binary_Read
  only_reads_binary_Read_uint : only_reads.

Ltac only_reads_step :=
  lazymatch goal with
  | |- only_reads (bind _ _) => apply only_reads_bind; [|intros ?]
  | |- only_reads (match ?x with _ => _ end) => destruct x
  | |- only_reads (let _ := _ in _) => cbv zeta
  | |- only_reads _ => solve [auto with only_reads]
  end.
Ltac only_reads_tac := repeat only_reads_step.

Lemma only_reads_ReadType : only_reads ReadType.
Proof. unfold ReadType, ReadByte. only_reads_tac. Qed.

Lemma only_reads_ReadTerminator : only_reads ReadTerminator.
Proof. unfold ReadTerminator, ReadByte. only_reads_tac. Qed.
#[local] Hint Resolve only_reads_ReadType only_reads_ReadTerminator : only_reads.

Lemma only_reads_ReadHeader (t : TargetHeader) : only_reads (ReadHeader t).
Proof. unfold ReadHeader, ReadLengthU32EncodedString. only_reads_tac. Qed.

Lemma only_reads_ReadTrailer (t : FileTrailer) : only_reads (ReadTrailer t).
Proof. unfold ReadTrailer, ReadStarterTail, ReadRecoverInfo. only_reads_tac. Qed.

Lemma only_reads_NewDataBlock : only_reads NewDataBlock.
Proof.
  intros w. unfold NewDataBlock.
  apply (only_reads_bind (make _ _)); [unfold make; only_reads_tac|intros; only_reads_tac].
Qed.
#[local] Hint Resolve only_reads_ReadHeader only_reads_ReadTrailer only_reads_NewDataBlock
  : only_reads.

(** What a call that only reads leaves as it was. *)
Lemma only_reads_frame {A} (m : M A) (w : World) :
  only_reads m ->
  match m w with
  | Val _ w' | Panic _ w' =>
      fs w' = fs w /\ pool w' = pool w /\ writer w' = writer w
      /\ ChunkSize w' = ChunkSize w /\ r_end (reader w') = r_end (reader w)
  | OutOfFuel => False
  end.
Proof.
  intros H. specialize (H w).
  destruct (m w) as [a w'|msg w'|]; [| |exact H]; destruct H as [rest ->];
    repeat split; reflexivity.
Qed.

(** ** Reading a type byte *)

Lemma ReadType_nil (w : World) :
  r_data (reader w) = [] ->
  ReadType w = Val (x00, Some (r_end (reader w))) w.
Proof.
  intros H. unfold ReadType, ReadByte, bind, binary_Read, io_ReadFull.
  rewrite H. cbn. rewrite <- H. fold (advance w (r_data (reader w))).
  rewrite advance_same. reflexivity.
Qed.

Lemma ReadType_cons (w : World) (b : byte) (rest : list byte) :
  r_data (reader w) = b :: rest ->
  ReadType w = Val (b, None) (advance w rest).
Proof.
  intros H. unfold ReadType, ReadByte, bind, binary_Read, io_ReadFull.
  rewrite H. reflexivity.
Qed.

Lemma ReadType_inv (w w1 : World) (ty : byte) (err : option error) :
  ReadType w = Val (ty, err) w1 ->
  (r_data (reader w) = [] /\ ty = x00 /\ err = Some (r_end (reader w)) /\ w1 = w)
  \/ (exists rest, r_data (reader w) = ty :: rest /\ err = None /\ w1 = advance w rest).
Proof.
  destruct (r_data (reader w)) as [|b rest] eqn:Hd; intros H.
  - rewrite (ReadType_nil w Hd) in H. inversion H. left. auto.
  - rewrite (ReadType_cons w b rest Hd) in H. inversion H. subst. right. eauto.
Qed.

Lemma ReadType_returns (w : World) : exists ty err w1, ReadType w = Val (ty, err) w1.
Proof.
  destruct (r_data (reader w)) as [|b rest] eqn:Hd.
  - rewrite (ReadType_nil w Hd). eauto.
  - rewrite (ReadType_cons w b rest Hd). eauto.
Qed.

(** ** The archive header *)

Lemma ReadFileHeader_bad_magic (ah : ArchiveHeader) (w : World) :
  take 8 (r_data (reader w)) <> QpressMagic ->
  exists ah' e w',
    ReadFileHeader ah w = Val (ah', Some e) w'
    /\ fs w' = fs w /\ pool w' = pool w /\ writer w' = writer w
    /\ ChunkSize w' = ChunkSize w
    /\ ((8 <= length (r_data (reader w)))%nat ->
        e = errorString ("invalid magic: " +:+ fmt_s (take 8 (r_data (reader w))))
        /\ r_data (reader w') = drop 8 (r_data (reader w))).
Proof.
  intros Hne. unfold ReadFileHeader, bind.
  destruct (le_lt_dec 8 (length (r_data (reader w)))) as [Hlen|Hlen].
  - rewrite binary_Read_enough by exact Hlen. cbn [Magic].
    destruct (decide (take 8 (r_data (reader w)) <> QpressMagic)) as [_|Heq];
      [|exfalso; apply Heq, Hne].
    eexists _, _, _. split; [reflexivity|]. repeat split; reflexivity.
  - destruct (binary_Read_short 8 (Magic ah) w Hlen) as [e ->].
    eexists _, _, _. split; [reflexivity|]. repeat split; try reflexivity; lia.
Qed.

Lemma ReadFileHeader_good (ah : ArchiveHeader) (w : World) (cs rest : list byte) :
  r_data (reader w) = QpressMagic ++ cs ++ rest ->
  length cs = 8%nat ->
  ReadFileHeader ah w
  = Val ({| Magic := QpressMagic; ah_ChunkSize := littleEndian cs |}, None)
        (set_ChunkSize (littleEndian cs) (advance w rest)).
Proof.
  intros Hd Hlen. unfold ReadFileHeader, bind.
  change 8%nat with (length QpressMagic) at 1.
  rewrite (binary_Read_app QpressMagic (cs ++ rest)) by exact Hd. cbn [Magic].
  destruct (decide (QpressMagic <> QpressMagic)) as [Hne|_]; [congruence|].
  rewrite <- Hlen.
  rewrite (binary_Read_uint_enough (length cs)) by (cbn; rewrite length_app; lia).
  cbn [advance set_reader reader r_data r_end ah_ChunkSize Magic].
  rewrite take_app_length, drop_app_length. reflexivity.
Qed.

Section Properties.

Context {codec : Codec}.
Variable filepath_Join : string -> string -> string.
Variable schedule : Schedule.

(** ** The decoder returns or panics *)

Lemma steady_ReadChunk (t : DataBlock) : steady (ReadChunk t).
Proof. unfold ReadChunk. steady_tac. Qed.
#[local] Hint Resolve steady_ReadChunk : steady.

Lemma steady_ReadBlock (t : DataBlock) : steady (ReadBlock t).
Proof. unfold ReadBlock, ReadStarterTail, ReadRecoverInfo. steady_tac. Qed.
#[local] Hint Resolve steady_ReadBlock : steady.

Lemma steady_defer {A} (d : World -> World) (body : M A) (w : World) :
  (forall w', reader (d w') = reader w') ->
  steady_at body w -> steady_at (defer d body) w.
Proof.
  intros Hd. unfold steady_at, defer.
  destruct (body w) as [a w'|msg w'|]; try rewrite Hd; auto.
Qed.

Lemma steady_FileTarget_Decompress_loop (fuel : nat) (f : string) (limitSize offset : Z)
    (t : FileTarget) (w : World) :
  (length (r_data (reader w)) < fuel)%nat ->
  steady_at (FileTarget_Decompress_loop fuel f limitSize offset t) w.
Proof.
  revert offset w. induction fuel as [|fuel IH]; intros offset w Hfuel; [lia|].
  cbn [FileTarget_Decompress_loop].
  apply steady_at_bind; [apply steady_ReadType|].
  intros [ty err] w1 Hrt _.
  destruct (ReadType_inv _ _ _ _ Hrt) as [(_ & _ & -> & _)|(rest & Hd & -> & ->)];
    [apply steady_ret|].
  assert (Hw1 : (length (r_data (reader (advance w rest))) < fuel)%nat)
    by (cbn; rewrite Hd in Hfuel; cbn in Hfuel; lia).
  destruct (decide (ty = TypeNew)); [|destruct (decide (ty = TypeEnd))].
  - apply steady_at_bind; [apply steady_NewDataBlock|]. intros b w2 _ H2.
    apply steady_at_bind; [apply steady_ReadBlock|]. intros [b' err] w3 _ H3.
    destruct err; [apply steady_ret|].
    destruct (_ && _); [apply steady_ret|].
    apply steady_at_bind; [apply steady_pool_Submit|]. intros _ w4 _ H4.
    apply IH. lia.
  - apply steady_bind; [auto with steady|]. intros [tr err]. destruct err; apply steady_ret.
  - apply steady_ret.
Qed.

Lemma steady_FileTarget_DecompressStream_loop (fuel : nat) (limitSize offset : Z)
    (t : FileTarget) (w : World) :
  (length (r_data (reader w)) < fuel)%nat ->
  steady_at (FileTarget_DecompressStream_loop fuel limitSize offset t) w.
Proof.
  revert offset w. induction fuel as [|fuel IH]; intros offset w Hfuel; [lia|].
  cbn [FileTarget_DecompressStream_loop].
  apply steady_at_bind; [apply steady_ReadType|].
  intros [ty err] w1 Hrt _.
  destruct (ReadType_inv _ _ _ _ Hrt) as [(_ & _ & -> & _)|(rest & Hd & -> & ->)];
    [apply steady_ret|].
  assert (Hw1 : (length (r_data (reader (advance w rest))) < fuel)%nat)
    by (cbn; rewrite Hd in Hfuel; cbn in Hfuel; lia).
  destruct (decide (ty = TypeNew)); [|destruct (decide (ty = TypeEnd))].
  - apply steady_at_bind; [apply steady_NewDataBlock|]. intros b w2 _ H2.
    apply steady_at_bind; [apply steady_ReadBlock|]. intros [b' err] w3 _ H3.
    destruct err; [apply steady_ret|].
    destruct (_ && _); [apply steady_ret|].
    apply steady_at_bind; [apply steady_make|]. intros buf w4 _ H4.
    destruct (DecompressChunk _ _) as [chunk [e1|]]; [apply steady_ret|].
    apply steady_at_bind; [apply steady_Writer_Write|]. intros [e5|] w5 _ H5;
      [apply steady_ret|].
    apply IH. lia.
  - apply steady_bind; [auto with steady|]. intros [tr err]. destruct err; apply steady_ret.
  - apply steady_ret.
Qed.

Lemma steady_FileTarget_Decompress (t : FileTarget) (baseDIR : string) (limitSize : Z) :
  steady (FileTarget_Decompress filepath_Join schedule t baseDIR limitSize).
Proof.
  unfold FileTarget_Decompress.
  apply steady_bind; [auto with steady|]. intros [h [e|]]; [apply steady_ret|].
  apply steady_bind; [auto with steady|]. intros err.
  destruct (_ && _); [apply steady_ret|]. destruct (is_nil err); [apply steady_ret|].
  apply steady_bind; [auto with steady|]. intros [f [e|]]; [apply steady_ret|].
  apply steady_bind; [auto with steady|]. intros _ w.
  apply steady_defer; [reflexivity|].
  apply (steady_FileTarget_Decompress_loop _ f limitSize 0 _ w). lia.
Qed.

Lemma steady_FileTarget_DecompressStream (t : FileTarget) (limitSize : Z) :
  steady (FileTarget_DecompressStream t limitSize).
Proof.
  unfold FileTarget_DecompressStream.
  apply steady_bind; [auto with steady|]. intros [h [e|]]; [apply steady_ret|].
  intros w. apply (steady_FileTarget_DecompressStream_loop _ limitSize 0 _ w). lia.
Qed.

Lemma steady_ArchiveFile_loop (decodeFile : FileTarget -> M (FileTarget * option error))
    (fuel : nat) (af : ArchiveFile) (w : World) :
  (forall t, steady (decodeFile t)) ->
  (length (r_data (reader w)) < fuel)%nat ->
  steady_at (ArchiveFile_loop decodeFile fuel af) w.
Proof.
  intros Hdec. revert af w. induction fuel as [|fuel IH]; intros af w Hfuel; [lia|].
  cbn [ArchiveFile_loop].
  apply steady_at_bind; [apply steady_ReadType|].
  intros [ty err] w1 Hrt _.
  destruct (ReadType_inv _ _ _ _ Hrt) as [(_ & _ & -> & _)|(rest & Hd & -> & ->)].
  { destruct (is_io_EOF _); apply steady_ret. }
  assert (Hw1 : (length (r_data (reader (advance w rest))) < fuel)%nat)
    by (cbn; rewrite Hd in Hfuel; cbn in Hfuel; lia).
  destruct (decide (ty = x00)); [apply steady_ret|].
  destruct (decide (ty = TypeDown)).
  { apply steady_bind; [unfold DownTarget_Read; auto with steady|].
    intros [d [e1|]]; apply steady_ret. }
  destruct (decide (ty = TypeUp)).
  { apply steady_bind; [unfold UpTarget_Read, UpTarget_ReadHeader; auto with steady|].
    intros [d [e1|]]; apply steady_ret. }
  destruct (decide (ty = TypeFile)); [|apply steady_ret].
  apply steady_at_bind; [apply Hdec|]. intros [ft [e1|]] w2 _ H2.
  - destruct (strings_HasPrefix _ _); apply steady_ret.
  - apply IH. lia.
Qed.

Lemma steady_ArchiveFile_run (decodeFile : FileTarget -> M (FileTarget * option error))
    (af : ArchiveFile) :
  (forall t, steady (decodeFile t)) ->
  steady (ArchiveFile_run decodeFile af).
Proof.
  intros Hdec. unfold ArchiveFile_run.
  apply steady_bind; [auto with steady|]. intros [h [e|]]; [apply steady_ret|].
  apply steady_bind; [auto with steady|]. intros err.
  destruct (_ && _); [apply steady_ret|].
  intros w. apply steady_ArchiveFile_loop; [exact Hdec|lia].
Qed.

(** Both entry points are total: on every stream and file system they return
    or panic, they never exhaust the fuel they give their loops. *)
Lemma ArchiveFile_Decompress_total (af : ArchiveFile) (baseDIR : string) (limitSize : Z)
    (w : World) :
  ArchiveFile_Decompress filepath_Join schedule af baseDIR limitSize w <> OutOfFuel
  /\ ArchiveFile_DecompressStream af limitSize w <> OutOfFuel.
Proof.
  split.
  - pose proof (steady_ArchiveFile_run
                  (fun t => FileTarget_Decompress filepath_Join schedule
                              t baseDIR limitSize) af
                  (fun t => steady_FileTarget_Decompress t baseDIR limitSize) w) as H.
    unfold steady_at in H. unfold ArchiveFile_Decompress. intros E. rewrite E in H. exact H.
  - pose proof (steady_ArchiveFile_run
                  (fun t => FileTarget_DecompressStream t limitSize) af
                  (fun t => steady_FileTarget_DecompressStream t limitSize) w) as H.
    unfold steady_at in H. unfold ArchiveFile_DecompressStream. intros E.
    rewrite E in H. exact H.
Qed.

(** ** The magic and the chunk size *)

(** C6. A stream whose first 8 bytes are not the magic "qpress10" (or that is
    shorter than 8 bytes) makes [ArchiveFile.Decompress] return an error at
    once: with 8 bytes present the error is the invalid-magic error and
    exactly those 8 bytes have been consumed, no target is recorded, and the
    file system, the pool and the package variable are as before.  When the
    magic matches and 8 more bytes follow, [ReadFileHeader] succeeds and the
    little-endian value of those bytes, a number below [2^64], becomes the
    header's chunk size and the package variable [ChunkSize]. *)
Theorem C6_magic_and_chunk_size (af : ArchiveFile) (baseDIR : string) (limitSize : Z)
    (w : World) :
  (take 8 (r_data (reader w)) <> QpressMagic ->
   exists af' e w',
     ArchiveFile_Decompress filepath_Join schedule af baseDIR limitSize w
     = Val (af', false, Some e) w'
     /\ Targets af' = Targets af /\ fs w' = fs w /\ pool w' = pool w
     /\ ((8 <= length (r_data (reader w)))%nat ->
         e = errorString ("read file header failed: invalid magic: "
                          +:+ fmt_s (take 8 (r_data (reader w))))
         /\ r_data (reader w') = drop 8 (r_data (reader w))))
  /\ (forall cs rest,
        r_data (reader w) = QpressMagic ++ cs ++ rest ->
        length cs = 8%nat ->
        ReadFileHeader (af_header af) w
        = Val ({| Magic := QpressMagic; ah_ChunkSize := littleEndian cs |}, None)
              (set_ChunkSize (littleEndian cs) (advance w rest))
        /\ littleEndian cs = le_value cs
        /\ 0 <= littleEndian cs < 2 ^ 64).
Proof.
  split.
  - intros Hne.
    destruct (ReadFileHeader_bad_magic (af_header af) w Hne)
      as (ah' & e & w' & Hrun & Hfs & Hpool & _ & _ & Hlen).
    unfold ArchiveFile_Decompress, ArchiveFile_run, bind. rewrite Hrun.
    eexists _, _, w'. split; [reflexivity|].
    split; [reflexivity|]. split; [exact Hfs|]. split; [exact Hpool|].
    intros H8. destruct (Hlen H8) as [-> Hrest]. split; [reflexivity|exact Hrest].
  - intros cs rest Hd Hlen. split; [|split].
    + apply ReadFileHeader_good; assumption.
    + apply littleEndian_le_value.
    + rewrite littleEndian_le_value. pose proof (le_value_range cs) as H.
      rewrite Hlen in H. change (256 ^ Z.of_nat 8) with (2 ^ 64) in H. exact H.
Qed.

Lemma only_reads_ReadBlock (t : DataBlock) : only_reads (ReadBlock t).
Proof.
  unfold ReadBlock, ReadStarterTail, ReadRecoverInfo, ReadChecksum, ReadChunk.
  only_reads_tac.
Qed.
#[local] Hint Resolve only_reads_ReadBlock : only_reads.

(** ** Parsing a block *)

Lemma length_array_write (arr : list byte) (lo : nat) (bs : list byte) :
  (lo + length bs <= length arr)%nat ->
  length (array_write arr lo bs) = length arr.
Proof.
  intros H. unfold array_write. rewrite !length_app, length_take, length_drop. lia.
Qed.

(** The four ways [ReadBlock] can go on a block whose buffer has room for the
    mini-header, told apart by the stream alone. *)
Lemma ReadBlock_cases (t : DataBlock) (w : World) :
  ChunkHeaderSize <= cap (CompressedChunk t) ->
  let d := r_data (reader w) in
  let hdr := take 9 (drop 19 d) in
  let csize := Size_compressed hdr in
  let n := Z.to_nat (csize - ChunkHeaderSize) in
  (((length d < 28)%nat \/ take 7 d <> drop 1 BlockStarter)
   /\ exists t' e w', ReadBlock t w = Val (t', Some e) w')
  \/ ((28 <= length d)%nat /\ take 7 d = drop 1 BlockStarter
      /\ (csize < ChunkHeaderSize \/ cap (CompressedChunk t) < csize)
      /\ ReadBlock t w = Panic "slice bounds out of range" (advance w (drop 28 d)))
  \/ ((28 <= length d)%nat /\ take 7 d = drop 1 BlockStarter
      /\ ChunkHeaderSize <= csize <= cap (CompressedChunk t)
      /\ (length d < 28 + n)%nat
      /\ exists t' e w', ReadBlock t w = Val (t', Some e) w')
  \/ ((28 + n <= length d)%nat /\ take 7 d = drop 1 BlockStarter
      /\ ChunkHeaderSize <= csize <= cap (CompressedChunk t)
      /\ ReadBlock t w
         = Val (parsed_block t (take 7 d) (take 8 (drop 7 d)) (take 4 (drop 15 d)) hdr
                             (take n (drop 28 d)), None)
               (advance w (drop (28 + n) d))).
Proof.
  intros Hcap d hdr csize n.
  remember (ReadBlock t w) as r eqn:Hr.
  unfold ReadBlock, ReadStarterTail, ReadRecoverInfo in Hr. unfold bind at 1 in Hr.
  destruct (binary_Read_cases 7 (db_StarterTail t) w) as [[L1 E]|[L1 [e E]]];
    rewrite E in Hr; clear E; fold d in L1;
    [|left; split; [left; lia|subst r; eauto]].
  fold d in Hr. cbn [db_StarterTail with_StarterTail] in Hr.
  destruct (decide (take 7 d <> drop 1 BlockStarter)) as [Hne|Heq];
    [left; split; [right; exact Hne|subst r; eauto]|].
  apply dec_stable in Heq.
  unfold bind at 1 in Hr.
  destruct (binary_Read_cases 8 (db_RecoverInfo (with_StarterTail (take 7 d) t))
                              (advance w (drop 7 d))) as [[L2 E]|[L2 [e E]]];
    rewrite E in Hr; clear E;
    cbn [advance set_reader reader r_data r_end] in L2; rewrite length_drop in L2;
    [|left; split; [left; lia|subst r; eauto]].
  cbn [advance set_reader reader r_data r_end] in Hr. rewrite drop_drop in Hr.
  unfold ReadChecksum in Hr. unfold bind at 1 in Hr. unfold bind at 1 in Hr.
  match type of Hr with
  | context [binary_Read 4 ?dst ?w0] =>
      destruct (binary_Read_cases 4 dst w0) as [[L3 E]|[L3 [e E]]]
  end;
    rewrite E in Hr; clear E;
    cbn [advance set_reader reader r_data r_end] in L3; rewrite length_drop in L3;
    [|left; split; [left; lia|subst r; cbn; eauto]].
  cbn [advance set_reader reader r_data r_end] in Hr. rewrite drop_drop in Hr.
  cbn [ret] in Hr. unfold bind at 1 in Hr. unfold ReadChunk in Hr.
  cbn [CompressedChunk with_Checksum with_RecoverInfo with_StarterTail] in Hr.
  destruct (Z.ltb_spec (cap (CompressedChunk t)) ChunkHeaderSize) as [Hlt|_]; [lia|].
  change (Z.to_nat ChunkHeaderSize) with 9%nat in Hr.
  unfold bind at 1 in Hr.
  match type of Hr with
  | context [binary_Read 9 ?dst ?w0] =>
      destruct (binary_Read_cases 9 dst w0) as [[L4 E]|[L4 [e E]]]
  end;
    rewrite E in Hr; clear E;
    cbn [advance set_reader reader r_data r_end] in L4; rewrite length_drop in L4;
    [|left; split; [left; lia|subst r; cbn; eauto]].
  cbn [advance set_reader reader r_data r_end] in Hr. rewrite drop_drop in Hr.
  change (7 + 8 + 4)%nat with 19%nat in *. change (7 + 8)%nat with 15%nat in *.
  fold hdr in Hr.
  cbn [CompressedSize with_CompressedSize CompressedChunk with_chunk_bytes s_array s_len
       with_Checksum with_RecoverInfo with_StarterTail] in Hr.
  fold csize in Hr.
  assert (Hlh : length hdr = 9%nat) by (subst hdr; rewrite length_take, length_drop; lia).
  assert (Hcap1 : cap {| s_array := array_write (s_array (CompressedChunk t)) 0 hdr;
                         s_len := s_len (CompressedChunk t) |}
                  = cap (CompressedChunk t)).
  { unfold cap. cbn [s_array]. rewrite length_array_write; [reflexivity|].
    unfold cap, ChunkHeaderSize in Hcap. lia. }
  rewrite Hcap1 in Hr. change (19 + 9)%nat with 28%nat in Hr.
  destruct (Z.ltb_spec csize ChunkHeaderSize) as [Hlo|Hlo].
  { right; left. subst r. repeat split; try assumption; try lia. }
  destruct (Z.ltb_spec (cap (CompressedChunk t)) csize) as [Hhi|Hhi].
  { right; left. subst r. repeat split; try assumption; try lia. }
  cbn [orb] in Hr. fold n in Hr. unfold bind at 1 in Hr.
  match type of Hr with
  | context [binary_Read n ?dst ?w0] =>
      destruct (binary_Read_cases n dst w0) as [[L5 E]|[L5 [e E]]]
  end;
    rewrite E in Hr; clear E;
    cbn [advance set_reader reader r_data r_end] in L5; rewrite length_drop in L5.
  - right; right; right. cbn [advance set_reader reader r_data r_end] in Hr.
    rewrite !drop_drop in Hr. subst r.
    split; [lia|]. split; [assumption|]. split; [lia|]. reflexivity.
  - right; right; left. subst r.
    split; [lia|]. split; [assumption|]. split; [lia|]. split; [lia|]. cbn. eauto.
Qed.

Lemma block_fields (s ri ck hdr payload rest : list byte) :
  length s = 7%nat -> length ri = 8%nat -> length ck = 4%nat -> length hdr = 9%nat ->
  let d := s ++ ri ++ ck ++ hdr ++ payload ++ rest in
  take 7 d = s /\ take 8 (drop 7 d) = ri /\ take 4 (drop 15 d) = ck
  /\ take 9 (drop 19 d) = hdr /\ take (length payload) (drop 28 d) = payload
  /\ drop (28 + length payload) d = rest
  /\ length d = (28 + length payload + length rest)%nat.
Proof.
  intros Hs Hri Hck Hh d.
  assert (D7 : drop 7 d = ri ++ ck ++ hdr ++ payload ++ rest)
    by (subst d; apply drop_app_length'; congruence).
  assert (D15 : drop 15 d = ck ++ hdr ++ payload ++ rest).
  { change 15%nat with (7 + 8)%nat. rewrite <- drop_drop, D7.
    apply drop_app_length'; congruence. }
  assert (D19 : drop 19 d = hdr ++ payload ++ rest).
  { change 19%nat with (15 + 4)%nat. rewrite <- drop_drop, D15.
    apply drop_app_length'; congruence. }
  assert (D28 : drop 28 d = payload ++ rest).
  { change 28%nat with (19 + 9)%nat. rewrite <- drop_drop, D19.
    apply drop_app_length'; congruence. }
  repeat split.
  - subst d. apply take_app_length'; congruence.
  - rewrite D7. apply take_app_length'; congruence.
  - rewrite D15. apply take_app_length'; congruence.
  - rewrite D19. apply take_app_length'; congruence.
  - rewrite D28. apply take_app_length'; reflexivity.
  - rewrite <- drop_drop, D28. apply drop_app_length'; reflexivity.
  - subst d. rewrite !length_app. lia.
Qed.

(** C8. [ReadBlock], on a block whose buffer has room for the mini-header:
    it returns without error exactly when the stream holds, in this order,
    the 7 bytes of the block marker after its first, 8 bytes of recovery
    information, 4 bytes of checksum, a 9-byte mini-header [hdr] and
    [Size_compressed hdr - 9] payload bytes (the declared size lying within 9
    and the buffer's capacity); these fields are stored as read, the sizes are
    those the codec reads off [hdr], and the reader stands right behind the
    payload.  Seven bytes that are not the marker give the error "invalid
    block starter tail".  A stream that ends inside the 28 fixed bytes or
    inside the payload gives an error, never a result. *)
Theorem C8_ReadBlock_record (t : DataBlock) (w : World) :
  ChunkHeaderSize <= cap (CompressedChunk t) ->
  let d := r_data (reader w) in
  (forall t' w',
      ReadBlock t w = Val (t', None) w'
      <-> exists ri ck hdr payload rest,
        d = drop 1 BlockStarter ++ ri ++ ck ++ hdr ++ payload ++ rest
        /\ length ri = 8%nat /\ length ck = 4%nat /\ length hdr = 9%nat
        /\ ChunkHeaderSize <= Size_compressed hdr <= cap (CompressedChunk t)
        /\ Z.of_nat (length payload) = Size_compressed hdr - ChunkHeaderSize
        /\ t' = parsed_block t (drop 1 BlockStarter) ri ck hdr payload
        /\ w' = advance w rest)
  /\ ((7 <= length d)%nat -> take 7 d <> drop 1 BlockStarter ->
      ReadBlock t w
      = Val (with_StarterTail (take 7 d) t,
             Some (errorString ("invalid block starter tail: " +:+ fmt_s (take 7 d))))
            (advance w (drop 7 d)))
  /\ ((length d < 28)%nat
      \/ (take 7 d = drop 1 BlockStarter
          /\ ChunkHeaderSize <= Size_compressed (take 9 (drop 19 d))
             <= cap (CompressedChunk t)
          /\ Z.of_nat (length d)
             < 28 + (Size_compressed (take 9 (drop 19 d)) - ChunkHeaderSize)) ->
      exists t' e w', ReadBlock t w = Val (t', Some e) w').
Proof.
  intros Hcap d.
  pose proof (ReadBlock_cases t w Hcap) as Hcases. cbv zeta in Hcases. fold d in Hcases.
  split; [|split].
  - intros t' w'. split.
    + intros Hrun.
      destruct Hcases as [(_ & t1 & e & w1 & E)|[(_ & _ & _ & E)|[(_ & _ & _ & _ & t1 & e & w1 & E)
                         |(Hlen & Hs & Hc & E)]]];
        rewrite E in Hrun; try discriminate.
      inversion Hrun; subst t' w'; clear Hrun.
      set (hdr := take 9 (drop 19 d)) in *.
      set (n := Z.to_nat (Size_compressed hdr - ChunkHeaderSize)) in *.
      exists (take 8 (drop 7 d)), (take 4 (drop 15 d)), hdr, (take n (drop 28 d)),
        (drop (28 + n) d).
      assert (Hlh : length hdr = 9%nat)
        by (subst hdr; rewrite length_take, length_drop; lia).
      repeat split; try (rewrite ?length_take, ?length_drop; lia); try apply Hc.
      * rewrite <- Hs.
        rewrite <- (take_drop 7 d) at 1. f_equal.
        rewrite <- (take_drop 8 (drop 7 d)) at 1. f_equal. rewrite drop_drop.
        rewrite <- (take_drop 4 (drop (7 + 8) d)) at 1. f_equal. rewrite drop_drop.
        rewrite <- (take_drop 9 (drop (7 + 8 + 4) d)) at 1. f_equal. rewrite drop_drop.
        rewrite <- (take_drop n (drop (7 + 8 + 4 + 9) d)) at 1. f_equal.
        rewrite drop_drop. reflexivity.
      * rewrite Hs. reflexivity.
    + intros (ri & ck & hdr & payload & rest & Hd & Hri & Hck & Hh & Hc & Hp & -> & ->).
      destruct (block_fields (drop 1 BlockStarter) ri ck hdr payload rest
                  eq_refl Hri Hck Hh) as (F1 & F2 & F3 & F4 & F5 & F6 & F7).
      cbv zeta in F1, F2, F3, F4, F5, F6, F7. rewrite <- Hd in *.
      assert (Hn : Z.to_nat (Size_compressed hdr - ChunkHeaderSize) = length payload)
        by lia.
      rewrite F4, Hn in Hcases.
      destruct Hcases as [([Hl|Hne] & _)|[(_ & _ & Hbad & _)|[(_ & _ & _ & Hl & _)
                         |(_ & _ & _ & E)]]]; try lia; try contradiction.
      rewrite E, F1, F2, F3, F5, F6. reflexivity.
  - intros Hlen Hne. unfold ReadBlock, ReadStarterTail. unfold bind at 1.
    rewrite binary_Read_enough by exact Hlen. fold d.
    cbn [db_StarterTail with_StarterTail].
    destruct (decide (take 7 d <> drop 1 BlockStarter)); [reflexivity|contradiction].
  - intros Hshort.
    destruct Hcases as [(_ & E)|[(Hl & _ & Hbad & _)|[(_ & _ & _ & _ & E)
                       |(Hl & _ & _ & _)]]]; try exact E;
      exfalso; destruct Hshort as [Hs|(_ & Hc & Hs)]; unfold ChunkHeaderSize in *; lia.
Qed.

(** ** Panics of the block parser *)

Lemma NewDataBlock_Val (w w0 : World) (b : DataBlock) :
  0 <= ChunkSize w < 2 ^ 64 ->
  NewDataBlock w = Val b w0 ->
  w0 = w
  /\ cap (CompressedChunk b) = ChunkSize w + 400
  /\ s_len (CompressedChunk b) = ChunkSize w
  /\ ChunkSize w + 400 <= maxAlloc.
Proof.
  intros Hcs. unfold NewDataBlock, bind, make.
  set (len := wrap_int64 (ChunkSize w)).
  set (c := wrap_int64 (wrap_uint64 (ChunkSize w + 400))).
  destruct (Z.ltb_spec len 0) as [|Hlen]; [discriminate|].
  destruct (Z.ltb_spec c len) as [|Hc]; [discriminate|].
  destruct (Z.ltb_spec maxAlloc c) as [|Hmax]; [discriminate|].
  cbn [orb ret]. intros H. inversion H; subst b w0; clear H.
  cbn [CompressedChunk s_len s_array]. unfold cap. cbn [s_array].
  rewrite repeat_length.
  assert (Hl : len = ChunkSize w).
  { subst len. unfold wrap_int64 in *. Z.div_mod_to_equations. lia. }
  assert (Hc' : c = ChunkSize w + 400).
  { subst c len. unfold wrap_int64, wrap_uint64 in *. Z.div_mod_to_equations. lia. }
  rewrite Z2Nat.id by lia. repeat split; lia.
Qed.

(** C9, as the code has it.  [ReadBlock] on a fresh block, the 28 fixed bytes
    of the record being in the stream with the right marker: the parse panics
    exactly when the mini-header declares a compressed size below 9 or above
    [ChunkSize + 400], the capacity of the buffer.  The length of the buffer,
    [ChunkSize], plays no part: both slice expressions are checked against
    the capacity. *)
Theorem C9_block_parse_panics (w w0 : World) (b : DataBlock) :
  0 <= ChunkSize w < 2 ^ 64 ->
  NewDataBlock w = Val b w0 ->
  let d := r_data (reader w) in
  (28 <= length d)%nat ->
  take 7 d = drop 1 BlockStarter ->
  let csize := Size_compressed (take 9 (drop 19 d)) in
  (exists msg w', ReadBlock b w0 = Panic msg w')
  <-> (csize < ChunkHeaderSize \/ ChunkSize w + 400 < csize).
Proof.
  intros Hcs Hnew d Hlen Hs csize.
  destruct (NewDataBlock_Val w w0 b Hcs Hnew) as (-> & Hcap & _ & _).
  assert (H9 : ChunkHeaderSize <= cap (CompressedChunk b))
    by (unfold ChunkHeaderSize; lia).
  pose proof (ReadBlock_cases b w H9) as Hcases. cbv zeta in Hcases.
  fold d in Hcases. fold csize in Hcases. rewrite Hcap in Hcases.
  split.
  - intros (msg & w' & E).
    destruct Hcases as [(_ & t1 & e & w1 & E1)|[(_ & _ & Hbad & _)|[(_ & _ & _ & _ & t1 & e & w1 & E1)
                       |(_ & _ & _ & E1)]]];
      try (rewrite E1 in E; discriminate). exact Hbad.
  - intros Hbad.
    destruct Hcases as [([Hl|Hne] & _)|[(_ & _ & _ & E1)|[(_ & _ & Hok & _)
                       |(_ & _ & Hok & _)]]]; try lia; try contradiction.
    eauto.
Qed.

(** ** Offsets of the blocks of a file *)

Lemma wrap_int64_id (z : Z) : min_int64 <= z <= max_int64 -> wrap_int64 z = z.
Proof.
  unfold wrap_int64, min_int64, max_int64. intros H.
  rewrite Z.mod_small; lia.
Qed.

Lemma chained_step (off : Z) (bs : list DataBlock) (i : nat) (b b' : DataBlock) :
  chained off bs -> bs !! i = Some b -> bs !! S i = Some b' ->
  DecompressedOffset b' = wrap_int64 (DecompressedOffset b + DecompressedSize b).
Proof.
  revert off i. induction bs as [|b0 bs IH]; intros off i Hc Hi Hsi; [discriminate|].
  destruct Hc as [H0 Hc]. destruct i as [|i].
  - cbn in Hi. inversion Hi; subst b0. destruct bs as [|b1 bs]; [discriminate|].
    cbn in Hsi. inversion Hsi; subst b1. destruct Hc as [H1 _]. rewrite H1, H0. reflexivity.
  - cbn in Hi, Hsi. eapply IH; eauto.
Qed.

Lemma sum_sizes_nonneg (bs : list DataBlock) :
  Forall (fun b => 0 <= DecompressedSize b) bs -> 0 <= sum_sizes bs.
Proof. induction 1; cbn [sum_sizes]; lia. Qed.

Lemma chained_sum (off : Z) (bs : list DataBlock) :
  chained off bs ->
  Forall (fun b => 0 <= DecompressedSize b) bs ->
  0 <= off -> off + sum_sizes bs <= max_int64 ->
  forall i b, bs !! i = Some b -> DecompressedOffset b = off + sum_sizes (take i bs).
Proof.
  revert off. induction bs as [|b0 bs IH]; intros off Hc Hnn Hoff Hmax i b Hi;
    [discriminate|].
  destruct Hc as [H0 Hc]. inversion Hnn as [|? ? Hb0 Hnn']; subst.
  pose proof (sum_sizes_nonneg bs Hnn') as Hs. cbn [sum_sizes] in Hmax.
  destruct i as [|i].
  - cbn in Hi. inversion Hi; subst. cbn. lia.
  - cbn in Hi. cbn [take sum_sizes].
    rewrite wrap_int64_id in Hc by (unfold min_int64, max_int64 in *; lia).
    rewrite (IH _ Hc Hnn' ltac:(lia) ltac:(lia) i b Hi). lia.
Qed.

Lemma sum_sizes_take_le (bs : list DataBlock) (i j : nat) :
  Forall (fun b => 0 <= DecompressedSize b) bs ->
  (i <= j)%nat -> sum_sizes (take i bs) <= sum_sizes (take j bs).
Proof.
  intros Hnn. revert i j. induction Hnn as [|b bs Hb Hnn IH]; intros i j Hij.
  - rewrite !take_nil. lia.
  - destruct i as [|i]; destruct j as [|j]; cbn [take sum_sizes]; try lia.
    + pose proof (sum_sizes_nonneg (take j bs)) as H.
      specialize (H ltac:(apply Forall_take; exact Hnn)). lia.
    + specialize (IH i j ltac:(lia)). lia.
Qed.

Lemma sum_sizes_app (l1 l2 : list DataBlock) :
  sum_sizes (l1 ++ l2) = sum_sizes l1 + sum_sizes l2.
Proof. induction l1 as [|b l1 IH]; cbn [app sum_sizes]; lia. Qed.

Lemma sum_sizes_take_S (bs : list DataBlock) (i : nat) (b : DataBlock) :
  bs !! i = Some b ->
  sum_sizes (take (S i) bs) = sum_sizes (take i bs) + DecompressedSize b.
Proof.
  intros Hi. rewrite (take_S_r bs i b Hi), sum_sizes_app. cbn [sum_sizes]. lia.
Qed.

(** Under the range conditions, a block ends where no later block starts
    before. *)
Lemma chained_ordered (bs : list DataBlock) (i j : nat) (bi bj : DataBlock) :
  chained 0 bs ->
  Forall (fun b => 0 <= DecompressedSize b) bs ->
  sum_sizes bs <= max_int64 ->
  bs !! i = Some bi -> bs !! j = Some bj -> (i < j)%nat ->
  0 <= DecompressedOffset bi
  /\ DecompressedOffset bi + DecompressedSize bi <= DecompressedOffset bj.
Proof.
  intros Hc Hnn Hmax Hi Hj Hij.
  rewrite (chained_sum 0 bs Hc Hnn ltac:(lia) ltac:(lia) i bi Hi).
  rewrite (chained_sum 0 bs Hc Hnn ltac:(lia) ltac:(lia) j bj Hj).
  pose proof (sum_sizes_take_S bs i bi Hi) as HS.
  pose proof (sum_sizes_take_le bs (S i) j Hnn ltac:(lia)) as Hle.
  pose proof (sum_sizes_nonneg (take i bs) ltac:(apply Forall_take; exact Hnn)).
  lia.
Qed.

(** What the block loop of [FileTarget.Decompress] does to the world: it
    reads, and it submits tasks for the file [f] whose blocks carry the
    offsets of [chained]. *)
Lemma FileTarget_Decompress_loop_frame (fuel : nat) (f : string) (limitSize offset : Z)
    (t : FileTarget) (w : World) :
  match FileTarget_Decompress_loop fuel f limitSize offset t w with
  | Val _ w' | Panic _ w' =>
      fs w' = fs w /\ writer w' = writer w /\ ChunkSize w' = ChunkSize w
      /\ exists new, pool w' = pool w ++ new
                     /\ chained offset (map task_block new)
                     /\ Forall (fun tk => task_file tk = f) new
  | OutOfFuel => True
  end.
Proof.
  clear filepath_Join schedule.
  assert (Hnil : forall w0 w1 : World,
             fs w1 = fs w0 /\ pool w1 = pool w0 /\ writer w1 = writer w0
             /\ ChunkSize w1 = ChunkSize w0 /\ r_end (reader w1) = r_end (reader w0) ->
             forall off,
             fs w1 = fs w0 /\ writer w1 = writer w0 /\ ChunkSize w1 = ChunkSize w0
             /\ exists new, pool w1 = pool w0 ++ new
                            /\ chained off (map task_block new)
                            /\ Forall (fun tk => task_file tk = f) new).
  { intros w0 w1 (Hf & Hp & Hw & Hc & _) off. repeat split; try assumption.
    exists []. rewrite app_nil_r. repeat split; [assumption|constructor]. }
  revert offset w. induction fuel as [|fuel IH]; intros offset w; [exact I|].
  cbn [FileTarget_Decompress_loop]. unfold bind at 1.
  pose proof (only_reads_frame ReadType w only_reads_ReadType) as H1.
  destruct (ReadType w) as [[ty [e1|]] w1|msg w1|]; [| | |contradiction];
    [apply Hnil, H1| |apply Hnil, H1].
  destruct (decide (ty = TypeNew)) as [_|_]; [|destruct (decide (ty = TypeEnd)) as [_|_]].
  - unfold bind at 1.
    pose proof (only_reads_frame NewDataBlock w1 only_reads_NewDataBlock) as H2.
    destruct (NewDataBlock w1) as [b w2|msg w2|]; [| |contradiction];
      [|apply Hnil; intuition congruence].
    unfold bind at 1.
    pose proof (only_reads_frame (ReadBlock b) w2 (only_reads_ReadBlock b)) as H3.
    destruct (ReadBlock b w2) as [[b' [e3|]] w3|msg w3|]; [| | |contradiction];
      [apply Hnil; intuition congruence| |apply Hnil; intuition congruence].
    destruct (_ && _); [apply Hnil; intuition congruence|].
    unfold bind at 1. cbn [pool_Submit].
    specialize (IH (wrap_int64 (offset + DecompressedSize (with_DecompressedOffset offset b')))
                   (set_pool (pool w3 ++ [{| task_file := f;
                                            task_block := with_DecompressedOffset offset b' |}])
                             w3)).
    destruct (FileTarget_Decompress_loop fuel f limitSize _ t _) as [r w'|msg w'|];
      [| |exact I];
      (destruct IH as (Hf & Hw & Hc & new & Hp & Hch & Hall);
       cbn [set_pool fs writer ChunkSize pool] in Hf, Hw, Hc, Hp;
       split; [intuition congruence|]; split; [intuition congruence|];
       split; [intuition congruence|];
       exists ({| task_file := f; task_block := with_DecompressedOffset offset b' |} :: new);
       split; [rewrite Hp, <- app_assoc; f_equal; intuition congruence|];
       split; [cbn [map chained task_block]; split; [reflexivity|exact Hch]|];
       constructor; [reflexivity|exact Hall]).
  - unfold bind at 1.
    pose proof (only_reads_frame (ReadTrailer (ft_trailer t)) w1
                  (only_reads_ReadTrailer _)) as H2.
    destruct (ReadTrailer (ft_trailer t) w1) as [[tr [e2|]] w2|msg w2|];
      [| | |contradiction]; apply Hnil; intuition congruence.
  - apply Hnil, H1.
Qed.

(** C2. The blocks the block loop of [FileTarget.Decompress] submits, started
    as [Decompress] starts it (offset 0, a fresh pool): block 0 has offset 0,
    and block [i+1] has the offset of block [i] plus its declared
    decompressed size, added as [int64].  When the declared sizes are not
    negative and their sum fits [int64], the offset of block [i] is the sum
    of the sizes of blocks [0..i-1], offsets never decrease, and they
    increase strictly when every size is positive. *)
Theorem C2_block_offsets (fuel : nat) (f : string) (limitSize : Z) (t : FileTarget)
    (w : World) :
  let w0 := set_pool [] w in
  let blocks :=
    map task_block
        (pool (world_of (FileTarget_Decompress_loop fuel f limitSize 0 t w0) w0)) in
  (forall b, blocks !! 0%nat = Some b -> DecompressedOffset b = 0)
  /\ (forall i b b', blocks !! i = Some b -> blocks !! S i = Some b' ->
        DecompressedOffset b' = wrap_int64 (DecompressedOffset b + DecompressedSize b))
  /\ (Forall (fun b => 0 <= DecompressedSize b) blocks ->
      sum_sizes blocks <= max_int64 ->
      (forall i b, blocks !! i = Some b ->
                   DecompressedOffset b = sum_sizes (take i blocks))
      /\ (forall i j bi bj, blocks !! i = Some bi -> blocks !! j = Some bj ->
            (i <= j)%nat -> DecompressedOffset bi <= DecompressedOffset bj)
      /\ (Forall (fun b => 0 < DecompressedSize b) blocks ->
          forall i j bi bj, blocks !! i = Some bi -> blocks !! j = Some bj ->
            (i < j)%nat -> DecompressedOffset bi < DecompressedOffset bj)).
Proof.
  intros w0 blocks.
  assert (Hc : chained 0 blocks).
  { subst blocks.
    pose proof (FileTarget_Decompress_loop_frame fuel f limitSize 0 t w0) as H.
    destruct (FileTarget_Decompress_loop fuel f limitSize 0 t w0) as [r w'|msg w'|];
      cbn [world_of]; [| |exact I];
      destruct H as (_ & _ & _ & new & Hp & Hch & _); rewrite Hp; exact Hch. }
  clearbody blocks. split; [|split].
  - intros b H0. destruct blocks as [|b0 bs]; [discriminate|].
    cbn in H0. inversion H0; subst. apply Hc.
  - intros i b b'. apply chained_step with (off := 0). exact Hc.
  - intros Hnn Hmax.
    assert (Hsum : forall i b, blocks !! i = Some b ->
                               DecompressedOffset b = sum_sizes (take i blocks)).
    { intros i b Hi. rewrite (chained_sum 0 blocks Hc Hnn ltac:(lia) ltac:(lia) i b Hi).
      lia. }
    split; [exact Hsum|]. split.
    + intros i j bi bj Hi Hj Hij. rewrite (Hsum i bi Hi), (Hsum j bj Hj).
      apply sum_sizes_take_le; assumption.
    + intros Hpos i j bi bj Hi Hj Hij.
      destruct (chained_ordered blocks i j bi bj Hc Hnn Hmax Hi Hj Hij) as [_ Hle].
      assert (0 < DecompressedSize bi).
      { rewrite Forall_forall in Hpos. apply Hpos. eapply list_elem_of_lookup_2, Hi. }
      lia.
Qed.

(** ** The size limit *)

(** With no limit configured, no error of the block loops is taken for a
    partial result. *)
Lemma loops_unbounded (limitSize : Z) :
  limitSize <= 0 ->
  forall fuel f offset t w,
    match FileTarget_Decompress_loop fuel f limitSize offset t w with
    | Val (_, Some e) _ =>
        strings_HasPrefix (Error e) "partial decompress to limited size" = false
    | _ => True
    end
    /\ match FileTarget_DecompressStream_loop fuel limitSize offset t w with
       | Val (_, Some e) _ =>
           strings_HasPrefix (Error e) "partial decompress to limited size" = false
       | _ => True
       end.
Proof.
  intros Hlim. assert (Hb : (0 <? limitSize) = false) by lia.
  induction fuel as [|fuel IH]; intros f offset t w; [split; exact I|].
  split.
  - cbn [FileTarget_Decompress_loop]. unfold bind at 1.
    destruct (ReadType w) as [[ty [e1|]] w1|msg w1|]; [reflexivity| |exact I|exact I].
    destruct (decide (ty = TypeNew)); [|destruct (decide (ty = TypeEnd))].
    + unfold bind at 1. destruct (NewDataBlock w1) as [b w2|msg w2|]; [|exact I|exact I].
      unfold bind at 1.
      destruct (ReadBlock b w2) as [[b' [e3|]] w3|msg w3|]; [reflexivity| |exact I|exact I].
      rewrite Hb. cbn [andb]. unfold bind at 1. cbn [pool_Submit]. apply IH.
    + unfold bind at 1.
      destruct (ReadTrailer (ft_trailer t) w1) as [[tr [e2|]] w2|msg w2|];
        [reflexivity|exact I|exact I|exact I].
    + reflexivity.
  - cbn [FileTarget_DecompressStream_loop]. unfold bind at 1.
    destruct (ReadType w) as [[ty [e1|]] w1|msg w1|]; [reflexivity| |exact I|exact I].
    destruct (decide (ty = TypeNew)); [|destruct (decide (ty = TypeEnd))].
    + unfold bind at 1. destruct (NewDataBlock w1) as [b w2|msg w2|]; [|exact I|exact I].
      unfold bind at 1.
      destruct (ReadBlock b w2) as [[b' [e3|]] w3|msg w3|]; [reflexivity| |exact I|exact I].
      rewrite Hb. cbn [andb]. unfold bind at 1.
      destruct (make _ _ w3) as [buf w4|msg w4|]; [|exact I|exact I].
      destruct (DecompressChunk _ _) as [chunk [e4|]]; [reflexivity|].
      unfold bind at 1. destruct (Writer_Write chunk w4) as [[e5|] w5|msg w5|];
        [reflexivity| |exact I|exact I].
      apply (IH f).
    + unfold bind at 1.
      destruct (ReadTrailer (ft_trailer t) w1) as [[tr [e2|]] w2|msg w2|];
        [reflexivity|exact I|exact I|exact I].
    + reflexivity.
Qed.

(** C3. At a block of either file decoder (type byte 'N', block parsed,
    running offset [offset], the sum [offset + size] within [int64]): with
    [limitSize > 0] and [offset + size > limitSize] the loop returns the
    limit error in the world the parse left, submitting and writing nothing;
    in every other case, equality with the limit included, the block is
    submitted (respectively decompressed and written) and the loop goes on
    with [offset + size].  With [limitSize <= 0] no run of the loops returns
    an error that counts as a limit abort. *)
Theorem C3_limit_is_strict (fuel : nat) (f : string) (limitSize offset : Z)
    (t : FileTarget) (w w1 : World) (rest : list byte) (b : DataBlock) :
  r_data (reader w) = TypeNew :: rest ->
  (let* blk := NewDataBlock in ReadBlock blk) (advance w rest) = Val (b, None) w1 ->
  min_int64 <= offset + DecompressedSize b <= max_int64 ->
  let block := with_DecompressedOffset offset b in
  ((0 < limitSize /\ offset + DecompressedSize b > limitSize) ->
   FileTarget_Decompress_loop (S fuel) f limitSize offset t w
   = Val (t, Some (partial_limit_error limitSize)) w1
   /\ FileTarget_DecompressStream_loop (S fuel) limitSize offset t w
      = Val (t, Some (partial_limit_error limitSize)) w1)
  /\ (~ (0 < limitSize /\ offset + DecompressedSize b > limitSize) ->
      FileTarget_Decompress_loop (S fuel) f limitSize offset t w
      = FileTarget_Decompress_loop fuel f limitSize (offset + DecompressedSize b) t
          (set_pool (pool w1 ++ [{| task_file := f; task_block := block |}]) w1)
      /\ FileTarget_DecompressStream_loop (S fuel) limitSize offset t w
         = (let* buf := make (DecompressedSize block) (DecompressedSize block) in
            let '(decompressedChunk, err) := DecompressChunk block (s_array buf) in
            match err with
            | Some e => ret (t, Some (errorString ("decompress chunk failed: " +:+ Error e)))
            | None =>
                let* err := Writer_Write decompressedChunk in
                match err with
                | Some e => ret (t, Some (errorString ("write failed: " +:+ Error e)))
                | None =>
                    FileTarget_DecompressStream_loop fuel limitSize
                      (offset + DecompressedSize b) t
                end
            end) w1)
  /\ (limitSize <= 0 ->
      forall fuel' f' offset' t' w',
        match FileTarget_Decompress_loop fuel' f' limitSize offset' t' w' with
        | Val (_, Some e) _ =>
            strings_HasPrefix (Error e) "partial decompress to limited size" = false
        | _ => True
        end
        /\ match FileTarget_DecompressStream_loop fuel' limitSize offset' t' w' with
           | Val (_, Some e) _ =>
               strings_HasPrefix (Error e) "partial decompress to limited size" = false
           | _ => True
           end).
Proof.
  intros Hd Hblk Hrange block.
  assert (Hstep1 : forall k : DataBlock * option error -> M (FileTarget * option error),
             (let* blk := NewDataBlock in let* p := ReadBlock blk in k p) (advance w rest)
             = k (b, None) w1).
  { intros k. unfold bind in Hblk |- *.
    destruct (NewDataBlock (advance w rest)) as [blk w2|msg w2|]; [|discriminate..].
    rewrite Hblk. reflexivity. }
  rewrite <- (wrap_int64_id (offset + DecompressedSize b)) by exact Hrange.
  split; [|split].
  - intros [Hpos Hgt]. rewrite wrap_int64_id in Hgt by exact Hrange.
    assert (Hc : (0 <? limitSize) && (limitSize <? wrap_int64 (offset + DecompressedSize b))
                 = true).
    { rewrite wrap_int64_id by exact Hrange. apply andb_true_intro. split; lia. }
    split.
    + cbn [FileTarget_Decompress_loop]. unfold bind at 1.
      rewrite (ReadType_cons w _ _ Hd).
      destruct (decide (TypeNew = TypeNew)); [|congruence].
      rewrite Hstep1. rewrite Hc. reflexivity.
    + cbn [FileTarget_DecompressStream_loop]. unfold bind at 1.
      rewrite (ReadType_cons w _ _ Hd).
      destruct (decide (TypeNew = TypeNew)); [|congruence].
      rewrite Hstep1. rewrite Hc. reflexivity.
  - intros Hn. rewrite wrap_int64_id in Hn by exact Hrange.
    assert (Hc : (0 <? limitSize) && (limitSize <? wrap_int64 (offset + DecompressedSize b))
                 = false).
    { rewrite wrap_int64_id by exact Hrange. apply andb_false_iff.
      destruct (Z.ltb_spec 0 limitSize); [|left; reflexivity].
      right. apply Z.ltb_ge. lia. }
    split.
    + cbn [FileTarget_Decompress_loop]. unfold bind at 1.
      rewrite (ReadType_cons w _ _ Hd).
      destruct (decide (TypeNew = TypeNew)); [|congruence].
      rewrite Hstep1. rewrite Hc. reflexivity.
    + cbn [FileTarget_DecompressStream_loop]. unfold bind at 1.
      rewrite (ReadType_cons w _ _ Hd).
      destruct (decide (TypeNew = TypeNew)); [|congruence].
      rewrite Hstep1. rewrite Hc. reflexivity.
  - intros Hlim. apply loops_unbounded, Hlim.
Qed.

(** ** Positional writes *)

Lemma length_pwrite (c : list byte) (off : nat) (b : list byte) :
  length (pwrite c off b) = Nat.max (off + length b) (length c).
Proof.
  unfold pwrite. rewrite !length_app, length_take, length_app, repeat_length, length_drop.
  lia.
Qed.

Lemma nth_pwrite (c : list byte) (off : nat) (b : list byte) (i : nat) :
  nth i (pwrite c off b) x00
  = if ((off <=? i) && (i <? off + length b))%nat then nth (i - off) b x00 else nth i c x00.
Proof.
  unfold pwrite.
  assert (Ht : length (take off (c ++ repeat x00 (off - length c))) = off)
    by (rewrite length_take, length_app, repeat_length; lia).
  destruct (Nat.leb_spec off i) as [Hoi|Hoi]; cbn [andb].
  - rewrite app_nth2 by lia. rewrite Ht.
    destruct (Nat.ltb_spec i (off + length b)) as [Hib|Hib].
    + rewrite app_nth1 by lia. reflexivity.
    + rewrite app_nth2 by lia. rewrite nth_skipn. f_equal. lia.
  - rewrite app_nth1 by lia. rewrite nth_firstn.
    destruct (Nat.ltb_spec i off); [|lia].
    destruct (Nat.lt_ge_cases i (length c)) as [Hic|Hic].
    + rewrite app_nth1 by lia. reflexivity.
    + rewrite app_nth2 by lia. rewrite (nth_overflow c) by lia. apply nth_repeat.
Qed.

(** Writes to ranges that do not overlap can be done in either order. *)
Lemma pwrite_comm (c : list byte) (o1 o2 : nat) (b1 b2 : list byte) :
  (o1 + length b1 <= o2 \/ o2 + length b2 <= o1)%nat ->
  pwrite (pwrite c o1 b1) o2 b2 = pwrite (pwrite c o2 b2) o1 b1.
Proof.
  intros Hdis. apply (nth_ext _ _ x00 x00).
  - rewrite !length_pwrite. lia.
  - intros i _. rewrite !nth_pwrite.
    destruct (Nat.leb_spec o1 i); destruct (Nat.ltb_spec i (o1 + length b1));
      destruct (Nat.leb_spec o2 i); destruct (Nat.ltb_spec i (o2 + length b2));
      cbn [andb]; try reflexivity; lia.
Qed.

Lemma fs_put_put (f : string) (n1 n2 : node) (a : FS) :
  fs_put f n2 (fs_put f n1 a) = fs_put f n2 a.
Proof. unfold fs_put. cbn [nodes denied]. rewrite insert_insert_eq. reflexivity. Qed.

Lemma File_WriteAt_comm (f : string) (b1 b2 : list byte) (o1 o2 : Z) (a : FS) :
  o1 + Z.of_nat (length b1) <= o2 \/ o2 + Z.of_nat (length b2) <= o1 ->
  fst (File_WriteAt f b2 o2 (fst (File_WriteAt f b1 o1 a)))
  = fst (File_WriteAt f b1 o1 (fst (File_WriteAt f b2 o2 a))).
Proof.
  intros Hdis. unfold File_WriteAt.
  destruct (Z.ltb_spec o1 0) as [H1|H1]; cbn [fst]; [reflexivity|].
  destruct (Z.ltb_spec o2 0) as [H2|H2]; cbn [fst]; [reflexivity|].
  destruct b1 as [|x1 b1]; cbn [fst]; [reflexivity|].
  destruct b2 as [|x2 b2]; cbn [fst]; [reflexivity|].
  destruct (nodes a !! f) as [[|c]|] eqn:Hf; cbn [fst]; rewrite ?Hf; try reflexivity.
  cbn [fs_put nodes]. rewrite !lookup_insert_eq. cbn [fst].
  fold (fs_put f (RegularFile (pwrite c (Z.to_nat o1) (x1 :: b1))) a).
  fold (fs_put f (RegularFile (pwrite c (Z.to_nat o2) (x2 :: b2))) a).
  rewrite !fs_put_put. f_equal. f_equal. apply pwrite_comm. lia.
Qed.

(** A permutation of steps that commute pairwise reaches the same state. *)
Lemma fold_left_Permutation {S A : Type} (f : S -> A -> S) (l l' : list A) :
  Permutation l l' ->
  (forall x y, In x l -> In y l -> forall s, f (f s x) y = f (f s y) x) ->
  forall s, fold_left f l s = fold_left f l' s.
Proof.
  induction 1 as [|x l l' Hp IH|x y l|l l' l'' Hp1 IH1 Hp2 IH2]; intros Hc s.
  - reflexivity.
  - cbn [fold_left]. apply IH. intros a b Ha Hb. apply Hc; right; assumption.
  - cbn [fold_left]. rewrite (Hc y x); [reflexivity|left; reflexivity|right; left; reflexivity].
  - rewrite IH1 by exact Hc. apply IH2. intros a b Ha Hb.
    apply Hc; eapply Permutation_in; try eassumption; symmetry; assumption.
Qed.

(** ** The file system only grows *)

Lemma fs_extends_refl (a : FS) : fs_extends a a.
Proof.
  split; [reflexivity|]. intros p. destruct (nodes a !! p) as [[|c]|]; eauto.
Qed.

Lemma fs_extends_trans (a b c : FS) : fs_extends a b -> fs_extends b c -> fs_extends a c.
Proof.
  intros [Hd1 H1] [Hd2 H2]. split; [congruence|]. intros p.
  specialize (H1 p). specialize (H2 p).
  destruct (nodes a !! p) as [[|x]|]; [| |exact I].
  - rewrite H1 in H2. exact H2.
  - destruct H1 as [y Hy]. rewrite Hy in H2. exact H2.
Qed.

Lemma fs_extends_create (a : FS) (p : string) (n : node) :
  nodes a !! p = None -> fs_extends a (fs_put p n a).
Proof.
  intros Hp. split; [reflexivity|]. intros q. cbn [fs_put nodes].
  destruct (decide (p = q)) as [->|Hne].
  - rewrite Hp. exact I.
  - rewrite lookup_insert_ne by exact Hne. destruct (nodes a !! q) as [[|x]|]; eauto.
Qed.

Lemma fs_extends_rewrite (a : FS) (p : string) (c c' : list byte) :
  nodes a !! p = Some (RegularFile c) -> fs_extends a (fs_put p (RegularFile c') a).
Proof.
  intros Hp. split; [reflexivity|]. intros q. cbn [fs_put nodes].
  destruct (decide (p = q)) as [->|Hne].
  - rewrite Hp, lookup_insert_eq. eauto.
  - rewrite lookup_insert_ne by exact Hne. destruct (nodes a !! q) as [[|x]|]; eauto.
Qed.

Lemma File_WriteAt_extends (f : string) (b : list byte) (off : Z) (a : FS) :
  fs_extends a (fst (File_WriteAt f b off a)).
Proof.
  unfold File_WriteAt. destruct (off <? 0); [apply fs_extends_refl|].
  destruct b as [|x b]; [apply fs_extends_refl|].
  destruct (nodes a !! f) as [[|c]|] eqn:Hf; try apply fs_extends_refl.
  cbn [fst]. eapply fs_extends_rewrite, Hf.
Qed.

Lemma task_run_extends (tk : Task) (a : FS) : fs_extends a (task_run tk a).
Proof.
  unfold task_run. destruct (_ || _); [apply fs_extends_refl|].
  destruct (DecompressChunk _ _) as [chunk [e|]]; [apply fs_extends_refl|].
  apply File_WriteAt_extends.
Qed.

Lemma run_tasks_extends (order : list Task) (a : FS) : fs_extends a (run_tasks order a).
Proof.
  unfold run_tasks. revert a. induction order as [|tk order IH]; intros a.
  - apply fs_extends_refl.
  - cbn [fold_left]. eapply fs_extends_trans; [apply task_run_extends|apply IH].
Qed.

Lemma os_Stat_world (name : string) (w : World) :
  exists err, os_Stat name w = Val err w
              /\ (err = None
                  <-> (name ∉ denied (fs w)) /\ is_Some (nodes (fs w) !! name))
              /\ (from_option os_IsNotExist false err = true
                  <-> (name ∉ denied (fs w)) /\ nodes (fs w) !! name = None).
Proof.
  unfold os_Stat. destruct (decide (name ∈ denied (fs w))) as [Hd|Hd].
  - eexists. split; [reflexivity|]. split; split; try discriminate; intros [? _]; contradiction.
  - destruct (nodes (fs w) !! name) as [n|] eqn:Hn; eexists; (split; [reflexivity|]).
    + split; split; try discriminate; auto. intros [_ ?]; discriminate.
    + split; split; try discriminate; auto. intros [_ [? ?]]; discriminate.
Qed.

Lemma FileTarget_DecompressStream_loop_fs (fuel : nat) (limitSize offset : Z)
    (t : FileTarget) (w : World) :
  match FileTarget_DecompressStream_loop fuel limitSize offset t w with
  | Val _ w' | Panic _ w' => fs w' = fs w /\ pool w' = pool w
  | OutOfFuel => True
  end.
Proof.
  clear filepath_Join schedule.
  revert offset w. induction fuel as [|fuel IH]; intros offset w; [exact I|].
  cbn [FileTarget_DecompressStream_loop]. unfold bind at 1.
  pose proof (only_reads_frame ReadType w only_reads_ReadType) as H1.
  destruct (ReadType w) as [[ty [e1|]] w1|msg w1|]; [| | |contradiction];
    [cbn; intuition congruence| |intuition congruence].
  destruct (decide (ty = TypeNew)) as [_|_]; [|destruct (decide (ty = TypeEnd)) as [_|_]].
  - unfold bind at 1.
    pose proof (only_reads_frame NewDataBlock w1 only_reads_NewDataBlock) as H2.
    destruct (NewDataBlock w1) as [b w2|msg w2|]; [| |contradiction];
      [|intuition congruence].
    unfold bind at 1.
    pose proof (only_reads_frame (ReadBlock b) w2 (only_reads_ReadBlock b)) as H3.
    destruct (ReadBlock b w2) as [[b' [e3|]] w3|msg w3|]; [| | |contradiction];
      [cbn; intuition congruence| |intuition congruence].
    destruct (_ && _); [cbn; intuition congruence|].
    unfold bind at 1. unfold make. destruct (_ || _); [cbn; intuition congruence|].
    cbn [ret]. destruct (DecompressChunk _ _) as [chunk [e4|]]; [cbn; intuition congruence|].
    unfold bind at 1. unfold Writer_Write.
    destruct (w_broken (writer w3)) as [e5|]; [cbn; intuition congruence|].
    match goal with
    | |- context [FileTarget_DecompressStream_loop fuel limitSize ?o t ?w0] =>
        specialize (IH o w0);
        destruct (FileTarget_DecompressStream_loop fuel limitSize o t w0)
          as [r w'|msg w'|]; [| |exact I]
    end; cbn [set_writer fs pool] in IH; intuition congruence.
  - unfold bind at 1.
    pose proof (only_reads_frame (ReadTrailer (ft_trailer t)) w1
                  (only_reads_ReadTrailer _)) as H2.
    destruct (ReadTrailer (ft_trailer t) w1) as [[tr [e2|]] w2|msg w2|];
      [| | |contradiction]; cbn; intuition congruence.
  - cbn. intuition congruence.
Qed.

Lemma FileTarget_DecompressStream_fs (t : FileTarget) (limitSize : Z) (w : World) :
  match FileTarget_DecompressStream t limitSize w with
  | Val _ w' | Panic _ w' => fs_extends (fs w) (fs w')
  | OutOfFuel => True
  end.
Proof.
  unfold FileTarget_DecompressStream. unfold bind at 1.
  pose proof (only_reads_frame (ReadHeader (ft_header t)) w (only_reads_ReadHeader _)) as H1.
  destruct (ReadHeader (ft_header t) w) as [[h [e1|]] w1|msg w1|]; [| | |contradiction];
    [cbn; destruct H1 as [-> _]; apply fs_extends_refl|
    |destruct H1 as [-> _]; apply fs_extends_refl].
  pose proof (FileTarget_DecompressStream_loop_fs (S (length (r_data (reader w1))))
                limitSize 0 (with_header h t) w1) as H2.
  destruct (FileTarget_DecompressStream_loop _ _ _ _ w1) as [r w'|msg w'|]; [| |exact I];
    destruct H1 as [<- _]; destruct H2 as [-> _]; apply fs_extends_refl.
Qed.

Lemma FileTarget_Decompress_fs (t : FileTarget) (baseDIR : string) (limitSize : Z)
    (w : World) :
  match FileTarget_Decompress filepath_Join schedule t baseDIR limitSize w with
  | Val _ w' | Panic _ w' => fs_extends (fs w) (fs w')
  | OutOfFuel => True
  end.
Proof.
  unfold FileTarget_Decompress. unfold bind at 1.
  pose proof (only_reads_frame (ReadHeader (ft_header t)) w (only_reads_ReadHeader _)) as H1.
  destruct (ReadHeader (ft_header t) w) as [[h [e1|]] w1|msg w1|]; [| | |contradiction];
    [cbn; destruct H1 as [-> _]; apply fs_extends_refl|
    |destruct H1 as [-> _]; apply fs_extends_refl].
  destruct H1 as [Hfs _]. rewrite <- Hfs. clear Hfs.
  cbn [ft_header with_header].
  set (path := filepath_Join baseDIR (string_of_list_byte (Name h))).
  unfold bind at 1. destruct (os_Stat_world path w1) as (err & -> & _ & _).
  destruct (_ && _); [apply fs_extends_refl|].
  destruct (is_nil err); [apply fs_extends_refl|].
  unfold bind at 1. unfold os_OpenFile.
  destruct (decide (path ∈ denied (fs w1))); [apply fs_extends_refl|].
  destruct (nodes (fs w1) !! path) as [[|c]|] eqn:Hp; [apply fs_extends_refl| |].
  - unfold bind at 1. cbn [pond_New]. unfold defer.
    match goal with
    | |- context [FileTarget_Decompress_loop ?fu ?f ?l ?o ?t0 ?w0] =>
        pose proof (FileTarget_Decompress_loop_frame fu f l o t0 w0) as H2;
        destruct (FileTarget_Decompress_loop fu f l o t0 w0) as [r w'|msg w'|]; [| |exact I]
    end; destruct H2 as (Hfs & _); unfold pool_StopAndWait; cbn [set_fs fs];
      rewrite Hfs; cbn [set_pool fs]; apply run_tasks_extends.
  - unfold bind at 1. cbn [pond_New]. unfold defer.
    match goal with
    | |- context [FileTarget_Decompress_loop ?fu ?f ?l ?o ?t0 ?w0] =>
        pose proof (FileTarget_Decompress_loop_frame fu f l o t0 w0) as H2;
        destruct (FileTarget_Decompress_loop fu f l o t0 w0) as [r w'|msg w'|]; [| |exact I]
    end; destruct H2 as (Hfs & _); unfold pool_StopAndWait; cbn [set_fs fs];
      rewrite Hfs; cbn [set_pool set_fs fs];
      (eapply fs_extends_trans; [apply fs_extends_create, Hp|apply run_tasks_extends]).
Qed.

Lemma ArchiveFile_loop_fs (decodeFile : FileTarget -> M (FileTarget * option error))
    (fuel : nat) (af : ArchiveFile) (w : World) :
  (forall t w0, match decodeFile t w0 with
                | Val _ w' | Panic _ w' => fs_extends (fs w0) (fs w')
                | OutOfFuel => True
                end) ->
  match ArchiveFile_loop decodeFile fuel af w with
  | Val _ w' | Panic _ w' => fs_extends (fs w) (fs w')
  | OutOfFuel => True
  end.
Proof.
  intros Hdec. revert af w. induction fuel as [|fuel IH]; intros af w; [exact I|].
  cbn [ArchiveFile_loop]. unfold bind at 1.
  pose proof (only_reads_frame ReadType w only_reads_ReadType) as H1.
  destruct (ReadType w) as [[ty [e1|]] w1|msg w1|]; [| | |contradiction];
    destruct H1 as [Hfs _]; rewrite <- Hfs; clear Hfs; [|clear w|apply fs_extends_refl].
  { destruct (is_io_EOF e1); apply fs_extends_refl. }
  destruct (decide (ty = x00)); [apply fs_extends_refl|].
  destruct (decide (ty = TypeDown)).
  { unfold bind at 1. unfold DownTarget_Read.
    pose proof (only_reads_frame (ReadHeader (with_TargetType ty zero_TargetHeader)) w1
                  (only_reads_ReadHeader _)) as H2.
    destruct (ReadHeader _ w1) as [[d [e2|]] w2|msg w2|]; [| | |contradiction];
      cbn; destruct H2 as [-> _]; apply fs_extends_refl. }
  destruct (decide (ty = TypeUp)); [apply fs_extends_refl|].
  destruct (decide (ty = TypeFile)); [|apply fs_extends_refl].
  unfold bind at 1. specialize (Hdec (fresh_FileTarget ty) w1).
  destruct (decodeFile _ w1) as [[ft [e2|]] w2|msg w2|]; [| | |exact I]; try exact Hdec.
  - destruct (strings_HasPrefix _ _); exact Hdec.
  - specialize (IH (append_Target (FileTarget_ ft) af) w2).
    destruct (ArchiveFile_loop _ _ _ w2) as [r w'|msg w'|]; [| |exact I];
      eapply fs_extends_trans; eauto.
Qed.

(** ** The destination file *)

Lemma os_Stat_exists (name : string) (w : World) (n : node) :
  nodes (fs w) !! name = Some n ->
  os_Stat name w
  = Val (if decide (name ∈ denied (fs w)) then Some (PathError "stat" name EACCES) else None)
        w.
Proof.
  intros Hn. unfold os_Stat. destruct (decide _); [reflexivity|]. rewrite Hn. reflexivity.
Qed.

Lemma os_Stat_absent (name : string) (w : World) :
  nodes (fs w) !! name = None -> name ∉ denied (fs w) ->
  os_Stat name w = Val (Some (PathError "stat" name ENOENT)) w.
Proof.
  intros Hn Hd. unfold os_Stat. destruct (decide _); [contradiction|].
  rewrite Hn. reflexivity.
Qed.

Lemma os_OpenFile_absent (name : string) (w : World) :
  nodes (fs w) !! name = None -> name ∉ denied (fs w) ->
  os_OpenFile name w
  = Val (name, None) (set_fs (fs_put name (RegularFile []) (fs w)) w).
Proof.
  intros Hn Hd. unfold os_OpenFile. destruct (decide _); [contradiction|].
  rewrite Hn. reflexivity.
Qed.

(** Past the header and the two system calls, [FileTarget.Decompress] is its
    block loop on the new empty file, with the drain of the pool deferred. *)
Lemma FileTarget_Decompress_creates (s : Schedule) (t : FileTarget) (baseDIR : string)
    (limitSize : Z) (w w0 : World) (h : TargetHeader) :
  ReadHeader (ft_header t) w = Val (h, None) w0 ->
  let path := filepath_Join baseDIR (string_of_list_byte (Name h)) in
  nodes (fs w) !! path = None -> path ∉ denied (fs w) ->
  FileTarget_Decompress filepath_Join s t baseDIR limitSize w
  = defer (pool_StopAndWait s)
          (fun w1 => FileTarget_Decompress_loop (S (length (r_data (reader w1))))
                       path limitSize 0 (with_header h t) w1)
          (set_pool [] (set_fs (fs_put path (RegularFile []) (fs w0)) w0)).
Proof.
  intros Hh path Hn Hd.
  pose proof (only_reads_frame (ReadHeader (ft_header t)) w (only_reads_ReadHeader _)) as Hf.
  rewrite Hh in Hf. destruct Hf as (Hfs & _).
  unfold FileTarget_Decompress. unfold bind at 1. rewrite Hh.
  cbn [ft_header with_header]. fold path. unfold bind at 1.
  rewrite os_Stat_absent by (rewrite Hfs; assumption). cbn [is_nil negb andb from_option
    os_IsNotExist].
  unfold bind at 1. rewrite os_OpenFile_absent by (rewrite Hfs; assumption).
  unfold bind at 1. reflexivity.
Qed.


(** ** The order of completion does not matter *)

Lemma map_lookup {A B : Type} (f : A -> B) (l : list A) (i : nat) :
  map f l !! i = f <$> (l !! i).
Proof.
  revert i. induction l as [|a l IH]; intros [|i]; cbn; try reflexivity. apply IH.
Qed.

Lemma DecompressChunk_length (b : DataBlock) (dst chunk : list byte) :
  (forall src d out, qlz_Decompress src d = (out, None) -> length out = length d) ->
  DecompressChunk b dst = (chunk, None) -> length chunk = length dst.
Proof.
  intros Hlen. unfold DecompressChunk. destruct quicklz_New; [discriminate|].
  destruct (qlz_Decompress (CompressedChunk b) dst) as [out [e|]] eqn:E; [discriminate|].
  intros H. inversion H; subst. eapply Hlen, E.
Qed.

Lemma task_run_comm (tk1 tk2 : Task) :
  (forall src d out, qlz_Decompress src d = (out, None) -> length out = length d) ->
  task_file tk1 = task_file tk2 ->
  DecompressedOffset (task_block tk1) + DecompressedSize (task_block tk1)
    <= DecompressedOffset (task_block tk2)
  \/ DecompressedOffset (task_block tk2) + DecompressedSize (task_block tk2)
     <= DecompressedOffset (task_block tk1) ->
  forall a, task_run tk2 (task_run tk1 a) = task_run tk1 (task_run tk2 a).
Proof.
  intros Hlen Hf Hdis a. unfold task_run.
  destruct (Z.ltb_spec (DecompressedSize (task_block tk1)) 0) as [|H1]; [reflexivity|].
  destruct (Z.ltb_spec (DecompressedSize (task_block tk2)) 0) as [|H2]; [reflexivity|].
  cbn [orb].
  destruct (maxAlloc <? DecompressedSize (task_block tk1)); [reflexivity|].
  destruct (maxAlloc <? DecompressedSize (task_block tk2)); [reflexivity|].
  destruct (DecompressChunk (task_block tk1) _) as [c1 [e1|]] eqn:E1; [reflexivity|].
  destruct (DecompressChunk (task_block tk2) _) as [c2 [e2|]] eqn:E2; [reflexivity|].
  apply (DecompressChunk_length _ _ _ Hlen) in E1, E2. rewrite repeat_length in E1, E2.
  rewrite Hf. apply File_WriteAt_comm. lia.
Qed.

(** The drain of the pool: for tasks of one file whose blocks carry the
    offsets of the block loop, every schedule leaves the file system that the
    order of submission leaves. *)
Lemma run_tasks_schedule (s : Schedule) (tasks : list Task) (f : string) (a : FS) :
  (forall src d out, qlz_Decompress src d = (out, None) -> length out = length d) ->
  Forall (fun tk => task_file tk = f) tasks ->
  chained 0 (map task_block tasks) ->
  Forall (fun b => 0 <= DecompressedSize b) (map task_block tasks) ->
  sum_sizes (map task_block tasks) <= max_int64 ->
  run_tasks (s tasks) a = run_tasks tasks a.
Proof.
  intros Hlen Hf Hc Hnn Hmax. unfold run_tasks. symmetry.
  apply fold_left_Permutation; [symmetry; apply completion_order_perm|].
  intros x y Hx Hy fs0.
  apply list_elem_of_In, list_elem_of_lookup_1 in Hx; destruct Hx as [i Hi].
  apply list_elem_of_In, list_elem_of_lookup_1 in Hy; destruct Hy as [j Hj].
  assert (Hbi : map task_block tasks !! i = Some (task_block x))
    by (rewrite map_lookup, Hi; reflexivity).
  assert (Hbj : map task_block tasks !! j = Some (task_block y))
    by (rewrite map_lookup, Hj; reflexivity).
  assert (Hfx : task_file x = f)
    by (rewrite Forall_forall in Hf; eapply Hf, list_elem_of_lookup_2, Hi).
  assert (Hfy : task_file y = f)
    by (rewrite Forall_forall in Hf; eapply Hf, list_elem_of_lookup_2, Hj).
  destruct (Nat.lt_trichotomy i j) as [Hij|[->|Hji]].
  - apply task_run_comm; [exact Hlen|congruence|]. left.
    eapply chained_ordered; eauto.
  - rewrite Hi in Hj. inversion Hj. reflexivity.
  - apply task_run_comm; [exact Hlen|congruence|]. right.
    eapply chained_ordered; eauto.
Qed.

Lemma os_Stat_denied (name : string) (w : World) :
  name ∈ denied (fs w) ->
  os_Stat name w = Val (Some (PathError "stat" name EACCES)) w.
Proof. intros Hd. unfold os_Stat. destruct (decide _); [reflexivity|contradiction]. Qed.

Lemma FileTarget_Decompress_after_header (s : Schedule) (t : FileTarget)
    (baseDIR : string) (limitSize : Z) (w w0 : World) (h : TargetHeader) :
  ReadHeader (ft_header t) w = Val (h, None) w0 ->
  let path := filepath_Join baseDIR (string_of_list_byte (Name h)) in
  FileTarget_Decompress filepath_Join s t baseDIR limitSize w
  = (let* err := os_Stat path in
     if negb (is_nil err) && negb (from_option os_IsNotExist false err)
     then ret (with_header h t, err)
     else if is_nil err then
       ret (with_header h t, Some (errorString ("file " +:+ path +:+ " already exists")))
     else
       let* (f, err) := os_OpenFile path in
       match err with
       | Some e => ret (with_header h t, Some e)
       | None =>
           let* _ := pond_New in
           defer (pool_StopAndWait s)
             (fun w1 => FileTarget_Decompress_loop (S (length (r_data (reader w1))))
                          f limitSize 0 (with_header h t) w1)
       end) w0.
Proof.
  intros Hh path. unfold FileTarget_Decompress. unfold bind at 1. rewrite Hh. reflexivity.
Qed.

(** Either [FileTarget.Decompress] gets to create the destination file, or
    it returns before any pool exists: the schedule plays no part and the
    record of submitted tasks is the one before the call. *)
Lemma FileTarget_Decompress_cases (s : Schedule) (t : FileTarget) (baseDIR : string)
    (limitSize : Z) (w : World) :
  (exists h w0,
      ReadHeader (ft_header t) w = Val (h, None) w0
      /\ nodes (fs w) !! filepath_Join baseDIR (string_of_list_byte (Name h)) = None
      /\ filepath_Join baseDIR (string_of_list_byte (Name h)) ∉ denied (fs w))
  \/ ((forall s' : Schedule,
          FileTarget_Decompress filepath_Join s' t baseDIR limitSize w
          = FileTarget_Decompress filepath_Join s t baseDIR limitSize w)
      /\ pool (world_of (FileTarget_Decompress filepath_Join s t baseDIR limitSize w) w)
         = pool w).
Proof.
  pose proof (only_reads_frame (ReadHeader (ft_header t)) w (only_reads_ReadHeader _)) as Hf.
  destruct (ReadHeader (ft_header t) w) as [[h [e|]] w0|msg w0|] eqn:Hh;
    [right| |right|contradiction].
  { split; [intros s'|]; unfold FileTarget_Decompress, bind; rewrite Hh;
      [reflexivity|cbn; apply Hf]. }
  2:{ split; [intros s'|]; unfold FileTarget_Decompress, bind; rewrite Hh;
        [reflexivity|cbn; apply Hf]. }
  destruct Hf as (Hfs & Hp & _).
  set (path := filepath_Join baseDIR (string_of_list_byte (Name h))).
  destruct (decide (path ∈ denied (fs w))) as [Hd|Hd].
  { right. split; [intros s'|];
      rewrite !(FileTarget_Decompress_after_header _ t baseDIR limitSize w w0 h Hh);
      fold path; unfold bind; rewrite os_Stat_denied by (rewrite Hfs; exact Hd);
      [reflexivity|exact Hp]. }
  destruct (nodes (fs w) !! path) as [n|] eqn:Hn.
  { right. split; [intros s'|];
      rewrite !(FileTarget_Decompress_after_header _ t baseDIR limitSize w w0 h Hh);
      fold path; unfold bind;
      rewrite (os_Stat_exists path w0 n) by (rewrite Hfs; exact Hn); rewrite Hfs;
      (destruct (decide (path ∈ denied (fs w))); [contradiction|]);
      [reflexivity|exact Hp]. }
  left. exists h, w0. auto.
Qed.

(** C1. Under the codec's contract (a successful [Decompress] fills the
    buffer it is given and keeps its length), when the declared sizes of the
    blocks submitted for the file are not negative and their sum fits
    [int64]: whatever the order in which the pool completes the tasks,
    [FileTarget.Decompress] returns the same result and leaves the same
    world, file contents included, as the decode whose tasks complete in the
    order of submission.  The reason is in the second part: of two blocks
    the block loop submits, the earlier one ends at or before the offset of
    the later one, so the positional writes of the tasks never overlap. *)
Theorem C1_completion_order_is_irrelevant (s : Schedule) (t : FileTarget)
    (baseDIR : string) (limitSize : Z) (w : World) :
  (forall src d out, qlz_Decompress src d = (out, None) -> length out = length d) ->
  let run := FileTarget_Decompress filepath_Join s t baseDIR limitSize w in
  let blocks := map task_block (pool (world_of run w)) in
  Forall (fun b => 0 <= DecompressedSize b) blocks ->
  sum_sizes blocks <= max_int64 ->
  run = FileTarget_Decompress filepath_Join sequential t baseDIR limitSize w
  /\ (forall fuel f t' w',
        let w0 := set_pool [] w' in
        let submitted :=
          map task_block
              (pool (world_of (FileTarget_Decompress_loop fuel f limitSize 0 t' w0) w0)) in
        Forall (fun b => 0 <= DecompressedSize b) submitted ->
        sum_sizes submitted <= max_int64 ->
        forall i j bi bj,
          submitted !! i = Some bi -> submitted !! j = Some bj -> (i < j)%nat ->
          0 <= DecompressedOffset bi
          /\ DecompressedOffset bi + DecompressedSize bi <= DecompressedOffset bj).
Proof.
  intros Hlen run blocks Hnn Hmax. split.
  2:{ intros fuel f t' w' w0 submitted Hnn' Hmax' i j bi bj Hi Hj Hij.
      assert (Hc : chained 0 submitted).
      { subst submitted.
        pose proof (FileTarget_Decompress_loop_frame fuel f limitSize 0 t' w0) as H.
        destruct (FileTarget_Decompress_loop fuel f limitSize 0 t' w0) as [r w2|msg w2|];
          cbn [world_of]; [| |exact I];
          destruct H as (_ & _ & _ & new & Hp & Hch & _); rewrite Hp; exact Hch. }
      eapply chained_ordered; eauto. }
  destruct (FileTarget_Decompress_cases s t baseDIR limitSize w)
    as [(h & w0 & Hh & Hn & Hd)|[Hearly _]].
  2:{ subst run; symmetry; apply Hearly. }
  pose proof (FileTarget_Decompress_creates s t baseDIR limitSize w w0 h Hh Hn Hd) as E1.
  pose proof (FileTarget_Decompress_creates sequential t baseDIR limitSize w w0 h Hh Hn Hd)
    as E2.
  cbv zeta in E1, E2. rewrite E2. subst blocks. subst run. revert Hnn Hmax. rewrite E1.
  clear E1 E2. unfold defer.
  set (path := filepath_Join baseDIR (string_of_list_byte (Name h))).
  set (w1 := set_pool [] (set_fs (fs_put path (RegularFile []) (fs w0)) w0)).
  pose proof (FileTarget_Decompress_loop_frame (S (length (r_data (reader w1)))) path
                limitSize 0 (with_header h t) w1) as Hfr.
  destruct (FileTarget_Decompress_loop _ path limitSize 0 (with_header h t) w1)
    as [r w'|msg w'|]; cbn [world_of]; [| |reflexivity];
    destruct Hfr as (_ & _ & _ & new & Hp & Hc & Hfile);
    change (pool w1) with (@nil Task) in Hp; cbn [app] in Hp;
    unfold pool_StopAndWait; cbn [set_fs pool]; rewrite Hp; intros Hnn Hmax;
    rewrite (run_tasks_schedule s new path (fs w') Hlen Hfile Hc Hnn Hmax);
    reflexivity.
Qed.

(** ** The target loop *)

Lemma is_io_EOF_true (e : error) : is_io_EOF e = true -> e = io_EOF.
Proof. destruct e; cbn; congruence. Qed.

Lemma ArchiveFile_loop_clean_inv (decodeFile : FileTarget -> M (FileTarget * option error))
    (fuel : nat) (af af' : ArchiveFile) (w w' : World) :
  ArchiveFile_loop decodeFile fuel af w = Val (af', false, None) w' ->
  CleanEnd decodeFile w.
Proof.
  revert af w. induction fuel as [|fuel IH]; intros af w; [discriminate|].
  cbn [ArchiveFile_loop]. unfold bind at 1.
  destruct (ReadType_returns w) as (ty & err & w1 & Hrt). rewrite Hrt.
  destruct (ReadType_inv _ _ _ _ Hrt) as [(Hd & _ & -> & ->)|(rest & Hd & -> & ->)].
  - destruct (is_io_EOF (r_end (reader w))) eqn:He; [|discriminate].
    intros _. apply CleanEnd_EOF; [exact Hd|apply is_io_EOF_true, He].
  - destruct (decide (ty = x00)) as [->|_]; [intros _; eapply CleanEnd_zero, Hd|].
    destruct (decide (ty = TypeDown)) as [_|_].
    { unfold bind. destruct (DownTarget_Read _ _) as [[d [e1|]] w2| |]; discriminate. }
    destruct (decide (ty = TypeUp)) as [_|_].
    { unfold bind. destruct (UpTarget_Read _ _) as [[d [e1|]] w2| |]; discriminate. }
    destruct (decide (ty = TypeFile)) as [->|_]; [|discriminate].
    unfold bind.
    destruct (decodeFile _ _) as [[ft [e1|]] w2| |] eqn:Hdec; try discriminate.
    + destruct (strings_HasPrefix _ _); discriminate.
    + intros H. eapply CleanEnd_file; [exact Hd|exact Hdec|]. eapply IH, H.
Qed.

Lemma ArchiveFile_loop_clean (decodeFile : FileTarget -> M (FileTarget * option error))
    (w : World) :
  (forall t, steady (decodeFile t)) ->
  CleanEnd decodeFile w ->
  forall fuel af,
    (length (r_data (reader w)) < fuel)%nat ->
    exists af' w', ArchiveFile_loop decodeFile fuel af w = Val (af', false, None) w'.
Proof.
  intros Hdec Hc. induction Hc as [w Hd He|w rest Hd|w rest ft w' Hd Hrun Hc IH];
    intros fuel af Hfuel; (destruct fuel as [|fuel]; [lia|]);
    cbn [ArchiveFile_loop]; unfold bind at 1.
  - rewrite (ReadType_nil w Hd), He. cbn. eauto.
  - rewrite (ReadType_cons w _ _ Hd). cbn. eauto.
  - rewrite (ReadType_cons w _ _ Hd).
    destruct (decide (TypeFile = x00)); [discriminate|].
    destruct (decide (TypeFile = TypeDown)); [discriminate|].
    destruct (decide (TypeFile = TypeUp)); [discriminate|].
    destruct (decide (TypeFile = TypeFile)); [|congruence].
    unfold bind. rewrite Hrun.
    apply IH. pose proof (Hdec (fresh_FileTarget TypeFile) (advance w rest)) as Hs.
    unfold steady_at in Hs. rewrite Hrun in Hs. cbn in Hs.
    rewrite Hd in Hfuel. cbn in Hfuel. lia.
Qed.

(** C7. At the head of the target loop of [ArchiveFile.Decompress]: an
    exhausted stream ([io.EOF] on the type byte) and a zero type byte both end
    the decode with [isPartial = false] and a nil error; the decode ends that
    way only there, that is at such a loop head reached through file targets
    decoded without error ([CleanEnd]); and a type byte other than 0, 'D', 'U'
    and 'F' is the error "unknown type". *)
Theorem C7_clean_end_of_archive (baseDIR : string) (limitSize : Z) (af : ArchiveFile)
    (w : World) :
  let decodeFile :=
    fun t => FileTarget_Decompress filepath_Join schedule t baseDIR limitSize in
  let fuel := S (length (r_data (reader w))) in
  (r_data (reader w) = [] -> r_end (reader w) = io_EOF ->
   ArchiveFile_loop decodeFile fuel af w = Val (af, false, None) w)
  /\ (forall rest, r_data (reader w) = x00 :: rest ->
      ArchiveFile_loop decodeFile fuel af w = Val (af, false, None) (advance w rest))
  /\ ((exists af' w', ArchiveFile_loop decodeFile fuel af w = Val (af', false, None) w')
      <-> CleanEnd decodeFile w)
  /\ (forall b rest, r_data (reader w) = b :: rest ->
      b <> x00 -> b <> TypeDown -> b <> TypeUp -> b <> TypeFile ->
      ArchiveFile_loop decodeFile fuel af w
      = Val (af, false, Some (errorString ("unknown type: " +:+ fmt_s [b])))
            (advance w rest)).
Proof.
  intros decodeFile fuel. subst fuel. repeat split.
  - intros Hd He. cbn [ArchiveFile_loop]. unfold bind.
    rewrite (ReadType_nil w Hd), He. reflexivity.
  - intros rest Hd. cbn [ArchiveFile_loop]. unfold bind.
    rewrite (ReadType_cons w _ _ Hd). reflexivity.
  - intros (af' & w' & H). eapply ArchiveFile_loop_clean_inv, H.
  - intros Hc. apply ArchiveFile_loop_clean; [|exact Hc|lia].
    intros t. apply steady_FileTarget_Decompress.
  - intros b rest Hd H0 HD HU HF. cbn [ArchiveFile_loop]. unfold bind.
    rewrite (ReadType_cons w _ _ Hd).
    destruct (decide (b = x00)); [contradiction|].
    destruct (decide (b = TypeDown)); [contradiction|].
    destruct (decide (b = TypeUp)); [contradiction|].
    destruct (decide (b = TypeFile)); [contradiction|]. reflexivity.
Qed.

Lemma partial_limit_error_prefix (limitSize : Z) :
  strings_HasPrefix (Error (partial_limit_error limitSize))
                    "partial decompress to limited size" = true.
Proof. reflexivity. Qed.

Lemma ArchiveFile_loop_partial (decodeFile : FileTarget -> M (FileTarget * option error))
    (limitSize : Z) (fuel : nat) (af : ArchiveFile) (w w1 : World) (rest : list byte)
    (ft : FileTarget) :
  r_data (reader w) = TypeFile :: rest ->
  decodeFile (fresh_FileTarget TypeFile) (advance w rest)
  = Val (ft, Some (partial_limit_error limitSize)) w1 ->
  ArchiveFile_loop decodeFile (S fuel) af w = Val (af, true, None) w1.
Proof.
  intros Hd Hrun. cbn [ArchiveFile_loop]. unfold bind at 1.
  rewrite (ReadType_cons w _ _ Hd).
  destruct (decide (TypeFile = x00)); [discriminate|].
  destruct (decide (TypeFile = TypeDown)); [discriminate|].
  destruct (decide (TypeFile = TypeUp)); [discriminate|].
  destruct (decide (TypeFile = TypeFile)); [|congruence].
  unfold bind. rewrite Hrun.
  rewrite partial_limit_error_prefix. reflexivity.
Qed.

Lemma ArchiveFile_loop_flag (decodeFile : FileTarget -> M (FileTarget * option error))
    (fuel : nat) (af af' : ArchiveFile) (w w' : World) (err : option error) :
  ArchiveFile_loop decodeFile fuel af w = Val (af', true, err) w' -> err = None.
Proof.
  revert af w. induction fuel as [|fuel IH]; intros af w; [discriminate|].
  cbn [ArchiveFile_loop]. unfold bind at 1.
  destruct (ReadType w) as [[ty [e|]] w1| |]; try discriminate.
  { destruct (is_io_EOF e); intros H; inversion H; reflexivity. }
  destruct (decide (ty = x00)); [intros H; inversion H; reflexivity|].
  destruct (decide (ty = TypeDown)).
  { unfold bind. destruct (DownTarget_Read _ _) as [[d [e1|]] w2| |]; discriminate. }
  destruct (decide (ty = TypeUp)).
  { unfold bind. destruct (UpTarget_Read _ _) as [[d [e1|]] w2| |]; discriminate. }
  destruct (decide (ty = TypeFile)); [|discriminate].
  unfold bind. destruct (decodeFile _ _) as [[ft [e1|]] w2| |]; try discriminate.
  - destruct (strings_HasPrefix _ _); intros H; inversion H; reflexivity.
  - apply IH.
Qed.

Lemma ArchiveFile_run_flag (decodeFile : FileTarget -> M (FileTarget * option error))
    (af af' : ArchiveFile) (w w' : World) (err : option error) :
  ArchiveFile_run decodeFile af w = Val (af', true, err) w' -> err = None.
Proof.
  unfold ArchiveFile_run, bind.
  destruct (ReadFileHeader _ _) as [[h [e|]] w1| |]; try discriminate.
  destruct (os_Mkdir _ _) as [e w2| |]; try discriminate.
  destruct (_ && _); [discriminate|]. apply ArchiveFile_loop_flag.
Qed.

(** C4. When the file decoder called for an 'F' target returns the error of
    the size-limit check, the target loop of [ArchiveFile.Decompress] (and of
    [DecompressStream]) returns [isPartial = true] with a nil error, in the
    very world the file decoder left: nothing more is read from the stream.
    And whenever an entry point returns [isPartial = true], its error is nil. *)
Theorem C4_limit_abort_is_a_flag (baseDIR : string) (limitSize : Z) (fuel : nat)
    (af : ArchiveFile) (w w1 : World) (rest : list byte) (ft : FileTarget) :
  r_data (reader w) = TypeFile :: rest ->
  (FileTarget_Decompress filepath_Join schedule (fresh_FileTarget TypeFile)
     baseDIR limitSize (advance w rest)
   = Val (ft, Some (partial_limit_error limitSize)) w1 ->
   ArchiveFile_loop
     (fun t => FileTarget_Decompress filepath_Join schedule t baseDIR limitSize)
     (S fuel) af w
   = Val (af, true, None) w1)
  /\ (FileTarget_DecompressStream (fresh_FileTarget TypeFile) limitSize (advance w rest)
      = Val (ft, Some (partial_limit_error limitSize)) w1 ->
      ArchiveFile_loop (fun t => FileTarget_DecompressStream t limitSize) (S fuel) af w
      = Val (af, true, None) w1)
  /\ (forall af0 w0 af' w' err,
        ArchiveFile_Decompress filepath_Join schedule af0 baseDIR limitSize w0
        = Val (af', true, err) w'
        \/ ArchiveFile_DecompressStream af0 limitSize w0 = Val (af', true, err) w' ->
        err = None).
Proof.
  intros Hd. split; [|split].
  - intros Hrun.
    apply (ArchiveFile_loop_partial _ limitSize fuel af w w1 rest ft Hd Hrun).
  - intros Hrun.
    apply (ArchiveFile_loop_partial _ limitSize fuel af w w1 rest ft Hd Hrun).
  - intros af0 w0 af' w' err [H|H]; eapply ArchiveFile_run_flag, H.
Qed.

(** ** The directory "tmp" *)

Lemma ArchiveFile_run_mkdir (decodeFile : FileTarget -> M (FileTarget * option error))
    (af : ArchiveFile) (w w0 : World) (h : ArchiveHeader) :
  ReadFileHeader (af_header af) w = Val (h, None) w0 ->
  let af1 := with_ArchiveHeader h af in
  let fuel := S (length (r_data (reader w0))) in
  ("tmp" ∉ denied (fs w0) -> nodes (fs w0) !! "tmp" = None ->
   ArchiveFile_run decodeFile af w
   = ArchiveFile_loop decodeFile fuel af1 (set_fs (fs_put "tmp" Dir (fs w0)) w0))
  /\ ("tmp" ∉ denied (fs w0) -> is_Some (nodes (fs w0) !! "tmp") ->
      ArchiveFile_run decodeFile af w = ArchiveFile_loop decodeFile fuel af1 w0)
  /\ ("tmp" ∈ denied (fs w0) ->
      ArchiveFile_run decodeFile af w
      = Val (af1, false, Some (PathError "mkdir" "tmp" EACCES)) w0).
Proof.
  intros Hh af1 fuel.
  assert (E : ArchiveFile_run decodeFile af w
              = (let* err := os_Mkdir "tmp" in
                 if negb (is_nil err) && negb (from_option os_IsExist false err)
                 then ret (af1, false, err)
                 else fun w1 => ArchiveFile_loop decodeFile (S (length (r_data (reader w1))))
                                  af1 w1) w0).
  { unfold ArchiveFile_run. unfold bind at 1. rewrite Hh. reflexivity. }
  rewrite E. clear E. unfold bind, os_Mkdir.
  split; [|split].
  - intros Hd Hn. destruct (decide ("tmp" ∈ denied (fs w0))); [contradiction|].
    rewrite Hn. reflexivity.
  - intros Hd [n Hn]. destruct (decide ("tmp" ∈ denied (fs w0))); [contradiction|].
    rewrite Hn. reflexivity.
  - intros Hd. destruct (decide ("tmp" ∈ denied (fs w0))); [|contradiction]. reflexivity.
Qed.

Lemma ArchiveFile_loop_keeps_dir (decodeFile : FileTarget -> M (FileTarget * option error))
    (fuel : nat) (af : ArchiveFile) (w : World) (p : string) :
  (forall t, steady (decodeFile t)) ->
  (forall t w0, match decodeFile t w0 with
                | Val _ w' | Panic _ w' => fs_extends (fs w0) (fs w')
                | OutOfFuel => True
                end) ->
  (length (r_data (reader w)) < fuel)%nat ->
  nodes (fs w) !! p = Some Dir ->
  match ArchiveFile_loop decodeFile fuel af w with
  | Val _ w' | Panic _ w' => nodes (fs w') !! p = Some Dir
  | OutOfFuel => False
  end.
Proof.
  intros Hst Hfs Hfuel Hp.
  pose proof (steady_ArchiveFile_loop decodeFile fuel af w Hst Hfuel) as H1.
  pose proof (ArchiveFile_loop_fs decodeFile fuel af w Hfs) as H2.
  unfold steady_at in H1.
  destruct (ArchiveFile_loop decodeFile fuel af w) as [r w'|msg w'|]; [| |exact H1];
    destruct H2 as [_ H2]; specialize (H2 p); rewrite Hp in H2; exact H2.
Qed.

(** C10. Once the archive header is read, both entry points call
    [os.Mkdir("tmp")] before they look at any target, whatever [baseDIR] or
    the sink is: when "tmp" is free the decode continues in a file system
    that has the directory, and the directory is still there when the decode
    returns or panics, whatever the archive holds; when something is at "tmp"
    already the decode continues as if the call had succeeded; when the call
    fails for another reason the decode returns that error and reads no
    target. *)
Theorem C10_tmp_directory (af : ArchiveFile) (baseDIR : string) (limitSize : Z)
    (w w0 : World) (h : ArchiveHeader) :
  ReadFileHeader (af_header af) w = Val (h, None) w0 ->
  let af1 := with_ArchiveHeader h af in
  let fuel := S (length (r_data (reader w0))) in
  let toDir := fun t => FileTarget_Decompress filepath_Join schedule t baseDIR limitSize in
  let toStream := fun t => FileTarget_DecompressStream t limitSize in
  let run := ArchiveFile_Decompress filepath_Join schedule af baseDIR limitSize w in
  let runStream := ArchiveFile_DecompressStream af limitSize w in
  ("tmp" ∉ denied (fs w0) -> nodes (fs w0) !! "tmp" = None ->
   let made := set_fs (fs_put "tmp" Dir (fs w0)) w0 in
   run = ArchiveFile_loop toDir fuel af1 made
   /\ runStream = ArchiveFile_loop toStream fuel af1 made
   /\ match run with
      | Val _ w' | Panic _ w' => nodes (fs w') !! "tmp" = Some Dir
      | OutOfFuel => False
      end
   /\ match runStream with
      | Val _ w' | Panic _ w' => nodes (fs w') !! "tmp" = Some Dir
      | OutOfFuel => False
      end)
  /\ ("tmp" ∉ denied (fs w0) -> is_Some (nodes (fs w0) !! "tmp") ->
      run = ArchiveFile_loop toDir fuel af1 w0
      /\ runStream = ArchiveFile_loop toStream fuel af1 w0)
  /\ ("tmp" ∈ denied (fs w0) ->
      run = Val (af1, false, Some (PathError "mkdir" "tmp" EACCES)) w0
      /\ runStream = Val (af1, false, Some (PathError "mkdir" "tmp" EACCES)) w0).
Proof.
  intros Hh af1 fuel toDir toStream run runStream.
  destruct (ArchiveFile_run_mkdir toDir af w w0 h Hh) as (A1 & A2 & A3).
  destruct (ArchiveFile_run_mkdir toStream af w w0 h Hh) as (B1 & B2 & B3).
  fold af1 fuel in A1, A2, A3, B1, B2, B3.
  split; [|split].
  - intros Hd Hn made.
    assert (E1 : run = ArchiveFile_loop toDir fuel af1 made) by (apply A1; assumption).
    assert (E2 : runStream = ArchiveFile_loop toStream fuel af1 made)
      by (apply B1; assumption).
    split; [exact E1|]. split; [exact E2|]. split.
    + rewrite E1. apply ArchiveFile_loop_keeps_dir.
      * intros t. apply steady_FileTarget_Decompress.
      * intros t w1. apply FileTarget_Decompress_fs.
      * subst fuel made. cbn. lia.
      * subst made. cbn [set_fs fs fs_put nodes]. apply lookup_insert_eq.
    + rewrite E2. apply ArchiveFile_loop_keeps_dir.
      * intros t. apply steady_FileTarget_DecompressStream.
      * intros t w1. apply FileTarget_DecompressStream_fs.
      * subst fuel made. cbn. lia.
      * subst made. cbn [set_fs fs fs_put nodes]. apply lookup_insert_eq.
  - intros Hd Hn. split; [apply A2|apply B2]; assumption.
  - intros Hd. split; [apply A3|apply B3]; assumption.
Qed.

End Properties.

(** * Further properties of the decoder *)

Section Further.

Context {codec : Codec}.
Variable filepath_Join : string -> string -> string.
Variable schedule : Schedule.

(** ** Target headers and trailers *)

Lemma ReadTerminator_cons (w : World) (b : byte) (rest : list byte) :
  r_data (reader w) = b :: rest ->
  ReadTerminator w
  = Val (b, if decide (b = x00) then None
            else Some (errorString ("invalid terminator: " +:+ fmt_s [b])))
        (advance w rest).
Proof.
  intros Hd. unfold ReadTerminator, bind.
  change ReadByte with ReadType. rewrite (ReadType_cons w b rest Hd).
  change (hd x00 Terminator) with x00.
  destruct (decide (b <> x00)) as [Hne|Heq]; destruct (decide (b = x00)) as [He|He];
    try reflexivity; [contradiction|exfalso; apply Heq, He].
Qed.

Lemma ReadTerminator_nil (w : World) :
  r_data (reader w) = [] ->
  ReadTerminator w
  = Val (x00, Some (errorString ("read terminator failed: " +:+ Error (r_end (reader w))))) w.
Proof.
  intros Hd. unfold ReadTerminator, bind.
  change ReadByte with ReadType. rewrite (ReadType_nil w Hd). reflexivity.
Qed.

(** [ReadHeader] on a stream that holds the length field and the name. *)
Lemma ReadHeader_named (t : TargetHeader) (w : World) (len4 name more : list byte) :
  length len4 = 4%nat ->
  Z.of_nat (length name) = littleEndian len4 ->
  r_data (reader w) = len4 ++ name ++ more ->
  ReadHeader t w
  = (let* (term, err) := ReadTerminator in
     ret ({| th_TargetType := th_TargetType t; NameLength := littleEndian len4;
             Name := name; th_Terminator := term |}, err)) (advance w more).
Proof.
  intros H4 Hlen Hd. unfold ReadHeader, ReadLengthU32EncodedString.
  unfold bind at 1. unfold bind at 1. rewrite <- H4.
  rewrite (binary_Read_uint_enough (length len4)) by (rewrite Hd, length_app; lia).
  rewrite Hd, take_app_length, drop_app_length. unfold bind at 1.
  rewrite <- Hlen, Nat2Z.id.
  rewrite (binary_Read_app name more) by reflexivity.
  cbn [ret th_TargetType NameLength Name]. rewrite advance_advance. reflexivity.
Qed.

(** [ReadHeader] on a stream too short for the length field or the name. *)
Lemma ReadHeader_short (t : TargetHeader) (w : World) :
  let d := r_data (reader w) in
  (length d < 4)%nat
  \/ ((4 <= length d)%nat /\ (length d < 4 + Z.to_nat (littleEndian (take 4 d)))%nat) ->
  exists h e, ReadHeader t w = Val (h, Some e) (advance w [])
              /\ th_Terminator h = th_Terminator t.
Proof.
  intros d [Hs|[H4 Hs]]; unfold ReadHeader, ReadLengthU32EncodedString;
    unfold bind at 1; unfold bind at 1.
  - destruct (binary_Read_uint_short 4 0 w Hs) as [e ->]. cbn. eauto.
  - rewrite (binary_Read_uint_enough 4) by exact H4. fold d. unfold bind at 1.
    match goal with
    | |- context [binary_Read ?n ?dst ?w0] =>
        destruct (binary_Read_short n dst w0) as [e ->]
    end.
    { cbn [advance set_reader reader r_data]. rewrite length_drop. lia. }
    cbn. eauto.
Qed.

Lemma ReadHeader_inv (t h : TargetHeader) (w w' : World) :
  ReadHeader t w = Val (h, None) w' ->
  exists len4 name rest,
    r_data (reader w) = len4 ++ name ++ x00 :: rest
    /\ length len4 = 4%nat
    /\ Z.of_nat (length name) = littleEndian len4
    /\ h = {| th_TargetType := th_TargetType t; NameLength := littleEndian len4;
              Name := name; th_Terminator := x00 |}
    /\ w' = advance w rest.
Proof.
  intros H. set (d := r_data (reader w)).
  destruct (le_lt_dec 4 (length d)) as [H4|H4].
  2:{ destruct (ReadHeader_short t w (or_introl H4)) as (h1 & e & E & _).
      rewrite E in H. discriminate. }
  set (n := Z.to_nat (littleEndian (take 4 d))).
  destruct (le_lt_dec (4 + n) (length d)) as [Hn|Hn].
  2:{ destruct (ReadHeader_short t w (or_intror (conj H4 Hn))) as (h1 & e & E & _).
      rewrite E in H. discriminate. }
  assert (Hd : d = take 4 d ++ take n (drop 4 d) ++ drop n (drop 4 d))
    by (rewrite !take_drop; reflexivity).
  assert (L4 : length (take 4 d) = 4%nat) by (rewrite length_take; lia).
  assert (Ln : Z.of_nat (length (take n (drop 4 d))) = littleEndian (take 4 d)).
  { rewrite length_take, length_drop. subst n.
    pose proof (littleEndian_le_value (take 4 d)) as Hv.
    pose proof (le_value_range (take 4 d)) as Hr. lia. }
  rewrite (ReadHeader_named t w _ _ _ L4 Ln Hd) in H. unfold bind in H.
  destruct (drop n (drop 4 d)) as [|b rest] eqn:Hrest.
  - rewrite ReadTerminator_nil in H by reflexivity. discriminate.
  - rewrite (ReadTerminator_cons _ b rest) in H
      by reflexivity.
    destruct (decide (b = x00)) as [->|Hb]; [|discriminate].
    cbn [ret] in H. inversion H; subst h w'; clear H.
    exists (take 4 d), (take n (drop 4 d)), rest.
    repeat split; assumption.
Qed.

(** X1. [TargetHeader.ReadHeader] returns a nil error exactly on a stream
    that starts with a four-byte length, a name of that many bytes and a zero
    byte; it then records the length and the name and leaves the reader
    behind the zero byte.  A byte other than zero after the name is the error
    "invalid terminator", with the name and the offending byte recorded; a
    stream that ends with the name is the error "read terminator failed". *)
Theorem X1_ReadHeader_wellformed (t : TargetHeader) (w : World) :
  (forall h w',
     ReadHeader t w = Val (h, None) w'
     <-> exists len4 name rest,
           r_data (reader w) = len4 ++ name ++ x00 :: rest
           /\ length len4 = 4%nat
           /\ Z.of_nat (length name) = littleEndian len4
           /\ h = {| th_TargetType := th_TargetType t; NameLength := littleEndian len4;
                     Name := name; th_Terminator := x00 |}
           /\ w' = advance w rest)
  /\ (forall len4 name b rest,
        length len4 = 4%nat -> Z.of_nat (length name) = littleEndian len4 ->
        r_data (reader w) = len4 ++ name ++ b :: rest -> b <> x00 ->
        ReadHeader t w
        = Val ({| th_TargetType := th_TargetType t; NameLength := littleEndian len4;
                  Name := name; th_Terminator := b |},
               Some (errorString ("invalid terminator: " +:+ fmt_s [b])))
              (advance w rest))
  /\ (forall len4 name,
        length len4 = 4%nat -> Z.of_nat (length name) = littleEndian len4 ->
        r_data (reader w) = len4 ++ name ->
        ReadHeader t w
        = Val ({| th_TargetType := th_TargetType t; NameLength := littleEndian len4;
                  Name := name; th_Terminator := x00 |},
               Some (errorString ("read terminator failed: " +:+ Error (r_end (reader w)))))
              (advance w [])).
Proof.
  split; [|split].
  - intros h w'. split; [apply ReadHeader_inv|].
    intros (len4 & name & rest & Hd & H4 & Hlen & -> & ->).
    rewrite (ReadHeader_named t w len4 name (x00 :: rest) H4 Hlen Hd). unfold bind.
    rewrite (ReadTerminator_cons _ x00 rest) by reflexivity. reflexivity.
  - intros len4 name b rest H4 Hlen Hd Hb.
    rewrite (ReadHeader_named t w len4 name (b :: rest) H4 Hlen Hd). unfold bind.
    rewrite (ReadTerminator_cons _ b rest) by reflexivity.
    destruct (decide (b = x00)); [contradiction|]. reflexivity.
  - intros len4 name H4 Hlen Hd.
    rewrite (ReadHeader_named t w len4 name [] H4 Hlen)
      by (rewrite app_nil_r; exact Hd).
    unfold bind. rewrite ReadTerminator_nil by reflexivity. reflexivity.
Qed.

Lemma ReadTrailer_good (t : FileTrailer) (w : World) (ri rest : list byte) :
  r_data (reader w) = drop 1 TrailerStarter ++ ri ++ rest ->
  length ri = 8%nat ->
  ReadTrailer t w
  = Val ({| TrailerType := TrailerType t; ft_StarterTail := drop 1 TrailerStarter;
            ft_RecoverInfo := ri |}, None) (advance w rest).
Proof.
  intros Hd H8. unfold ReadTrailer, ReadStarterTail, ReadRecoverInfo. unfold bind at 1.
  change (binary_Read 7) with (binary_Read (length (drop 1 TrailerStarter))).
  rewrite (binary_Read_app _ (ri ++ rest)) by exact Hd. cbn [ft_StarterTail].
  destruct (decide (drop 1 TrailerStarter <> drop 1 TrailerStarter)) as [Hne|_];
    [congruence|].
  unfold bind. rewrite <- H8. rewrite (binary_Read_app ri rest) by reflexivity.
  reflexivity.
Qed.

Lemma ReadTrailer_inv (t t' : FileTrailer) (w w' : World) :
  ReadTrailer t w = Val (t', None) w' ->
  exists ri rest,
    r_data (reader w) = drop 1 TrailerStarter ++ ri ++ rest
    /\ length ri = 8%nat
    /\ t' = {| TrailerType := TrailerType t; ft_StarterTail := drop 1 TrailerStarter;
               ft_RecoverInfo := ri |}
    /\ w' = advance w rest.
Proof.
  set (d := r_data (reader w)).
  unfold ReadTrailer, ReadStarterTail, ReadRecoverInfo. unfold bind at 1.
  destruct (binary_Read_cases 7 (ft_StarterTail t) w) as [[L1 ->]|[L1 [e ->]]];
    [|discriminate].
  fold d in L1 |- *. cbn [ft_StarterTail].
  destruct (decide (take 7 d <> drop 1 TrailerStarter)) as [_|Heq]; [discriminate|].
  apply dec_stable in Heq. unfold bind.
  match goal with
  | |- context [binary_Read 8 ?dst ?w0] =>
      destruct (binary_Read_cases 8 dst w0) as [[L2 ->]|[L2 [e ->]]]
  end; [|discriminate].
  cbn [advance set_reader reader r_data r_end] in L2 |- *. rewrite length_drop in L2.
  intros H. inversion H; subst t' w'; clear H.
  exists (take 8 (drop 7 d)), (drop 8 (drop 7 d)).
  split; [rewrite <- Heq, !take_drop; reflexivity|].
  split; [rewrite length_take, length_drop; lia|].
  split; [rewrite Heq; reflexivity|reflexivity].
Qed.

(** X2. [FileTrailer.ReadTrailer] returns a nil error exactly on a stream
    that goes on with "NDSENDS" (the trailer marker after its type byte) and
    eight bytes of recovery information, which it records, leaving the reader
    behind them.  Seven bytes that are not the marker are the error "invalid
    trailer starter tail"; they are consumed and recorded, the recovery
    information is not read. *)
Theorem X2_ReadTrailer_wellformed (t : FileTrailer) (w : World) :
  (forall t' w',
     ReadTrailer t w = Val (t', None) w'
     <-> exists ri rest,
           r_data (reader w) = drop 1 TrailerStarter ++ ri ++ rest
           /\ length ri = 8%nat
           /\ t' = {| TrailerType := TrailerType t;
                      ft_StarterTail := drop 1 TrailerStarter; ft_RecoverInfo := ri |}
           /\ w' = advance w rest)
  /\ (forall s rest,
        length s = 7%nat -> s <> drop 1 TrailerStarter ->
        r_data (reader w) = s ++ rest ->
        ReadTrailer t w
        = Val ({| TrailerType := TrailerType t; ft_StarterTail := s;
                  ft_RecoverInfo := ft_RecoverInfo t |},
               Some (errorString ("invalid trailer starter tail: " +:+ fmt_s s)))
              (advance w rest)).
Proof.
  split.
  - intros t' w'. split; [apply ReadTrailer_inv|].
    intros (ri & rest & Hd & H8 & -> & ->). apply ReadTrailer_good; assumption.
  - intros s rest H7 Hne Hd. unfold ReadTrailer, ReadStarterTail. unfold bind at 1.
    rewrite <- H7. rewrite (binary_Read_app s rest) by exact Hd. cbn [ft_StarterTail].
    destruct (decide (s <> drop 1 TrailerStarter)) as [_|Heq]; [reflexivity|].
    exfalso. apply Heq, Hne.
Qed.

(** ** The buffer of a block *)

Lemma NewDataBlock_cases (w : World) :
  0 <= ChunkSize w < 2 ^ 64 ->
  (ChunkSize w + 400 <= maxAlloc
   /\ NewDataBlock w
      = Val {| BlockType := TypeNew;
               db_StarterTail := repeat x00 7;
               db_RecoverInfo := repeat x00 8;
               Checksum := repeat x00 4;
               CompressedChunk :=
                 {| s_array := repeat x00 (Z.to_nat (ChunkSize w + 400));
                    s_len := ChunkSize w |};
               CompressedSize := 0;
               DecompressedSize := 0;
               DecompressedOffset := 0 |} w)
  \/ (maxAlloc < ChunkSize w + 400
      /\ NewDataBlock w = Panic "makeslice: len or cap out of range" w).
Proof.
  intros Hcs. unfold NewDataBlock, bind, make.
  set (len := wrap_int64 (ChunkSize w)).
  set (c := wrap_int64 (wrap_uint64 (ChunkSize w + 400))).
  destruct (Z_le_gt_dec (ChunkSize w + 400) maxAlloc) as [Hle|Hgt].
  - left. split; [exact Hle|].
    assert (Hl : len = ChunkSize w).
    { subst len. unfold wrap_int64, maxAlloc in *. Z.div_mod_to_equations. lia. }
    assert (Hc : c = ChunkSize w + 400).
    { subst c. unfold wrap_int64, wrap_uint64, maxAlloc in *. Z.div_mod_to_equations. lia. }
    rewrite Hl, Hc.
    destruct (Z.ltb_spec (ChunkSize w) 0); [lia|].
    destruct (Z.ltb_spec (ChunkSize w + 400) (ChunkSize w)); [lia|].
    destruct (Z.ltb_spec maxAlloc (ChunkSize w + 400)); [lia|]. reflexivity.
  - right. split; [lia|].
    assert (Hbad : len < 0 \/ c < len \/ maxAlloc < c).
    { subst len c. unfold wrap_int64, wrap_uint64, maxAlloc in *.
      Z.div_mod_to_equations. lia. }
    destruct (Z.ltb_spec len 0); [reflexivity|].
    destruct (Z.ltb_spec c len); [reflexivity|].
    destruct (Z.ltb_spec maxAlloc c); [reflexivity|]. lia.
Qed.

(** X3. [NewDataBlock], the package variable [ChunkSize] being a [uint64]:
    when [ChunkSize + 400] is at most the largest allocation of the runtime
    the block comes with a zeroed buffer of length [ChunkSize] and capacity
    [ChunkSize + 400], nothing else in the world changing; for every larger
    [ChunkSize] the call panics in [make], the values that wrap around in the
    conversion to [int] included. *)
Theorem X3_NewDataBlock_buffer (w : World) :
  0 <= ChunkSize w < 2 ^ 64 ->
  (ChunkSize w + 400 <= maxAlloc ->
   exists b, NewDataBlock w = Val b w
             /\ s_len (CompressedChunk b) = ChunkSize w
             /\ s_array (CompressedChunk b) = repeat x00 (Z.to_nat (ChunkSize w + 400))
             /\ cap (CompressedChunk b) = ChunkSize w + 400
             /\ BlockType b = TypeNew
             /\ CompressedSize b = 0 /\ DecompressedSize b = 0 /\ DecompressedOffset b = 0)
  /\ (maxAlloc < ChunkSize w + 400 ->
      NewDataBlock w = Panic "makeslice: len or cap out of range" w).
Proof.
  intros Hcs. destruct (NewDataBlock_cases w Hcs) as [[Hle E]|[Hgt E]]; split;
    try (intros; lia); intros _; [|exact E].
  eexists. split; [exact E|]. cbn [CompressedChunk s_len s_array BlockType CompressedSize
    DecompressedSize DecompressedOffset]. unfold cap. cbn [s_array].
  rewrite repeat_length, Z2Nat.id by lia. repeat split; reflexivity.
Qed.


Lemma ArchiveFile_loop_file (decodeFile : FileTarget -> M (FileTarget * option error))
    (fuel : nat) (af : ArchiveFile) (w : World) (rest : list byte) :
  r_data (reader w) = TypeFile :: rest ->
  ArchiveFile_loop decodeFile (S fuel) af w
  = (let* (ft, err) := decodeFile (fresh_FileTarget TypeFile) in
     match err with
     | Some e =>
         if strings_HasPrefix (Error e) "partial decompress to limited size"
         then ret (af, true, None)
         else ret (af, false, Some e)
     | None => ArchiveFile_loop decodeFile fuel (append_Target (FileTarget_ ft) af)
     end) (advance w rest).
Proof.
  intros Hd. cbn [ArchiveFile_loop]. unfold bind at 1. rewrite (ReadType_cons w _ _ Hd).
  destruct (decide (TypeFile = x00)); [discriminate|].
  destruct (decide (TypeFile = TypeDown)); [discriminate|].
  destruct (decide (TypeFile = TypeUp)); [discriminate|].
  destruct (decide (TypeFile = TypeFile)); [|congruence]. reflexivity.
Qed.

Lemma ReadHeader_good (t : TargetHeader) (w : World) (len4 name rest : list byte) :
  length len4 = 4%nat ->
  Z.of_nat (length name) = littleEndian len4 ->
  r_data (reader w) = len4 ++ name ++ x00 :: rest ->
  ReadHeader t w
  = Val ({| th_TargetType := th_TargetType t; NameLength := littleEndian len4;
            Name := name; th_Terminator := x00 |}, None) (advance w rest).
Proof.
  intros H4 Hlen Hd.
  rewrite (ReadHeader_named t w len4 name (x00 :: rest) H4 Hlen Hd). unfold bind.
  rewrite (ReadTerminator_cons _ x00 rest) by reflexivity. reflexivity.
Qed.




Lemma ReadHeader_returns (t : TargetHeader) (w : World) :
  exists h err w', ReadHeader t w = Val (h, err) w'.
Proof.
  set (d := r_data (reader w)).
  destruct (le_lt_dec 4 (length d)) as [H4|H4].
  2:{ destruct (ReadHeader_short t w (or_introl H4)) as (h1 & e & E & _). eauto. }
  set (n := Z.to_nat (littleEndian (take 4 d))).
  destruct (le_lt_dec (4 + n) (length d)) as [Hn|Hn].
  2:{ destruct (ReadHeader_short t w (or_intror (conj H4 Hn))) as (h1 & e & E & _). eauto. }
  assert (Hd : d = take 4 d ++ take n (drop 4 d) ++ drop n (drop 4 d))
    by (rewrite !take_drop; reflexivity).
  assert (L4 : length (take 4 d) = 4%nat) by (rewrite length_take; lia).
  assert (Ln : Z.of_nat (length (take n (drop 4 d))) = littleEndian (take 4 d)).
  { rewrite length_take, length_drop. subst n.
    pose proof (littleEndian_le_value (take 4 d)) as Hv.
    pose proof (le_value_range (take 4 d)) as Hr. lia. }
  rewrite (ReadHeader_named t w _ _ _ L4 Ln Hd). unfold bind.
  destruct (drop n (drop 4 d)) as [|b rest] eqn:Hrest.
  - rewrite ReadTerminator_nil by reflexivity. cbn. eauto.
  - rewrite (ReadTerminator_cons _ b rest) by reflexivity. cbn. eauto.
Qed.

(** ** Directory records and the list of targets *)

Lemma ArchiveFile_loop_Down (decodeFile : FileTarget -> M (FileTarget * option error))
    (fuel : nat) (af : ArchiveFile) (w : World) (rest : list byte) :
  r_data (reader w) = TypeDown :: rest ->
  ArchiveFile_loop decodeFile (S fuel) af w
  = (let* (d, err) := ReadHeader (with_TargetType TypeDown zero_TargetHeader) in
     match err with
     | Some e => ret (af, false, Some e)
     | None => ret (append_Target (DownTarget d) af, false,
                    Some (errorString "unsupport down directory"))
     end) (advance w rest).
Proof.
  intros Hd. cbn [ArchiveFile_loop]. unfold bind at 1. rewrite (ReadType_cons w _ _ Hd).
  destruct (decide (TypeDown = x00)); [discriminate|].
  destruct (decide (TypeDown = TypeDown)); [|congruence]. reflexivity.
Qed.

(** X5. Directory records are refused, by both entry points (the target
    loop, whatever the file decoder).  At a type byte 'U' the loop records an
    [UpTarget], reads nothing more and returns "unsupport up directory".  At
    a type byte 'D' it never returns a nil error or a partial result: it
    returns the error of the header read, or, the header being well formed,
    records a [DownTarget] with the name read and returns "unsupport down
    directory", the reader behind the header. *)
Theorem X5_directory_records_are_refused
    (decodeFile : FileTarget -> M (FileTarget * option error))
    (fuel : nat) (af : ArchiveFile) (w : World) (rest : list byte) :
  (r_data (reader w) = TypeUp :: rest ->
   ArchiveFile_loop decodeFile (S fuel) af w
   = Val (append_Target (UpTarget (with_TargetType TypeUp zero_TargetHeader)) af, false,
          Some (errorString "unsupport up directory"))
         (advance w rest))
  /\ (r_data (reader w) = TypeDown :: rest ->
      (exists af' e w',
          ArchiveFile_loop decodeFile (S fuel) af w = Val (af', false, Some e) w')
      /\ forall len4 name rest',
           rest = len4 ++ name ++ x00 :: rest' ->
           length len4 = 4%nat -> Z.of_nat (length name) = littleEndian len4 ->
           ArchiveFile_loop decodeFile (S fuel) af w
           = Val (append_Target
                    (DownTarget {| th_TargetType := TypeDown;
                                   NameLength := littleEndian len4;
                                   Name := name; th_Terminator := x00 |}) af,
                  false, Some (errorString "unsupport down directory"))
                 (advance w rest')).
Proof.
  split.
  - intros Hd. cbn [ArchiveFile_loop]. unfold bind at 1. rewrite (ReadType_cons w _ _ Hd).
    destruct (decide (TypeUp = x00)); [discriminate|].
    destruct (decide (TypeUp = TypeDown)); [discriminate|].
    destruct (decide (TypeUp = TypeUp)); [|congruence]. reflexivity.
  - intros Hd. rewrite (ArchiveFile_loop_Down decodeFile fuel af w rest Hd). split.
    + unfold bind.
      destruct (ReadHeader_returns (with_TargetType TypeDown zero_TargetHeader)
                  (advance w rest)) as (d & [e|] & w1 & ->);
        eexists _, _, _; reflexivity.
    + intros len4 name rest' -> H4 Hlen. unfold bind.
      rewrite (ReadHeader_good _ (advance w _) len4 name rest' H4 Hlen) by reflexivity.
      cbn [ret]. rewrite advance_advance. reflexivity.
Qed.



(** ** A file is accepted only as a well-formed record *)

Lemma NewDataBlock_world (w w' : World) (b : DataBlock) :
  NewDataBlock w = Val b w' -> w' = w.
Proof.
  unfold NewDataBlock, bind, make. destruct (_ || _); [discriminate|].
  cbn [ret]. intros H. inversion H. reflexivity.
Qed.

Lemma ReadBlock_small_buffer (t t' : DataBlock) (w w' : World) :
  cap (CompressedChunk t) < ChunkHeaderSize ->
  ReadBlock t w <> Val (t', None) w'.
Proof.
  intros Hcap. unfold ReadBlock, ReadStarterTail, ReadRecoverInfo, ReadChecksum. unfold bind.
  destruct (binary_Read 7 _ w) as [[s [e|]] w1|msg w1|]; try discriminate.
  destruct (decide _); [discriminate|].
  destruct (binary_Read 8 _ w1) as [[ri [e|]] w2|msg w2|]; try discriminate.
  destruct (binary_Read 4 _ w2) as [[ck [e|]] w3|msg w3|]; try discriminate.
  cbn [ret]. unfold ReadChunk.
  cbn [CompressedChunk with_Checksum with_RecoverInfo with_StarterTail].
  destruct (Z.ltb_spec (cap (CompressedChunk t)) ChunkHeaderSize); [discriminate|lia].
Qed.

(** A block parsed without error was a block record in the stream. *)
Lemma ReadBlock_inv (t t' : DataBlock) (w w' : World) :
  ReadBlock t w = Val (t', None) w' ->
  exists ri ck hdr payload,
    r_data (reader w) = drop 1 BlockStarter ++ ri ++ ck ++ hdr ++ payload ++ r_data (reader w')
    /\ length ri = 8%nat /\ length ck = 4%nat /\ length hdr = 9%nat
    /\ Z.of_nat (length payload) = Size_compressed hdr - ChunkHeaderSize
    /\ Size_compressed hdr <= cap (CompressedChunk t)
    /\ t' = parsed_block t (drop 1 BlockStarter) ri ck hdr payload
    /\ w' = advance w (r_data (reader w')).
Proof.
  intros H.
  destruct (Z.ltb_spec (cap (CompressedChunk t)) ChunkHeaderSize) as [Hs|Hcap].
  { exfalso. eapply ReadBlock_small_buffer; eauto. }
  pose proof (ReadBlock_cases t w Hcap) as Hc. cbv zeta in Hc.
  set (d := r_data (reader w)) in *.
  set (hdr := take 9 (drop 19 d)) in *.
  set (n := Z.to_nat (Size_compressed hdr - ChunkHeaderSize)) in *.
  destruct Hc as [(_ & t1 & e & w1 & E)|[(_ & _ & _ & E)|[(_ & _ & _ & _ & t1 & e & w1 & E)
                 |(Hlen & Hs & Hsz & E)]]]; try (rewrite E in H; discriminate).
  assert (Ht : t' = parsed_block t (take 7 d) (take 8 (drop 7 d)) (take 4 (drop 15 d)) hdr
                                 (take n (drop 28 d))) by congruence.
  assert (Hw : w' = advance w (drop (28 + n) d)) by congruence.
  subst t' w'. clear E H.
  exists (take 8 (drop 7 d)), (take 4 (drop 15 d)), hdr, (take n (drop 28 d)).
  change (r_data (reader (advance w (drop (28 + n) d)))) with (drop (28 + n) d).
  split.
  { rewrite <- Hs. subst hdr. rewrite <- (drop_drop d n 28), take_drop.
    change 28%nat with (19 + 9)%nat. rewrite <- (drop_drop d 9 19), take_drop.
    change 19%nat with (15 + 4)%nat. rewrite <- (drop_drop d 4 15), take_drop.
    change 15%nat with (7 + 8)%nat. rewrite <- (drop_drop d 8 7), !take_drop.
    reflexivity. }
  split; [rewrite length_take, length_drop; lia|].
  split; [rewrite length_take, length_drop; lia|].
  split; [subst hdr; rewrite length_take, length_drop; lia|].
  split; [rewrite length_take, length_drop; subst n; unfold ChunkHeaderSize in *; lia|].
  split; [lia|]. split; [rewrite Hs; reflexivity|reflexivity].
Qed.

Lemma block_records_nil : block_records [].
Proof. exists []. split; [reflexivity|constructor]. Qed.

Lemma block_records_one (ri ck hdr payload more : list byte) :
  length ri = 8%nat -> length ck = 4%nat -> length hdr = 9%nat ->
  Z.of_nat (length payload) = Size_compressed hdr - ChunkHeaderSize ->
  block_records more ->
  block_records (TypeNew :: drop 1 BlockStarter ++ ri ++ ck ++ hdr ++ payload ++ more).
Proof.
  intros Hri Hck Hh Hp (blocks & -> & Hall).
  exists ({| br_RecoverInfo := ri; br_Checksum := ck; br_header := hdr;
             br_payload := payload |} :: blocks).
  split; [|constructor; [repeat split; assumption|exact Hall]].
  cbn [map concat]. unfold block_record.
  cbn [br_RecoverInfo br_Checksum br_header br_payload].
  rewrite <- !app_assoc. reflexivity.
Qed.

Lemma FileTarget_DecompressStream_loop_record (fuel : nat) (limitSize offset : Z)
    (t t' : FileTarget) (w w' : World) :
  FileTarget_DecompressStream_loop fuel limitSize offset t w = Val (t', None) w' ->
  exists body ri,
    r_data (reader w) = body ++ TrailerStarter ++ ri ++ r_data (reader w')
    /\ block_records body /\ length ri = 8%nat
    /\ t' = with_trailer {| TrailerType := TrailerType (ft_trailer t);
                            ft_StarterTail := drop 1 TrailerStarter;
                            ft_RecoverInfo := ri |} t.
Proof.
  revert offset w. induction fuel as [|fuel IH]; intros offset w; [discriminate|].
  cbn [FileTarget_DecompressStream_loop]. unfold bind at 1.
  destruct (ReadType_returns w) as (ty & err & w1 & Hrt). rewrite Hrt.
  destruct (ReadType_inv _ _ _ _ Hrt) as [(_ & _ & -> & _)|(rest & Hd & -> & ->)];
    [discriminate|].
  destruct (decide (ty = TypeNew)) as [->|_]; [|destruct (decide (ty = TypeEnd)) as [->|_]].
  - unfold bind at 1.
    destruct (NewDataBlock (advance w rest)) as [b w2|msg w2|] eqn:Hnew; try discriminate.
    apply NewDataBlock_world in Hnew. subst w2. unfold bind at 1.
    destruct (ReadBlock b (advance w rest)) as [[b' [e3|]] w3|msg w3|] eqn:Hrb;
      try discriminate.
    destruct (ReadBlock_inv _ _ _ _ Hrb) as (ri & ck & hdr & payload & Hd3 & H8 & H4 & H9
                                              & Hn & _ & _ & _).
    change (r_data (reader (advance w rest))) with rest in Hd3.
    destruct (_ && _); [discriminate|].
    unfold bind at 1. unfold make. destruct (_ || _); [discriminate|]. cbn [ret].
    destruct (DecompressChunk _ _) as [chunk [e4|]]; [discriminate|].
    unfold bind at 1. unfold Writer_Write.
    destruct (w_broken (writer w3)) as [e5|]; [discriminate|].
    intros H. apply IH in H. destruct H as (body & ri' & Hd5 & Hb & H8' & ->).
    cbn [set_writer reader] in Hd5.
    exists (TypeNew :: drop 1 BlockStarter ++ ri ++ ck ++ hdr ++ payload ++ body), ri'.
    split; [|split; [apply block_records_one; assumption|split; [exact H8'|reflexivity]]].
    rewrite Hd, Hd3, Hd5. cbn [app]. f_equal. rewrite <- !app_assoc. reflexivity.
  - unfold bind at 1.
    destruct (ReadTrailer (ft_trailer t) (advance w rest)) as [[tr [e2|]] w2|msg w2|] eqn:Htr;
      try discriminate.
    destruct (ReadTrailer_inv _ _ _ _ Htr) as (ri & rest' & Hd2 & H8 & -> & ->).
    change (r_data (reader (advance w rest))) with rest in Hd2.
    cbn [ret]. intros H. injection H as <- <-.
    exists [], ri. split; [|split; [apply block_records_nil|split; [exact H8|reflexivity]]].
    rewrite Hd, Hd2. reflexivity.
  - discriminate.
Qed.

Lemma FileTarget_Decompress_loop_record (fuel : nat) (f : string) (limitSize offset : Z)
    (t t' : FileTarget) (w w' : World) :
  FileTarget_Decompress_loop fuel f limitSize offset t w = Val (t', None) w' ->
  exists body ri,
    r_data (reader w) = body ++ TrailerStarter ++ ri ++ r_data (reader w')
    /\ block_records body /\ length ri = 8%nat
    /\ t' = with_trailer {| TrailerType := TrailerType (ft_trailer t);
                            ft_StarterTail := drop 1 TrailerStarter;
                            ft_RecoverInfo := ri |} t.
Proof.
  revert offset w. induction fuel as [|fuel IH]; intros offset w; [discriminate|].
  cbn [FileTarget_Decompress_loop]. unfold bind at 1.
  destruct (ReadType_returns w) as (ty & err & w1 & Hrt). rewrite Hrt.
  destruct (ReadType_inv _ _ _ _ Hrt) as [(_ & _ & -> & _)|(rest & Hd & -> & ->)];
    [discriminate|].
  destruct (decide (ty = TypeNew)) as [->|_]; [|destruct (decide (ty = TypeEnd)) as [->|_]].
  - unfold bind at 1.
    destruct (NewDataBlock (advance w rest)) as [b w2|msg w2|] eqn:Hnew; try discriminate.
    apply NewDataBlock_world in Hnew. subst w2. unfold bind at 1.
    destruct (ReadBlock b (advance w rest)) as [[b' [e3|]] w3|msg w3|] eqn:Hrb;
      try discriminate.
    destruct (ReadBlock_inv _ _ _ _ Hrb) as (ri & ck & hdr & payload & Hd3 & H8 & H4 & H9
                                              & Hn & _ & _ & _).
    change (r_data (reader (advance w rest))) with rest in Hd3.
    destruct (_ && _); [discriminate|].
    unfold bind at 1. cbn [pool_Submit].
    intros H. apply IH in H. destruct H as (body & ri' & Hd5 & Hb & H8' & ->).
    cbn [set_pool reader] in Hd5.
    exists (TypeNew :: drop 1 BlockStarter ++ ri ++ ck ++ hdr ++ payload ++ body), ri'.
    split; [|split; [apply block_records_one; assumption|split; [exact H8'|reflexivity]]].
    rewrite Hd, Hd3, Hd5. cbn [app]. f_equal. rewrite <- !app_assoc. reflexivity.
  - unfold bind at 1.
    destruct (ReadTrailer (ft_trailer t) (advance w rest)) as [[tr [e2|]] w2|msg w2|] eqn:Htr;
      try discriminate.
    destruct (ReadTrailer_inv _ _ _ _ Htr) as (ri & rest' & Hd2 & H8 & -> & ->).
    change (r_data (reader (advance w rest))) with rest in Hd2.
    cbn [ret]. intros H. injection H as <- <-.
    exists [], ri. split; [|split; [apply block_records_nil|split; [exact H8|reflexivity]]].
    rewrite Hd, Hd2. reflexivity.
  - discriminate.
Qed.

Lemma file_record_intro (len4 name body ri rest0 rest1 rest2 : list byte) :
  rest0 = len4 ++ name ++ x00 :: rest1 ->
  rest1 = body ++ TrailerStarter ++ ri ++ rest2 ->
  length len4 = 4%nat -> Z.of_nat (length name) = littleEndian len4 ->
  block_records body -> length ri = 8%nat ->
  exists record, rest0 = record ++ rest2 /\ file_record name ri record.
Proof.
  intros -> -> H4 Hlen Hb H8.
  exists (len4 ++ name ++ x00 :: body ++ TrailerStarter ++ ri). split.
  - rewrite <- !app_assoc. cbn [app]. rewrite <- !app_assoc. reflexivity.
  - exists len4, body. auto.
Qed.

(** X7. A file is accepted only as a complete, well-formed record.  When
    [FileTarget.DecompressStream] or [FileTarget.Decompress] returns a nil
    error, what it has consumed from the stream is a file record: the length
    of the name, the name (the one the target now carries), a zero byte,
    block records whose packets are as long as their mini-headers declare,
    and the trailer "ENDSENDS" with eight bytes of recovery information (the
    ones the target now carries).  In particular a stream that ends inside a
    file, or lacks the trailer, is never decoded with a nil error. *)
Theorem X7_accepted_file_is_a_record (t t' : FileTarget) (baseDIR : string)
    (limitSize : Z) (w w' : World) :
  FileTarget_DecompressStream t limitSize w = Val (t', None) w'
  \/ FileTarget_Decompress filepath_Join schedule t baseDIR limitSize w = Val (t', None) w' ->
  exists record,
    r_data (reader w) = record ++ r_data (reader w')
    /\ file_record (Name (ft_header t')) (ft_RecoverInfo (ft_trailer t')) record.
Proof.
  intros [H|H].
  - unfold FileTarget_DecompressStream in H. unfold bind at 1 in H.
    destruct (ReadHeader (ft_header t) w) as [[h [e|]] w1|msg w1|] eqn:Hh; try discriminate.
    destruct (ReadHeader_inv _ _ _ _ Hh) as (len4 & name & rest & Hd & H4 & Hlen & -> & ->).
    apply FileTarget_DecompressStream_loop_record in H.
    destruct H as (body & ri & Hd1 & Hb & H8 & ->).
    cbn [ft_header ft_trailer with_trailer with_header Name ft_RecoverInfo].
    eapply file_record_intro; eauto.
  - unfold FileTarget_Decompress in H. unfold bind at 1 in H.
    destruct (ReadHeader (ft_header t) w) as [[h [e|]] w1|msg w1|] eqn:Hh; try discriminate.
    destruct (ReadHeader_inv _ _ _ _ Hh) as (len4 & name & rest & Hd & H4 & Hlen & -> & ->).
    unfold bind at 1 in H.
    destruct (os_Stat_world (filepath_Join baseDIR (string_of_list_byte
                (Name (ft_header (with_header
                   {| th_TargetType := th_TargetType (ft_header t);
                      NameLength := littleEndian len4; Name := name;
                      th_Terminator := x00 |} t))))) (advance w rest))
      as (err & E & _ & _).
    rewrite E in H. clear E. revert H.
    destruct err as [e|]; [|discriminate]. cbn [is_nil negb andb from_option].
    destruct (negb (os_IsNotExist e)); [discriminate|].
    unfold bind at 1. unfold os_OpenFile.
    destruct (decide _) as [|_]; [discriminate|].
    destruct (nodes _ !! _) as [[|c]|]; [discriminate| |];
      unfold bind at 1; cbn [pond_New]; unfold defer;
      match goal with
      | |- context [FileTarget_Decompress_loop ?fu ?f ?l ?o ?t0 ?w0] =>
          destruct (FileTarget_Decompress_loop fu f l o t0 w0) as [[t2 [e2|]] w2|msg w2|]
            eqn:Hloop; try discriminate
      end;
      intros H; injection H as <- <-;
      apply FileTarget_Decompress_loop_record in Hloop;
      destruct Hloop as (body & ri & Hd1 & Hb & H8 & ->);
      cbn [ft_header ft_trailer with_trailer with_header Name ft_RecoverInfo];
      eapply file_record_intro; eauto.
Qed.

(** ** The size limit bounds what is written *)

Lemma make_Val (len c : Z) (w w' : World) (s : slice) :
  make len c w = Val s w' ->
  w' = w /\ 0 <= len <= c /\ c <= maxAlloc
  /\ s = {| s_array := repeat x00 (Z.to_nat c); s_len := len |}.
Proof.
  unfold make.
  destruct (Z.ltb_spec len 0); [discriminate|].
  destruct (Z.ltb_spec c len); [discriminate|].
  destruct (Z.ltb_spec maxAlloc c); [discriminate|].
  cbn [orb ret]. intros Hm. injection Hm as <- <-. repeat split; lia.
Qed.

Lemma FileTarget_DecompressStream_loop_limit (fuel : nat) (limitSize offset : Z)
    (t : FileTarget) (w : World) :
  (forall src d out, qlz_Decompress src d = (out, None) -> length out = length d) ->
  0 < limitSize <= max_int64 - maxAlloc ->
  0 <= offset <= limitSize ->
  match FileTarget_DecompressStream_loop fuel limitSize offset t w with
  | Val _ w' | Panic _ w' =>
      exists out, w_written (writer w') = w_written (writer w) ++ out
                  /\ offset + Z.of_nat (length out) <= limitSize
  | OutOfFuel => True
  end.
Proof.
  intros Hlen Hlim.
  assert (Hnone : forall w0 w1 : World, writer w1 = writer w0 ->
             forall off, 0 <= off <= limitSize ->
             exists out, w_written (writer w1) = w_written (writer w0) ++ out
                         /\ off + Z.of_nat (length out) <= limitSize).
  { intros w0 w1 E off Hoff. exists []. rewrite E, app_nil_r. cbn. split; [reflexivity|lia]. }
  revert offset w. induction fuel as [|fuel IH]; intros offset w Hoff; [exact I|].
  cbn [FileTarget_DecompressStream_loop]. unfold bind at 1.
  pose proof (only_reads_frame ReadType w only_reads_ReadType) as H1.
  destruct (ReadType w) as [[ty [e1|]] w1|msg w1|]; [| | |contradiction];
    [apply Hnone; [apply H1|exact Hoff]| |apply Hnone; [apply H1|exact Hoff]].
  destruct H1 as (_ & _ & Hw1 & _).
  destruct (decide (ty = TypeNew)) as [_|_]; [|destruct (decide (ty = TypeEnd)) as [_|_]].
  - unfold bind at 1.
    pose proof (only_reads_frame NewDataBlock w1 only_reads_NewDataBlock) as H2.
    destruct (NewDataBlock w1) as [b w2|msg w2|]; [| |contradiction];
      destruct H2 as (_ & _ & Hw2 & _); [|apply Hnone; [congruence|exact Hoff]].
    unfold bind at 1.
    pose proof (only_reads_frame (ReadBlock b) w2 (only_reads_ReadBlock b)) as H3.
    destruct (ReadBlock b w2) as [[b' [e3|]] w3|msg w3|]; [| | |contradiction];
      destruct H3 as (_ & _ & Hw3 & _);
      [apply Hnone; [congruence|exact Hoff]| |apply Hnone; [congruence|exact Hoff]].
    destruct (Z.ltb_spec 0 limitSize) as [_|]; [|lia]. cbn [andb].
    destruct (Z.ltb_spec limitSize (wrap_int64 (offset + DecompressedSize b')))
      as [|Hchk]; [apply Hnone; [congruence|exact Hoff]|].
    unfold bind at 1. cbn [DecompressedSize with_DecompressedOffset].
    destruct (make (DecompressedSize b') (DecompressedSize b') w3) as [buf w4|msg w4|] eqn:Hmk;
      [| |unfold make in Hmk; destruct (_ || _); discriminate].
    2:{ unfold make in Hmk. destruct (_ || _); [|discriminate].
        injection Hmk as _ <-. apply Hnone; [congruence|exact Hoff]. }
    destruct (make_Val _ _ _ _ _ Hmk) as (-> & Hsz & Hmax & ->). cbn [s_array].
    assert (Hsum : wrap_int64 (offset + DecompressedSize b') = offset + DecompressedSize b').
    { apply wrap_int64_id. unfold min_int64, max_int64 in *. lia. }
    rewrite Hsum in *.
    destruct (DecompressChunk _ _) as [chunk [e4|]] eqn:Hdc;
      [apply Hnone; [congruence|exact Hoff]|].
    apply (DecompressChunk_length _ _ _ Hlen) in Hdc. rewrite repeat_length in Hdc.
    unfold bind at 1. unfold Writer_Write.
    destruct (w_broken (writer w3)) as [e5|]; [apply Hnone; [congruence|exact Hoff]|].
    match goal with
    | |- context [FileTarget_DecompressStream_loop fuel limitSize ?o t ?w0] =>
        specialize (IH o w0 ltac:(lia));
        destruct (FileTarget_DecompressStream_loop fuel limitSize o t w0)
          as [r w'|msg w'|]; [| |exact I]
    end;
      destruct IH as (out & Hout & Hbound); cbn [set_writer writer w_written] in Hout;
      exists (chunk ++ out);
      (split; [rewrite Hout, <- app_assoc; do 2 f_equal; congruence|]);
      rewrite length_app; lia.
  - unfold bind at 1.
    pose proof (only_reads_frame (ReadTrailer (ft_trailer t)) w1
                  (only_reads_ReadTrailer _)) as H2.
    destruct (ReadTrailer (ft_trailer t) w1) as [[tr [e2|]] w2|msg w2|];
      [| | |contradiction]; destruct H2 as (_ & _ & Hw2 & _);
      (apply Hnone; [congruence|exact Hoff]).
  - apply Hnone; [congruence|exact Hoff].
Qed.

Lemma FileTarget_DecompressStream_within_limit (t : FileTarget) (limitSize : Z) (w : World) :
  (forall src d out, qlz_Decompress src d = (out, None) -> length out = length d) ->
  0 < limitSize <= max_int64 - maxAlloc ->
  match FileTarget_DecompressStream t limitSize w with
  | Val _ w' | Panic _ w' =>
      exists out, w_written (writer w') = w_written (writer w) ++ out
                  /\ Z.of_nat (length out) <= limitSize
  | OutOfFuel => False
  end.
Proof.
  intros Hlen Hlim.
  pose proof (steady_FileTarget_DecompressStream t limitSize w) as Hst.
  unfold steady_at in Hst.
  unfold FileTarget_DecompressStream in *. unfold bind at 1 in Hst. unfold bind at 1.
  pose proof (only_reads_frame (ReadHeader (ft_header t)) w (only_reads_ReadHeader _)) as H1.
  destruct (ReadHeader (ft_header t) w) as [[h [e1|]] w1|msg w1|]; [| | |contradiction];
    destruct H1 as (_ & _ & Hw1 & _);
    [exists []; rewrite Hw1, app_nil_r; cbn; split; [reflexivity|lia]|
    |exists []; rewrite Hw1, app_nil_r; cbn; split; [reflexivity|lia]].
  pose proof (FileTarget_DecompressStream_loop_limit (S (length (r_data (reader w1))))
                limitSize 0 (with_header h t) w1 Hlen Hlim ltac:(lia)) as H2.
  destruct (FileTarget_DecompressStream_loop _ _ _ _ w1) as [r w'|msg w'|]; [| |exact Hst];
    destruct H2 as (out & Hout & Hb); exists out; rewrite Hout, Hw1; (split; [reflexivity|lia]).
Qed.

(** X8. The size limit bounds what [FileTarget.DecompressStream] writes.
    Under the codec's contract (a successful [Decompress] keeps the length of
    the buffer it is given), with a limit that is positive and leaves room
    for one allocation below the largest [int64]: when the call returns or
    panics, the sink holds what it held before followed by at most
    [limitSize] bytes. *)
Theorem X8_stream_output_within_limit (t : FileTarget) (limitSize : Z) (w : World) :
  (forall src d out, qlz_Decompress src d = (out, None) -> length out = length d) ->
  0 < limitSize <= max_int64 - maxAlloc ->
  match FileTarget_DecompressStream t limitSize w with
  | Val _ w' | Panic _ w' =>
      exists out, w_written (writer w') = w_written (writer w) ++ out
                  /\ Z.of_nat (length out) <= limitSize
  | OutOfFuel => False
  end.
Proof. apply FileTarget_DecompressStream_within_limit. Qed.





(** ** What the decoders leave alone *)

Lemma File_WriteAt_other (f p : string) (b : list byte) (off : Z) (a : FS) :
  denied (fst (File_WriteAt f b off a)) = denied a
  /\ (p <> f -> nodes (fst (File_WriteAt f b off a)) !! p = nodes a !! p).
Proof.
  unfold File_WriteAt. destruct (off <? 0); [auto|].
  destruct b as [|x b]; [auto|].
  destruct (nodes a !! f) as [[|c]|]; auto.
  cbn [fst fs_put nodes denied]. split; [reflexivity|].
  intros Hne. apply lookup_insert_ne. congruence.
Qed.

Lemma task_run_other (tk : Task) (p : string) (a : FS) :
  denied (task_run tk a) = denied a
  /\ (p <> task_file tk -> nodes (task_run tk a) !! p = nodes a !! p).
Proof.
  unfold task_run. destruct (_ || _); [auto|].
  destruct (DecompressChunk _ _) as [chunk [e|]]; [auto|].
  apply File_WriteAt_other.
Qed.

Lemma run_tasks_other (order : list Task) (f p : string) (a : FS) :
  Forall (fun tk => task_file tk = f) order ->
  denied (run_tasks order a) = denied a
  /\ (p <> f -> nodes (run_tasks order a) !! p = nodes a !! p).
Proof.
  intros Hall. revert a. induction Hall as [|tk order Hf Hall IH]; intros a; [auto|].
  cbn [run_tasks fold_left]. destruct (IH (task_run tk a)) as [Hd Hn].
  destruct (task_run_other tk p a) as [Hd1 Hn1]. unfold run_tasks in *. split.
  - congruence.
  - intros Hne. rewrite Hn by exact Hne. apply Hn1. congruence.
Qed.

(** X10. [FileTarget.Decompress] touches one path of the file system.  When
    it returns or panics, the set of refused paths is the one before, and
    every path other than the destination (the join of [baseDIR] and the name
    in the header) holds what it held before; when the header cannot be read
    no path changes at all.  This holds for every order in which the pool
    completes the tasks. *)
Theorem X10_directory_decode_touches_one_path (t : FileTarget) (baseDIR : string)
    (limitSize : Z) (w : World) (p : string) :
  (forall h w0, ReadHeader (ft_header t) w = Val (h, None) w0 ->
                p <> filepath_Join baseDIR (string_of_list_byte (Name h))) ->
  match FileTarget_Decompress filepath_Join schedule t baseDIR limitSize w with
  | Val _ w' | Panic _ w' =>
      denied (fs w') = denied (fs w) /\ nodes (fs w') !! p = nodes (fs w) !! p
  | OutOfFuel => False
  end.
Proof.
  intros Hp.
  unfold FileTarget_Decompress. unfold bind at 1.
  pose proof (only_reads_frame (ReadHeader (ft_header t)) w (only_reads_ReadHeader _)) as H1.
  destruct (ReadHeader (ft_header t) w) as [[h [e1|]] w1|msg w1|]; [| | |contradiction];
    destruct H1 as (Hfs & _); [cbn; rewrite Hfs; auto| |rewrite Hfs; auto].
  specialize (Hp h w1 eq_refl). rewrite <- Hfs. clear Hfs.
  cbn [ft_header with_header].
  set (path := filepath_Join baseDIR (string_of_list_byte (Name h))) in *.
  unfold bind at 1. destruct (os_Stat_world path w1) as (err & -> & _ & _).
  destruct (_ && _); [cbn; auto|]. destruct (is_nil err); [cbn; auto|].
  unfold bind at 1. unfold os_OpenFile.
  destruct (decide (path ∈ denied (fs w1))); [cbn; auto|].
  destruct (nodes (fs w1) !! path) as [[|c]|] eqn:Hpath; [cbn; auto| |];
    unfold bind at 1; cbn [pond_New]; unfold defer;
    match goal with
    | |- context [FileTarget_Decompress_loop ?fu ?f ?l ?o ?t0 ?w0] =>
        pose proof (FileTarget_Decompress_loop_frame fu f l o t0 w0) as H2;
        pose proof (steady_FileTarget_Decompress_loop fu f l o t0 w0 ltac:(cbn; lia)) as Hs;
        unfold steady_at in Hs;
        destruct (FileTarget_Decompress_loop fu f l o t0 w0) as [r w'|msg w'|];
        [| |exact Hs]
    end;
    clear Hs; destruct H2 as (Hfs & _ & _ & new & Hpool & _ & Hall);
    cbn [set_pool pool app] in Hpool; unfold pool_StopAndWait; cbn [set_fs fs];
    rewrite Hpool, Hfs; cbn [set_pool set_fs fs];
    match goal with
    | |- context [run_tasks ?o ?a] =>
        destruct (run_tasks_other o path p a) as [Hd Hn];
        [eapply Permutation_Forall; [symmetry; apply completion_order_perm|exact Hall]|]
    end;
    rewrite Hd, Hn by exact Hp; cbn [fs_put nodes denied];
    rewrite ?lookup_insert_ne by congruence; auto.
Qed.

Lemma ArchiveFile_loop_keeps (P : World -> World -> Prop)
    (decodeFile : FileTarget -> M (FileTarget * option error))
    (fuel : nat) (af : ArchiveFile) (w : World) :
  (forall w0 rest, P w0 (advance w0 rest)) ->
  (forall w0 w1 w2, P w0 w1 -> P w1 w2 -> P w0 w2) ->
  (forall t w0, match decodeFile t w0 with
                | Val _ w' | Panic _ w' => P w0 w'
                | OutOfFuel => True
                end) ->
  match ArchiveFile_loop decodeFile fuel af w with
  | Val _ w' | Panic _ w' => P w w'
  | OutOfFuel => True
  end.
Proof.
  intros Hadv Htrans Hdec. revert af w. induction fuel as [|fuel IH]; intros af w; [exact I|].
  cbn [ArchiveFile_loop]. unfold bind at 1.
  pose proof (only_reads_ReadType w) as H1.
  destruct (ReadType w) as [[ty [e1|]] w1|msg w1|]; [| | |contradiction];
    destruct H1 as [rest ->]; [destruct (is_io_EOF e1); apply Hadv| |apply Hadv].
  destruct (decide (ty = x00)); [apply Hadv|].
  destruct (decide (ty = TypeDown)).
  { unfold bind at 1. unfold DownTarget_Read.
    pose proof (only_reads_ReadHeader (with_TargetType ty zero_TargetHeader)
                  (advance w rest)) as H2.
    destruct (ReadHeader _ (advance w rest)) as [[d [e2|]] w2|msg w2|]; [| | |contradiction];
      destruct H2 as [rest2 ->]; cbn [ret]; rewrite advance_advance; apply Hadv. }
  destruct (decide (ty = TypeUp)); [apply Hadv|].
  destruct (decide (ty = TypeFile)); [|apply Hadv].
  unfold bind at 1. specialize (Hdec (fresh_FileTarget ty) (advance w rest)).
  destruct (decodeFile _ (advance w rest)) as [[ft [e2|]] w2|msg w2|]; [| | |exact I].
  - destruct (strings_HasPrefix _ _); cbn [ret]; eapply Htrans; eauto.
  - specialize (IH (append_Target (FileTarget_ ft) af) w2).
    destruct (ArchiveFile_loop _ _ _ w2) as [r w'|msg w'|]; [| |exact I];
      (eapply Htrans; [apply Hadv|eapply Htrans; eauto]).
  - eapply Htrans; eauto.
Qed.

Lemma FileTarget_DecompressStream_keeps_fs (t : FileTarget) (limitSize : Z) (w : World) :
  match FileTarget_DecompressStream t limitSize w with
  | Val _ w' | Panic _ w' => fs w' = fs w
  | OutOfFuel => True
  end.
Proof.
  unfold FileTarget_DecompressStream. unfold bind at 1.
  pose proof (only_reads_frame (ReadHeader (ft_header t)) w (only_reads_ReadHeader _)) as H1.
  destruct (ReadHeader (ft_header t) w) as [[h [e1|]] w1|msg w1|]; [| | |contradiction];
    destruct H1 as (Hfs & _); [exact Hfs| |exact Hfs].
  pose proof (FileTarget_DecompressStream_loop_fs (S (length (r_data (reader w1))))
                limitSize 0 (with_header h t) w1) as H2.
  destruct (FileTarget_DecompressStream_loop _ _ _ _ w1) as [r w'|msg w'|]; [| |exact I];
    destruct H2 as [-> _]; exact Hfs.
Qed.

(** X11. All that [ArchiveFile.DecompressStream] does to the file system is
    its [os.Mkdir("tmp")].  When it returns or panics, the file system is the
    one before the call, or, if nothing was at "tmp" and the call was not
    refused, the one before the call with the directory "tmp" added: no file
    is created or written, whatever the archive holds. *)
Theorem X11_stream_decode_file_system (af : ArchiveFile) (limitSize : Z) (w : World) :
  match ArchiveFile_DecompressStream af limitSize w with
  | Val _ w' | Panic _ w' =>
      fs w' = fs w
      \/ (nodes (fs w) !! "tmp" = None /\ ("tmp" ∉ denied (fs w))
          /\ fs w' = fs_put "tmp" Dir (fs w))
  | OutOfFuel => False
  end.
Proof.
  unfold ArchiveFile_DecompressStream, ArchiveFile_run. unfold bind at 1.
  assert (Hrf : match ReadFileHeader (af_header af) w with
                | Val _ w' | Panic _ w' => fs w' = fs w
                | OutOfFuel => False
                end).
  { pose proof (steady_ReadFileHeader (af_header af) w) as Hst. unfold steady_at in Hst.
    revert Hst. unfold ReadFileHeader, bind.
    pose proof (only_reads_frame (binary_Read 8 (Magic (af_header af))) w
                  (only_reads_binary_Read _ _)) as H1.
    destruct (binary_Read 8 _ w) as [[m [e|]] w1|msg w1|]; [| | |contradiction];
      destruct H1 as (Hfs & _); [intros _; exact Hfs| |intros _; exact Hfs].
    destruct (decide _); [intros _; exact Hfs|].
    match goal with
    | |- context [binary_Read_uint 8 ?x w1] =>
        pose proof (only_reads_frame (binary_Read_uint 8 x) w1
                      (only_reads_binary_Read_uint _ _)) as H2;
        destruct (binary_Read_uint 8 x w1) as [[cs [e|]] w2|msg w2|]; [| | |contradiction]
    end; destruct H2 as (Hfs2 & _); intros _; cbn [ret set_ChunkSize fs]; congruence. }
  destruct (ReadFileHeader (af_header af) w) as [[h [e|]] w1|msg w1|];
    [cbn; left; exact Hrf| |left; exact Hrf|exact Hrf].
  unfold bind at 1. unfold os_Mkdir.
  assert (Hloop : forall w2,
            match ArchiveFile_loop (fun t => FileTarget_DecompressStream t limitSize)
                    (S (length (r_data (reader w2)))) (with_ArchiveHeader h af) w2 with
            | Val _ w' | Panic _ w' => fs w' = fs w2
            | OutOfFuel => False
            end).
  { intros w2.
    pose proof (steady_ArchiveFile_loop (fun t => FileTarget_DecompressStream t limitSize)
                  (S (length (r_data (reader w2)))) (with_ArchiveHeader h af) w2
                  (fun t => steady_FileTarget_DecompressStream t limitSize)
                  ltac:(lia)) as Hst.
    unfold steady_at in Hst.
    pose proof (ArchiveFile_loop_keeps (fun a b => fs b = fs a)
                  (fun t => FileTarget_DecompressStream t limitSize)
                  (S (length (r_data (reader w2)))) (with_ArchiveHeader h af) w2
                  ltac:(reflexivity) ltac:(intros; congruence)
                  ltac:(intros t w0; apply FileTarget_DecompressStream_keeps_fs)) as Hk.
    destruct (ArchiveFile_loop _ _ _ w2) as [r w'|msg w'|]; [exact Hk|exact Hk|exact Hst]. }
  destruct (decide ("tmp" ∈ denied (fs w1))) as [Hd|Hd]; [cbn; left; exact Hrf|].
  destruct (nodes (fs w1) !! "tmp") as [n|] eqn:Hn;
    cbn [is_nil negb andb from_option os_IsExist].
  - specialize (Hloop w1).
    destruct (ArchiveFile_loop _ _ _ w1) as [r w'|msg w'|];
      [left; congruence|left; congruence|exact Hloop].
  - specialize (Hloop (set_fs (fs_put "tmp" Dir (fs w1)) w1)).
    cbn [set_fs reader] in Hloop |- *.
    match goal with
    | |- context [ArchiveFile_loop ?d ?fu ?a ?w0] =>
        destruct (ArchiveFile_loop d fu a w0) as [r w'|msg w'|]
    end;
      [right|right|exact Hloop];
      (split; [rewrite <- Hrf; exact Hn|]); (split; [rewrite <- Hrf; exact Hd|]);
      rewrite Hloop; cbn [fs]; rewrite Hrf; reflexivity.
Qed.

(** ** The two decoders of a file agree *)

Lemma uniform_ret {A} (a : A) : uniform (ret a).
Proof.
  intros w1 w2 Hr Hc. exists (r_data (reader w1)). rewrite advance_same.
  split; [reflexivity|]. rewrite Hr, advance_same. reflexivity.
Qed.

Lemma uniform_panic {A} (msg : string) : uniform (@panic A msg).
Proof.
  intros w1 w2 Hr Hc. exists (r_data (reader w1)). rewrite advance_same.
  split; [reflexivity|]. rewrite Hr, advance_same. reflexivity.
Qed.


Lemma uniform_binary_Read (n : nat) (dst : list byte) : uniform (binary_Read n dst).
Proof.
  intros w1 w2 Hr Hc. unfold binary_Read. rewrite <- Hr.
  destruct (le_lt_dec n (length (r_data (reader w1)))) as [L|L].
  - rewrite io_ReadFull_enough by exact L.
    exists (drop n (r_data (reader w1))). unfold advance. rewrite <- Hr. auto.
  - destruct (io_ReadFull_short n (reader w1) L) as [e ->].
    exists []. unfold advance. rewrite <- Hr. auto.
Qed.

Lemma uniform_binary_Read_uint (n : nat) (x : Z) : uniform (binary_Read_uint n x).
Proof.
  intros w1 w2 Hr Hc. unfold binary_Read_uint. rewrite <- Hr.
  destruct (le_lt_dec n (length (r_data (reader w1)))) as [L|L].
  - rewrite io_ReadFull_enough by exact L.
    exists (drop n (r_data (reader w1))). unfold advance. rewrite <- Hr. auto.
  - destruct (io_ReadFull_short n (reader w1) L) as [e ->].
    exists []. unfold advance. rewrite <- Hr. auto.
Qed.

Create HintDb uniform.
#[local] Hint Resolve uniform_ret uniform_panic uniform_binary_Read
  uniform_binary_Read_uint : uniform.














Lemma FileTarget_DecompressStream_loop_header (fuel : nat) (limitSize offset : Z)
    (t t' : FileTarget) (w w' : World) (err : option error) :
  FileTarget_DecompressStream_loop fuel limitSize offset t w = Val (t', err) w' ->
  ft_header t' = ft_header t.
Proof.
  revert offset w. induction fuel as [|fuel IH]; intros offset w; [discriminate|].
  cbn [FileTarget_DecompressStream_loop]. unfold bind at 1.
  destruct (ReadType w) as [[ty [e1|]] w1|msg w1|]; try discriminate.
  { intros H. injection H as <- _ _. reflexivity. }
  destruct (decide (ty = TypeNew)) as [_|_]; [|destruct (decide (ty = TypeEnd)) as [_|_]].
  - unfold bind at 1. destruct (NewDataBlock w1) as [b w2|msg w2|]; try discriminate.
    unfold bind at 1.
    destruct (ReadBlock b w2) as [[b' [e3|]] w3|msg w3|]; try discriminate.
    { intros H. injection H as <- _ _. reflexivity. }
    destruct (_ && _); [intros H; injection H as <- _ _; reflexivity|].
    unfold bind at 1. destruct (make _ _ w3) as [buf w4|msg w4|]; try discriminate.
    destruct (DecompressChunk _ _) as [chunk [e4|]];
      [intros H; injection H as <- _ _; reflexivity|].
    unfold bind at 1. destruct (Writer_Write chunk w4) as [[e5|] w5|msg w5|];
      try discriminate.
    { intros H. injection H as <- _ _. reflexivity. }
    apply IH.
  - unfold bind at 1.
    destruct (ReadTrailer (ft_trailer t) w1) as [[tr [e2|]] w2|msg w2|]; try discriminate;
      intros H; injection H as <- _ _; reflexivity.
  - intros H. injection H as <- _ _. reflexivity.
Qed.



(** ** Every well-formed file record is accepted *)

Lemma ReadBlock_good (t : DataBlock) (w : World) (ri ck hdr payload rest : list byte) :
  r_data (reader w) = drop 1 BlockStarter ++ ri ++ ck ++ hdr ++ payload ++ rest ->
  length ri = 8%nat -> length ck = 4%nat -> length hdr = 9%nat ->
  Z.of_nat (length payload) = Size_compressed hdr - ChunkHeaderSize ->
  Size_compressed hdr <= cap (CompressedChunk t) ->
  ReadBlock t w
  = Val (parsed_block t (drop 1 BlockStarter) ri ck hdr payload, None) (advance w rest).
Proof.
  intros Hd Hri Hck Hh Hp Hc.
  assert (Hcap : ChunkHeaderSize <= cap (CompressedChunk t)) by lia.
  pose proof (ReadBlock_cases t w Hcap) as Hcases. cbv zeta in Hcases.
  destruct (block_fields (drop 1 BlockStarter) ri ck hdr payload rest
              eq_refl Hri Hck Hh) as (F1 & F2 & F3 & F4 & F5 & F6 & F7).
  cbv zeta in F1, F2, F3, F4, F5, F6, F7. rewrite <- Hd in *.
  assert (Hn : Z.to_nat (Size_compressed hdr - ChunkHeaderSize) = length payload) by lia.
  rewrite F4, Hn in Hcases.
  destruct Hcases as [([Hl|Hne] & _)|[(_ & _ & Hbad & _)|[(_ & _ & _ & Hl & _)
                     |(_ & _ & _ & E)]]]; try lia; try contradiction.
  rewrite E, F1, F2, F3, F5, F6. reflexivity.
Qed.

Lemma length_block_records (blocks : list BlockRecord) :
  (length blocks <= length (concat (map block_record blocks)))%nat.
Proof.
  induction blocks as [|b blocks IH]; [cbn; lia|].
  cbn [map concat length]. rewrite length_app. unfold block_record at 1.
  rewrite length_app. change (length BlockStarter) with 8%nat. lia.
Qed.




(** ** The output of the stream decoder *)

Lemma FileTarget_DecompressStream_loop_decodes (blocks : list BlockRecord) :
  forall (fuel : nat) (limitSize offset : Z) (t : FileTarget) (w : World)
         (ri rest : list byte),
    r_data (reader w)
    = concat (map block_record blocks) ++ TrailerStarter ++ ri ++ rest ->
    Forall (block_decodes (ChunkSize w)) blocks ->
    0 <= ChunkSize w -> ChunkSize w + 400 <= maxAlloc ->
    length ri = 8%nat -> limitSize <= 0 ->
    quicklz_New = None -> w_broken (writer w) = None ->
    (length blocks < fuel)%nat ->
    FileTarget_DecompressStream_loop fuel limitSize offset t w
    = Val (with_trailer {| TrailerType := TrailerType (ft_trailer t);
                           ft_StarterTail := drop 1 TrailerStarter;
                           ft_RecoverInfo := ri |} t, None)
          (set_writer
             {| w_written :=
                  w_written (writer w)
                  ++ concat (map (fun b => fst (block_decoded (ChunkSize w) b)) blocks);
                w_broken := None |}
             (advance w rest)).
Proof.
  induction blocks as [|b blocks IH];
    intros fuel limitSize offset t w ri rest Hd Hok Hcs0 Hcs1 H8 Hlim Hq Hbr Hfuel;
    (destruct fuel as [|fuel]; [cbn in Hfuel; lia|]);
    cbn [FileTarget_DecompressStream_loop]; unfold bind at 1.
  - cbn [map concat app] in Hd.
    rewrite (ReadType_cons w TypeEnd (drop 1 TrailerStarter ++ ri ++ rest)) by exact Hd.
    destruct (decide (TypeEnd = TypeNew)); [discriminate|].
    destruct (decide (TypeEnd = TypeEnd)); [|congruence].
    unfold bind at 1.
    rewrite (ReadTrailer_good _ _ ri rest) by (try reflexivity; exact H8).
    cbn [ret map concat]. rewrite app_nil_r, advance_advance. f_equal.
    destruct w as [r [ww wb] fs0 c p]. cbn in Hbr. subst wb. reflexivity.
  - inversion Hok as [|? ? (((Hri & Hck & Hh & Hp) & Hc) & Hsz & Hdec) Hok']; subst.
    set (more := concat (map block_record blocks) ++ TrailerStarter ++ ri ++ rest) in *.
    assert (Hd' : r_data (reader w)
                  = TypeNew :: drop 1 BlockStarter ++ br_RecoverInfo b ++ br_Checksum b
                      ++ br_header b ++ br_payload b ++ more).
    { rewrite Hd. cbn [map concat]. unfold block_record.
      rewrite <- !app_assoc. reflexivity. }
    rewrite (ReadType_cons w _ _ Hd').
    destruct (decide (TypeNew = TypeNew)); [|congruence].
    unfold bind at 1.
    destruct (NewDataBlock_cases (advance w (drop 1 BlockStarter ++ br_RecoverInfo b
                ++ br_Checksum b ++ br_header b ++ br_payload b ++ more)))
      as [[_ E]|[Hbad _]];
      [unfold maxAlloc in *; cbn [advance set_reader ChunkSize]; lia| |
       cbn [advance set_reader ChunkSize] in Hbad; lia].
    rewrite E. clear E. unfold bind at 1.
    rewrite (ReadBlock_good _ _ (br_RecoverInfo b) (br_Checksum b) (br_header b)
               (br_payload b) more); try assumption; try reflexivity.
    2:{ cbn [CompressedChunk advance set_reader ChunkSize]. unfold cap. cbn [s_array].
        rewrite repeat_length, Z2Nat.id by lia. exact Hc. }
    destruct (Z.ltb_spec 0 limitSize) as [|_]; [lia|]. cbn [andb].
    unfold bind at 1.
    cbn [DecompressedSize with_DecompressedOffset parsed_block].
    unfold make.
    destruct (Z.ltb_spec (Size_decompressed (br_header b)) 0) as [|_]; [lia|].
    destruct (Z.ltb_spec (Size_decompressed (br_header b)) (Size_decompressed (br_header b)))
      as [|_]; [lia|].
    destruct (Z.ltb_spec maxAlloc (Size_decompressed (br_header b))) as [|_]; [lia|].
    cbn [orb ret s_array].
    unfold DecompressChunk. rewrite Hq.
    cbn [CompressedChunk with_DecompressedOffset parsed_block advance set_reader ChunkSize
         s_array s_len].
    fold (chunk_slice (ChunkSize w) b). fold (block_decoded (ChunkSize w) b).
    destruct (block_decoded (ChunkSize w) b) as [out err] eqn:Hout.
    cbn [snd] in Hdec. subst err.
    unfold bind at 1. unfold Writer_Write.
    cbn [advance set_reader writer]. rewrite Hbr.
    rewrite IH with (ri := ri) (rest := rest);
      [|reflexivity|exact Hok'|exact Hcs0|exact Hcs1|exact H8|exact Hlim|exact Hq
       |reflexivity|cbn in Hfuel; lia].
    f_equal.
    cbn [set_writer advance set_reader reader writer fs ChunkSize pool r_end w_written
         map concat].
    rewrite Hout. cbn [fst]. rewrite <- app_assoc. reflexivity.
Qed.

Lemma FileTarget_DecompressStream_decodes (f : FileRecord) (t : FileTarget)
    (limitSize : Z) (w : World) (rest : list byte) :
  r_data (reader w)
  = fr_length f ++ fr_name f ++ x00
      :: concat (map block_record (fr_blocks f)) ++ TrailerStarter ++ fr_RecoverInfo f ++ rest ->
  file_decodes (ChunkSize w) f ->
  0 <= ChunkSize w -> ChunkSize w + 400 <= maxAlloc ->
  limitSize <= 0 -> quicklz_New = None -> w_broken (writer w) = None ->
  FileTarget_DecompressStream t limitSize w
  = Val ({| ft_header := {| th_TargetType := th_TargetType (ft_header t);
                            NameLength := littleEndian (fr_length f);
                            Name := fr_name f; th_Terminator := x00 |};
            DataBlocks := DataBlocks t;
            ft_trailer := {| TrailerType := TrailerType (ft_trailer t);
                             ft_StarterTail := drop 1 TrailerStarter;
                             ft_RecoverInfo := fr_RecoverInfo f |} |}, None)
        (set_writer {| w_written := w_written (writer w) ++ file_output (ChunkSize w) f;
                       w_broken := None |}
                    (advance w rest)).
Proof.
  intros Hd (H4 & Hlen & Hok & H8) Hcs0 Hcs1 Hlim Hq Hbr.
  unfold FileTarget_DecompressStream. unfold bind at 1.
  rewrite (ReadHeader_good (ft_header t) w _ _ _ H4 Hlen Hd).
  rewrite (FileTarget_DecompressStream_loop_decodes (fr_blocks f) _ limitSize 0 _ _
             (fr_RecoverInfo f) rest);
    try assumption; try reflexivity.
  cbn [advance set_reader reader r_data].
  pose proof (length_block_records (fr_blocks f)) as Hl. rewrite length_app. lia.
Qed.

(** X14. What [FileTarget.DecompressStream] writes.  On a stream that holds
    a well-formed file record whose blocks fit the buffer and decompress
    without error (the codec available, the sink accepting writes, no size
    limit, a chunk size whose buffer [make] can allocate), the call returns a
    nil error, has appended to the sink the decompressed blocks in the order
    of the stream and nothing else, has recorded name and trailer in the
    target, and leaves the reader behind the trailer. *)
Theorem X14_stream_output_is_the_decoded_blocks (f : FileRecord) (t : FileTarget)
    (limitSize : Z) (w : World) (rest : list byte) :
  r_data (reader w)
  = fr_length f ++ fr_name f ++ x00
      :: concat (map block_record (fr_blocks f)) ++ TrailerStarter ++ fr_RecoverInfo f ++ rest ->
  file_decodes (ChunkSize w) f ->
  0 <= ChunkSize w -> ChunkSize w + 400 <= maxAlloc ->
  limitSize <= 0 -> quicklz_New = None -> w_broken (writer w) = None ->
  exists t' w',
    FileTarget_DecompressStream t limitSize w = Val (t', None) w'
    /\ Name (ft_header t') = fr_name f
    /\ ft_RecoverInfo (ft_trailer t') = fr_RecoverInfo f
    /\ w_written (writer w')
       = w_written (writer w)
         ++ concat (map (fun b => fst (block_decoded (ChunkSize w) b)) (fr_blocks f))
    /\ r_data (reader w') = rest
    /\ fs w' = fs w.
Proof.
  intros Hd Hok Hcs0 Hcs1 Hlim Hq Hbr.
  rewrite (FileTarget_DecompressStream_decodes f t limitSize w rest Hd Hok Hcs0 Hcs1 Hlim
             Hq Hbr).
  eexists _, _. split; [reflexivity|]. repeat split; reflexivity.
Qed.

Lemma length_file_records (files : list FileRecord) :
  (length files <= length (concat (map file_bytes files)))%nat.
Proof.
  induction files as [|f files IH]; [cbn; lia|].
  cbn [map concat length]. rewrite length_app. unfold file_bytes at 1. cbn [length]. lia.
Qed.

(** ** The size limit cuts a file between two blocks *)

Lemma FileTarget_DecompressStream_loop_limited (blocks : list BlockRecord) :
  forall (fuel : nat) (limitSize offset : Z) (t : FileTarget) (w : World)
         (ri rest : list byte),
    r_data (reader w)
    = concat (map block_record blocks) ++ TrailerStarter ++ ri ++ rest ->
    Forall (block_decodes (ChunkSize w)) blocks ->
    0 <= ChunkSize w -> ChunkSize w + 400 <= maxAlloc ->
    length ri = 8%nat ->
    0 < limitSize <= max_int64 - maxAlloc -> 0 <= offset <= limitSize ->
    quicklz_New = None -> w_broken (writer w) = None ->
    (length blocks < fuel)%nat ->
    let kept := blocks_within limitSize offset blocks in
    exists t' err w',
      FileTarget_DecompressStream_loop fuel limitSize offset t w = Val (t', err) w'
      /\ w_written (writer w')
         = w_written (writer w)
           ++ concat (map (fun b => fst (block_decoded (ChunkSize w) b)) kept)
      /\ (length kept = length blocks ->
          err = None /\ r_data (reader w') = rest
          /\ t' = with_trailer {| TrailerType := TrailerType (ft_trailer t);
                                  ft_StarterTail := drop 1 TrailerStarter;
                                  ft_RecoverInfo := ri |} t)
      /\ (length kept <> length blocks ->
          err = Some (partial_limit_error limitSize) /\ t' = t
          /\ r_data (reader w')
             = concat (map block_record (drop (S (length kept)) blocks))
               ++ TrailerStarter ++ ri ++ rest).
Proof.
  induction blocks as [|b blocks IH];
    intros fuel limitSize offset t w ri rest Hd Hok Hcs0 Hcs1 H8 Hlim Hoff Hq Hbr Hfuel;
    (destruct fuel as [|fuel]; [cbn in Hfuel; lia|]);
    cbn [FileTarget_DecompressStream_loop blocks_within]; unfold bind at 1.
  - cbn [map concat app] in Hd.
    rewrite (ReadType_cons w TypeEnd (drop 1 TrailerStarter ++ ri ++ rest)) by exact Hd.
    destruct (decide (TypeEnd = TypeNew)); [discriminate|].
    destruct (decide (TypeEnd = TypeEnd)); [|congruence].
    unfold bind at 1.
    rewrite (ReadTrailer_good _ _ ri rest) by (try reflexivity; exact H8).
    cbn [ret map concat]. rewrite app_nil_r. eexists _, _, _. split; [reflexivity|].
    split; [reflexivity|]. split; [auto|]. intros Hne. contradiction.
  - inversion Hok as [|? ? (((Hri & Hck & Hh & Hp) & Hc) & Hsz & Hdec) Hok']; subst.
    set (more := concat (map block_record blocks) ++ TrailerStarter ++ ri ++ rest) in *.
    assert (Hd' : r_data (reader w)
                  = TypeNew :: drop 1 BlockStarter ++ br_RecoverInfo b ++ br_Checksum b
                      ++ br_header b ++ br_payload b ++ more).
    { rewrite Hd. cbn [map concat]. unfold block_record.
      rewrite <- !app_assoc. reflexivity. }
    rewrite (ReadType_cons w _ _ Hd').
    destruct (decide (TypeNew = TypeNew)); [|congruence].
    unfold bind at 1.
    destruct (NewDataBlock_cases (advance w (drop 1 BlockStarter ++ br_RecoverInfo b
                ++ br_Checksum b ++ br_header b ++ br_payload b ++ more)))
      as [[_ E]|[Hbad _]];
      [unfold maxAlloc in *; cbn [advance set_reader ChunkSize]; lia| |
       cbn [advance set_reader ChunkSize] in Hbad; lia].
    rewrite E. clear E. unfold bind at 1.
    rewrite (ReadBlock_good _ _ (br_RecoverInfo b) (br_Checksum b) (br_header b)
               (br_payload b) more); try assumption; try reflexivity.
    2:{ cbn [CompressedChunk advance set_reader ChunkSize]. unfold cap. cbn [s_array].
        rewrite repeat_length, Z2Nat.id by lia. exact Hc. }
    cbn [DecompressedSize with_DecompressedOffset parsed_block].
    rewrite wrap_int64_id by (unfold min_int64, max_int64 in *; lia).
    destruct (Z.ltb_spec 0 limitSize) as [_|]; [|lia]. cbn [andb].
    destruct (Z.ltb_spec limitSize (offset + Size_decompressed (br_header b))) as [Hcut|Hfit].
    { cbn [ret map concat length]. rewrite app_nil_r. eexists _, _, _.
      split; [reflexivity|]. split; [reflexivity|].
      split; [intros Hl; discriminate|]. intros _. auto. }
    unfold bind at 1. unfold make.
    destruct (Z.ltb_spec (Size_decompressed (br_header b)) 0) as [|_]; [lia|].
    destruct (Z.ltb_spec (Size_decompressed (br_header b)) (Size_decompressed (br_header b)))
      as [|_]; [lia|].
    destruct (Z.ltb_spec maxAlloc (Size_decompressed (br_header b))) as [|_]; [lia|].
    cbn [orb ret s_array].
    unfold DecompressChunk. rewrite Hq.
    cbn [CompressedChunk with_DecompressedOffset parsed_block advance set_reader ChunkSize
         s_array s_len].
    fold (chunk_slice (ChunkSize w) b). fold (block_decoded (ChunkSize w) b).
    destruct (block_decoded (ChunkSize w) b) as [out err] eqn:Hout.
    cbn [snd] in Hdec. subst err.
    unfold bind at 1. unfold Writer_Write.
    cbn [advance set_reader writer]. rewrite Hbr.
    match goal with
    | |- context [FileTarget_DecompressStream_loop fuel limitSize ?o t ?w0] =>
        destruct (IH fuel limitSize o t w0 ri rest) as (t' & err & w' & Erun & Hw & Hall & Hcutoff);
        [reflexivity|exact Hok'|exact Hcs0|exact Hcs1|exact H8|exact Hlim|lia|exact Hq
        |reflexivity|cbn in Hfuel; lia|]
    end.
    exists t', err, w'. split; [exact Erun|].
    cbn [set_writer advance set_reader reader writer ChunkSize w_written] in Hw, Hall, Hcutoff.
    split; [rewrite Hw; cbn [map concat]; rewrite Hout; cbn [fst];
            rewrite <- app_assoc; reflexivity|].
    cbn [length drop]. split.
    + intros Hl. apply Hall. lia.
    + intros Hl. apply Hcutoff. lia.
Qed.

Lemma FileTarget_DecompressStream_limited (f : FileRecord) (t : FileTarget)
    (limitSize : Z) (w : World) (rest : list byte) :
  r_data (reader w)
  = fr_length f ++ fr_name f ++ x00
      :: concat (map block_record (fr_blocks f)) ++ TrailerStarter ++ fr_RecoverInfo f ++ rest ->
  file_decodes (ChunkSize w) f ->
  0 <= ChunkSize w -> ChunkSize w + 400 <= maxAlloc ->
  0 < limitSize <= max_int64 - maxAlloc ->
  quicklz_New = None -> w_broken (writer w) = None ->
  let kept := blocks_within limitSize 0 (fr_blocks f) in
  exists t' err w',
    FileTarget_DecompressStream t limitSize w = Val (t', err) w'
    /\ Name (ft_header t') = fr_name f
    /\ w_written (writer w')
       = w_written (writer w)
         ++ concat (map (fun b => fst (block_decoded (ChunkSize w) b)) kept)
    /\ (length kept = length (fr_blocks f) ->
        err = None /\ r_data (reader w') = rest
        /\ t' = {| ft_header := {| th_TargetType := th_TargetType (ft_header t);
                                   NameLength := littleEndian (fr_length f);
                                   Name := fr_name f; th_Terminator := x00 |};
                   DataBlocks := DataBlocks t;
                   ft_trailer := {| TrailerType := TrailerType (ft_trailer t);
                                    ft_StarterTail := drop 1 TrailerStarter;
                                    ft_RecoverInfo := fr_RecoverInfo f |} |})
    /\ (length kept <> length (fr_blocks f) ->
        err = Some (partial_limit_error limitSize)
        /\ r_data (reader w')
           = concat (map block_record (drop (S (length kept)) (fr_blocks f)))
             ++ TrailerStarter ++ fr_RecoverInfo f ++ rest).
Proof.
  intros Hd (H4 & Hlen & Hok & H8) Hcs0 Hcs1 Hlim Hq Hbr kept.
  unfold FileTarget_DecompressStream. unfold bind at 1.
  rewrite (ReadHeader_good (ft_header t) w _ _ _ H4 Hlen Hd).
  match goal with
  | |- context [FileTarget_DecompressStream_loop ?fu limitSize 0 ?t0 ?w0] =>
      destruct (FileTarget_DecompressStream_loop_limited (fr_blocks f) fu limitSize 0 t0 w0
                  (fr_RecoverInfo f) rest)
        as (t' & err & w' & Erun & Hw & Hall & Hcut);
      [reflexivity|exact Hok|exact Hcs0|exact Hcs1|exact H8|exact Hlim|lia|exact Hq|exact Hbr
      | |]
  end.
  { cbn [advance set_reader reader r_data].
    pose proof (length_block_records (fr_blocks f)) as Hl. rewrite length_app. lia. }
  exists t', err, w'. split; [exact Erun|].
  split; [rewrite (FileTarget_DecompressStream_loop_header _ _ _ _ _ _ _ _ Erun); reflexivity|].
  split; [exact Hw|]. split.
  - intros Hl. destruct (Hall Hl) as (He & Hr & ->). auto.
  - intros Hl. destruct (Hcut Hl) as (He & _ & Hr). auto.
Qed.

(** X17. A positive size limit cuts the output of [FileTarget.DecompressStream]
    between two blocks.  On a well-formed file record whose blocks fit the
    buffer and decompress without error (the codec available, the sink
    accepting writes, a limit that leaves room for one allocation below the
    largest [int64]), the sink receives the decompressed blocks of the
    longest prefix whose declared sizes add up to at most [limitSize], and
    nothing else.  When that is every block, the call reads the trailer and
    returns a nil error; otherwise it returns the limit error, with the first
    block that does not fit already consumed from the stream. *)
Theorem X17_limit_cuts_between_blocks (f : FileRecord) (t : FileTarget)
    (limitSize : Z) (w : World) (rest : list byte) :
  r_data (reader w)
  = fr_length f ++ fr_name f ++ x00
      :: concat (map block_record (fr_blocks f)) ++ TrailerStarter ++ fr_RecoverInfo f ++ rest ->
  file_decodes (ChunkSize w) f ->
  0 <= ChunkSize w -> ChunkSize w + 400 <= maxAlloc ->
  0 < limitSize <= max_int64 - maxAlloc ->
  quicklz_New = None -> w_broken (writer w) = None ->
  let kept := blocks_within limitSize 0 (fr_blocks f) in
  exists t' err w',
    FileTarget_DecompressStream t limitSize w = Val (t', err) w'
    /\ w_written (writer w')
       = w_written (writer w)
         ++ concat (map (fun b => fst (block_decoded (ChunkSize w) b)) kept)
    /\ (length kept = length (fr_blocks f) -> err = None /\ r_data (reader w') = rest)
    /\ (length kept <> length (fr_blocks f) ->
        err = Some (partial_limit_error limitSize)
        /\ r_data (reader w')
           = concat (map block_record (drop (S (length kept)) (fr_blocks f)))
             ++ TrailerStarter ++ fr_RecoverInfo f ++ rest).
Proof.
  intros Hd Hok Hcs0 Hcs1 Hlim Hq Hbr kept.
  destruct (FileTarget_DecompressStream_limited f t limitSize w rest Hd Hok Hcs0 Hcs1 Hlim
              Hq Hbr) as (t' & err & w' & Erun & _ & Hw & Hall & Hcut).
  exists t', err, w'. split; [exact Erun|]. split; [exact Hw|]. split; [|exact Hcut].
  intros Hl. destruct (Hall Hl) as (He & Hr & _). auto.
Qed.



(** ** The decode of an archive to a directory *)



Lemma FileTarget_DecompressStream_complete (f : FileRecord) (t : FileTarget)
    (limitSize : Z) (w : World) (rest : list byte) :
  r_data (reader w)
  = fr_length f ++ fr_name f ++ x00
      :: concat (map block_record (fr_blocks f)) ++ TrailerStarter ++ fr_RecoverInfo f ++ rest ->
  file_decodes (ChunkSize w) f ->
  0 <= ChunkSize w -> ChunkSize w + 400 <= maxAlloc ->
  within_limit limitSize f ->
  quicklz_New = None -> w_broken (writer w) = None ->
  exists w',
    FileTarget_DecompressStream t limitSize w
    = Val ({| ft_header := {| th_TargetType := th_TargetType (ft_header t);
                              NameLength := littleEndian (fr_length f);
                              Name := fr_name f; th_Terminator := x00 |};
              DataBlocks := DataBlocks t;
              ft_trailer := {| TrailerType := TrailerType (ft_trailer t);
                               ft_StarterTail := drop 1 TrailerStarter;
                               ft_RecoverInfo := fr_RecoverInfo f |} |}, None) w'
    /\ w_written (writer w') = w_written (writer w) ++ file_output (ChunkSize w) f
    /\ r_data (reader w') = rest
    /\ r_end (reader w') = r_end (reader w).
Proof.
  intros Hd Hok Hcs0 Hcs1 Hwl Hq Hbr.
  destruct (Z_le_gt_dec limitSize 0) as [Hle|Hgt].
  - rewrite (FileTarget_DecompressStream_decodes f t limitSize w rest Hd Hok Hcs0 Hcs1 Hle
               Hq Hbr).
    eexists. split; [reflexivity|]. repeat split; reflexivity.
  - destruct Hwl as [Hwl|[Hmax Hall]]; [lia|].
    destruct (FileTarget_DecompressStream_limited f t limitSize w rest Hd Hok Hcs0 Hcs1
                ltac:(lia) Hq Hbr) as (t' & err & w' & Erun & _ & Hw & Hfull & _).
    rewrite Hall in Hw, Hfull.
    destruct (Hfull eq_refl) as (-> & Hr & ->).
    pose proof (steady_FileTarget_DecompressStream t limitSize w) as Hst.
    unfold steady_at in Hst. rewrite Erun in Hst.
    exists w'. split; [exact Erun|]. split; [exact Hw|]. split; [exact Hr|apply Hst].
Qed.






(** ** The decode of an archive to a stream *)

Lemma FileTarget_DecompressStream_loop_sink (fuel : nat) (limitSize offset : Z)
    (t : FileTarget) (w : World) :
  match FileTarget_DecompressStream_loop fuel limitSize offset t w with
  | Val _ w' | Panic _ w' =>
      ChunkSize w' = ChunkSize w /\ w_broken (writer w') = w_broken (writer w)
  | OutOfFuel => True
  end.
Proof.
  assert (Hsame : forall w0 w1 : World, writer w1 = writer w0 -> ChunkSize w1 = ChunkSize w0 ->
             ChunkSize w1 = ChunkSize w0 /\ w_broken (writer w1) = w_broken (writer w0)).
  { intros w0 w1 E1 E2. split; congruence. }
  revert offset w. induction fuel as [|fuel IH]; intros offset w; [exact I|].
  cbn [FileTarget_DecompressStream_loop]. unfold bind at 1.
  pose proof (only_reads_frame ReadType w only_reads_ReadType) as H1.
  destruct (ReadType w) as [[ty [e1|]] w1|msg w1|]; [| | |contradiction];
    destruct H1 as (_ & _ & Hw1 & Hc1 & _);
    [apply Hsame; assumption| |apply Hsame; assumption].
  destruct (decide (ty = TypeNew)) as [_|_]; [|destruct (decide (ty = TypeEnd)) as [_|_]].
  - unfold bind at 1.
    pose proof (only_reads_frame NewDataBlock w1 only_reads_NewDataBlock) as H2.
    destruct (NewDataBlock w1) as [b w2|msg w2|]; [| |contradiction];
      destruct H2 as (_ & _ & Hw2 & Hc2 & _); [|apply Hsame; congruence].
    unfold bind at 1.
    pose proof (only_reads_frame (ReadBlock b) w2 (only_reads_ReadBlock b)) as H3.
    destruct (ReadBlock b w2) as [[b' [e3|]] w3|msg w3|]; [| | |contradiction];
      destruct H3 as (_ & _ & Hw3 & Hc3 & _);
      [apply Hsame; congruence| |apply Hsame; congruence].
    destruct ((0 <? limitSize) && _); [apply Hsame; congruence|].
    unfold bind at 1. cbn [DecompressedSize with_DecompressedOffset].
    destruct (make (DecompressedSize b') (DecompressedSize b') w3) as [buf w4|msg w4|] eqn:Hmk;
      [| |unfold make in Hmk; destruct (_ || _); discriminate].
    2:{ unfold make in Hmk. destruct (_ || _); [|discriminate].
        injection Hmk as _ <-. apply Hsame; congruence. }
    destruct (make_Val _ _ _ _ _ Hmk) as (-> & _ & _ & ->). cbn [s_array].
    destruct (DecompressChunk _ _) as [chunk [e4|]]; [apply Hsame; congruence|].
    unfold bind at 1. unfold Writer_Write.
    destruct (w_broken (writer w3)) as [e5|] eqn:Hb; [apply Hsame; congruence|].
    match goal with
    | |- context [FileTarget_DecompressStream_loop fuel limitSize ?o t ?w0] =>
        specialize (IH o w0);
        destruct (FileTarget_DecompressStream_loop fuel limitSize o t w0)
          as [r w'|msg w'|]; [| |exact I]
    end;
      destruct IH as (Hc & Hbr); cbn [set_writer writer w_broken ChunkSize] in Hc, Hbr;
      (split; [congruence|]); rewrite Hbr, <- Hw1, <- Hw2, <- Hw3, Hb; reflexivity.
  - unfold bind at 1.
    pose proof (only_reads_frame (ReadTrailer (ft_trailer t)) w1
                  (only_reads_ReadTrailer _)) as H2.
    destruct (ReadTrailer (ft_trailer t) w1) as [[tr [e2|]] w2|msg w2|];
      [| | |contradiction]; destruct H2 as (_ & _ & Hw2 & Hc2 & _);
      (apply Hsame; congruence).
  - apply Hsame; congruence.
Qed.

Lemma FileTarget_DecompressStream_sink (t : FileTarget) (limitSize : Z) (w : World) :
  match FileTarget_DecompressStream t limitSize w with
  | Val _ w' | Panic _ w' =>
      ChunkSize w' = ChunkSize w /\ w_broken (writer w') = w_broken (writer w)
      /\ fs w' = fs w
  | OutOfFuel => True
  end.
Proof.
  pose proof (FileTarget_DecompressStream_keeps_fs t limitSize w) as Hfs.
  unfold FileTarget_DecompressStream in *. unfold bind at 1 in Hfs. unfold bind at 1.
  pose proof (only_reads_frame (ReadHeader (ft_header t)) w (only_reads_ReadHeader _)) as H1.
  destruct (ReadHeader (ft_header t) w) as [[h [e1|]] w1|msg w1|]; [| | |contradiction];
    destruct H1 as (_ & _ & Hw1 & Hc1 & _);
    [cbn [ret] in *; repeat split; congruence| |repeat split; congruence].
  match goal with
  | |- context [FileTarget_DecompressStream_loop ?fu limitSize 0 ?t0 w1] =>
      pose proof (FileTarget_DecompressStream_loop_sink fu limitSize 0 t0 w1) as H2;
      destruct (FileTarget_DecompressStream_loop fu limitSize 0 t0 w1)
        as [r w'|msg w'|]; [| |exact I]
  end;
    destruct H2 as (Hc & Hb); repeat split; congruence.
Qed.

Lemma ArchiveFile_loop_stream_files (limitSize : Z) (files : list FileRecord) :
  quicklz_New = None ->
  forall (fuel : nat) (af : ArchiveFile) (w : World) (more : list byte),
    r_data (reader w) = concat (map file_bytes files) ++ more ->
    Forall (file_decodes (ChunkSize w)) files ->
    Forall (within_limit limitSize) files ->
    0 <= ChunkSize w -> ChunkSize w + 400 <= maxAlloc ->
    w_broken (writer w) = None ->
    exists w',
      ArchiveFile_loop (fun t => FileTarget_DecompressStream t limitSize)
        (length files + fuel) af w
      = ArchiveFile_loop (fun t => FileTarget_DecompressStream t limitSize) fuel
          {| af_header := af_header af;
             Targets := Targets af ++ map (fun f => FileTarget_ (file_target f)) files |} w'
      /\ r_data (reader w') = more
      /\ r_end (reader w') = r_end (reader w)
      /\ ChunkSize w' = ChunkSize w
      /\ fs w' = fs w
      /\ w_written (writer w')
         = w_written (writer w) ++ concat (map (file_output (ChunkSize w)) files)
      /\ w_broken (writer w') = None.
Proof.
  intros Hq.
  induction files as [|f files IH]; intros fuel af w more0 Hd Hok Hwl Hcs0 Hcs1 Hbr.
  - cbn [map concat app] in Hd |- *. rewrite !app_nil_r.
    assert (Haf : {| af_header := af_header af; Targets := Targets af |} = af)
      by (destruct af; reflexivity).
    rewrite Haf. cbn [length Nat.add].
    exists w. repeat split; auto.
  - inversion Hok as [|? ? Hf Hok']; subst.
    inversion Hwl as [|? ? Hfwl Hwl']; subst.
    set (more := concat (map file_bytes files) ++ more0) in *.
    set (rest1 := fr_length f ++ fr_name f ++ x00
                    :: concat (map block_record (fr_blocks f)) ++ TrailerStarter
                    ++ fr_RecoverInfo f ++ more).
    assert (Hd' : r_data (reader w) = TypeFile :: rest1).
    { rewrite Hd. cbn [map concat]. unfold file_bytes. cbn [app]. subst rest1.
      rewrite <- !app_assoc. cbn [app]. rewrite <- !app_assoc. reflexivity. }
    cbn [length Nat.add].
    rewrite (ArchiveFile_loop_file _ (length files + fuel) af w _ Hd'). unfold bind at 1.
    set (v := advance w rest1).
    destruct (FileTarget_DecompressStream_complete f (fresh_FileTarget TypeFile) limitSize
                v more eq_refl Hf Hcs0 Hcs1 Hfwl Hq Hbr)
      as (v' & Hrun & Hwr & Hrd & Hre).
    pose proof (FileTarget_DecompressStream_sink (fresh_FileTarget TypeFile) limitSize v)
      as Hs.
    rewrite Hrun in Hs |- *. destruct Hs as (Hc & Hb & Hfs).
    change (ChunkSize v) with (ChunkSize w) in Hc, Hwr.
    change (writer v) with (writer w) in Hb, Hwr.
    change (fs v) with (fs w) in Hfs.
    change (r_end (reader v)) with (r_end (reader w)) in Hre.
    destruct (IH fuel (append_Target (FileTarget_ (file_target f)) af) v' more0)
      as (w' & Eloop & Hr' & He' & Hc' & Hfs' & Hw' & Hb').
    { exact Hrd. }
    { rewrite Hc. exact Hok'. }
    { exact Hwl'. }
    { rewrite Hc. exact Hcs0. }
    { rewrite Hc. exact Hcs1. }
    { rewrite Hb. exact Hbr. }
    exists w'. split.
    { etransitivity; [exact Eloop|]. do 2 f_equal.
      cbn [append_Target Targets af_header map]. rewrite <- app_assoc. reflexivity. }
    split; [exact Hr'|]. split; [congruence|]. split; [congruence|]. split; [congruence|].
    split; [|exact Hb'].
    rewrite Hw', Hwr, Hc. cbn [map concat]. rewrite <- app_assoc. reflexivity.
Qed.

Lemma ArchiveFile_loop_stream_decodes (limitSize : Z) (files : list FileRecord) :
  forall (fuel : nat) (af : ArchiveFile) (w : World) (tail : list byte),
    r_data (reader w) = concat (map file_bytes files) ++ tail ->
    (tail = [] /\ r_end (reader w) = io_EOF) \/ (exists rest, tail = x00 :: rest) ->
    Forall (file_decodes (ChunkSize w)) files ->
    Forall (within_limit limitSize) files ->
    0 <= ChunkSize w -> ChunkSize w + 400 <= maxAlloc ->
    quicklz_New = None -> w_broken (writer w) = None ->
    (length files < fuel)%nat ->
    exists w',
      ArchiveFile_loop (fun t => FileTarget_DecompressStream t limitSize) fuel af w
      = Val ({| af_header := af_header af;
                Targets := Targets af ++ map (fun f => FileTarget_ (file_target f)) files |},
             false, None) w'
      /\ w_written (writer w')
         = w_written (writer w) ++ concat (map (file_output (ChunkSize w)) files)
      /\ r_data (reader w') = tl tail.
Proof.
  intros fuel af w tail Hd Htail Hok Hwl Hcs0 Hcs1 Hq Hbr Hfuel.
  replace fuel with (length files + S (fuel - S (length files)))%nat by lia.
  destruct (ArchiveFile_loop_stream_files limitSize files Hq
              (S (fuel - S (length files))) af w tail Hd Hok Hwl Hcs0 Hcs1 Hbr)
    as (w1 & Eloop & Hr1 & He1 & _ & _ & Hw1 & _).
  rewrite Eloop. cbn [ArchiveFile_loop]. unfold bind.
  destruct Htail as [[-> He]|[rest ->]].
  - rewrite (ReadType_nil w1 Hr1), He1, He. cbn [is_io_EOF ret tl].
    exists w1. repeat split; auto.
  - rewrite (ReadType_cons w1 _ _ Hr1).
    destruct (decide (x00 = x00)); [|congruence]. cbn [ret tl].
    exists (advance w1 rest). repeat split; auto.
Qed.

(** X15. [ArchiveFile.DecompressStream] on a well-formed archive of files: a
    header with the magic and a chunk size whose buffer [make] can allocate,
    then file records whose blocks fit the buffer and decompress without
    error, then the end of the stream or a zero byte.  With no size limit or
    one that no file's declared block sizes exceed, the codec available, the sink accepting writes and "tmp" not refused, the
    call returns [isPartial = false] and a nil error; the sink has received
    the contents of the files, in the order of the archive, and nothing else;
    [af.Targets] has gained one [FileTarget] per file; the header's chunk
    size is recorded; and the reader is at the end of the stream or behind
    the zero byte. *)
Theorem X15_stream_decode_of_an_archive (af : ArchiveFile) (limitSize : Z) (w : World)
    (cs : list byte) (files : list FileRecord) (tail : list byte) :
  r_data (reader w) = QpressMagic ++ cs ++ concat (map file_bytes files) ++ tail ->
  length cs = 8%nat ->
  (tail = [] /\ r_end (reader w) = io_EOF) \/ (exists rest, tail = x00 :: rest) ->
  littleEndian cs + 400 <= maxAlloc ->
  Forall (file_decodes (littleEndian cs)) files ->
  Forall (within_limit limitSize) files ->
  quicklz_New = None -> w_broken (writer w) = None ->
  "tmp" ∉ denied (fs w) ->
  exists af' w',
    ArchiveFile_DecompressStream af limitSize w = Val (af', false, None) w'
    /\ af_header af' = {| Magic := QpressMagic; ah_ChunkSize := littleEndian cs |}
    /\ Targets af' = Targets af ++ map (fun f => FileTarget_ (file_target f)) files
    /\ w_written (writer w')
       = w_written (writer w) ++ concat (map (file_output (littleEndian cs)) files)
    /\ r_data (reader w') = tl tail.
Proof.
  intros Hd H8 Htail Hcs1 Hok Hlim Hq Hbr Htmp.
  pose proof (ReadFileHeader_good (af_header af) w cs _ Hd H8) as Hh.
  assert (Hcs0 : 0 <= littleEndian cs).
  { rewrite littleEndian_le_value. pose proof (le_value_range cs). lia. }
  set (w0 := set_ChunkSize (littleEndian cs)
               (advance w (concat (map file_bytes files) ++ tail))) in Hh.
  destruct (ArchiveFile_run_mkdir (fun t => FileTarget_DecompressStream t limitSize)
              af w w0 _ Hh) as (A1 & A2 & _).
  unfold ArchiveFile_DecompressStream.
  pose proof (length_file_records files) as Hl.
  assert (Hloop : forall w1 : World,
             reader w1 = reader w0 -> ChunkSize w1 = littleEndian cs ->
             writer w1 = writer w ->
             exists af' w',
               ArchiveFile_loop (fun t => FileTarget_DecompressStream t limitSize)
                 (S (length (r_data (reader w0))))
                 (with_ArchiveHeader {| Magic := QpressMagic;
                                        ah_ChunkSize := littleEndian cs |} af) w1
               = Val (af', false, None) w'
               /\ af_header af' = {| Magic := QpressMagic; ah_ChunkSize := littleEndian cs |}
               /\ Targets af' = Targets af ++ map (fun f => FileTarget_ (file_target f)) files
               /\ w_written (writer w')
                  = w_written (writer w)
                    ++ concat (map (file_output (littleEndian cs)) files)
               /\ r_data (reader w') = tl tail).
  { intros w1 Hr1 Hc1 Hw1.
    destruct (ArchiveFile_loop_stream_decodes limitSize files
                (S (length (r_data (reader w0))))
                (with_ArchiveHeader {| Magic := QpressMagic;
                                       ah_ChunkSize := littleEndian cs |} af) w1 tail)
      as (w' & Erun & Hw & Hr').
    - rewrite Hr1. reflexivity.
    - rewrite Hr1. exact Htail.
    - rewrite Hc1. exact Hok.
    - exact Hlim.
    - rewrite Hc1. exact Hcs0.
    - rewrite Hc1. exact Hcs1.
    - exact Hq.
    - rewrite Hw1. exact Hbr.
    - cbn [w0 set_ChunkSize advance set_reader reader r_data]. rewrite length_app. lia.
    - eexists _, w'. split; [exact Erun|]. split; [reflexivity|]. split; [reflexivity|].
      split; [rewrite Hw, Hc1, Hw1; reflexivity|exact Hr']. }
  destruct (nodes (fs w0) !! "tmp") as [n|] eqn:Hn.
  - rewrite A2 by (try exact Htmp; eauto). apply Hloop; reflexivity.
  - rewrite A1 by (try exact Htmp; reflexivity). apply Hloop; reflexivity.
Qed.

Lemma ArchiveFile_loop_stream_cut (limitSize : Z) (whole : list FileRecord)
    (cut : FileRecord) :
  0 < limitSize <= max_int64 - maxAlloc -> quicklz_New = None ->
  forall (fuel : nat) (af : ArchiveFile) (w : World) (later : list byte),
    r_data (reader w) = concat (map file_bytes whole) ++ file_bytes cut ++ later ->
    Forall (file_decodes (ChunkSize w)) whole -> file_decodes (ChunkSize w) cut ->
    Forall (fun f => blocks_within limitSize 0 (fr_blocks f) = fr_blocks f) whole ->
    length (blocks_within limitSize 0 (fr_blocks cut)) <> length (fr_blocks cut) ->
    0 <= ChunkSize w -> ChunkSize w + 400 <= maxAlloc ->
    w_broken (writer w) = None ->
    (length whole < fuel)%nat ->
    exists w',
      ArchiveFile_loop (fun t => FileTarget_DecompressStream t limitSize) fuel af w
      = Val ({| af_header := af_header af;
                Targets := Targets af ++ map (fun f => FileTarget_ (file_target f)) whole |},
             true, None) w'
      /\ fs w' = fs w
      /\ w_written (writer w')
         = w_written (writer w) ++ concat (map (file_output (ChunkSize w)) whole)
           ++ concat (map (fun b => fst (block_decoded (ChunkSize w) b))
                          (blocks_within limitSize 0 (fr_blocks cut))).
Proof.
  intros Hlim Hq fuel af w later Hd Hok Hcut_ok Hall Hcut Hcs0 Hcs1 Hbr Hfuel.
  replace fuel with (length whole + S (fuel - S (length whole)))%nat by lia.
  destruct (ArchiveFile_loop_stream_files limitSize whole Hq
              (S (fuel - S (length whole))) af w (file_bytes cut ++ later) Hd Hok)
    as (w1 & Eloop & Hr1 & _ & Hc1 & Hfs1 & Hw1 & Hb1);
    [|exact Hcs0|exact Hcs1|exact Hbr|].
  { rewrite Forall_forall in Hall |- *. intros f Hin.
    right. split; [lia|apply Hall, Hin]. }
  rewrite Eloop.
  set (rest1 := fr_length cut ++ fr_name cut ++ x00
                  :: concat (map block_record (fr_blocks cut)) ++ TrailerStarter
                  ++ fr_RecoverInfo cut ++ later).
  assert (Hd' : r_data (reader w1) = TypeFile :: rest1).
  { rewrite Hr1. unfold file_bytes. cbn [app]. subst rest1.
    rewrite <- !app_assoc. cbn [app]. rewrite <- !app_assoc. reflexivity. }
  assert (Hok1 : file_decodes (ChunkSize (advance w1 rest1)) cut).
  { change (ChunkSize (advance w1 rest1)) with (ChunkSize w1). rewrite Hc1. exact Hcut_ok. }
  destruct (FileTarget_DecompressStream_limited cut (fresh_FileTarget TypeFile) limitSize
              (advance w1 rest1) later eq_refl Hok1)
    as (t' & err & w' & Hrun & _ & Hw & _ & Hpart);
    [change (ChunkSize (advance w1 rest1)) with (ChunkSize w1); rewrite Hc1; exact Hcs0
    |change (ChunkSize (advance w1 rest1)) with (ChunkSize w1); rewrite Hc1; exact Hcs1
    |exact Hlim|exact Hq|exact Hb1|].
  destruct (Hpart Hcut) as [-> _].
  rewrite (ArchiveFile_loop_partial _ limitSize _ _ w1 w' rest1 t' Hd' Hrun).
  pose proof (FileTarget_DecompressStream_sink (fresh_FileTarget TypeFile) limitSize
                (advance w1 rest1)) as Hs.
  rewrite Hrun in Hs. destruct Hs as (_ & _ & Hfs).
  change (fs (advance w1 rest1)) with (fs w1) in Hfs.
  exists w'. split; [reflexivity|]. split; [congruence|].
  change (ChunkSize (advance w1 rest1)) with (ChunkSize w1) in Hw.
  change (writer (advance w1 rest1)) with (writer w1) in Hw.
  rewrite Hw, Hw1, Hc1, <- app_assoc. reflexivity.
Qed.

(** X20. The size limit of [ArchiveFile.DecompressStream] applies to each
    file on its own, and the first file it cuts ends the call.  The archive
    has a header with the magic and a chunk size whose buffer [make] can
    allocate, then file records whose blocks fit the buffer and decompress
    without error: files [whole], the declared block sizes of each adding up
    to at most [limitSize], then a file [cut] whose sizes exceed it, then any
    bytes at all.  With the codec available, the sink accepting writes and
    "tmp" not refused, the call returns [isPartial = true] and a nil error;
    the sink has received the whole content of every file of [whole] (all of
    them together may be larger than the limit), then the decompressed blocks
    of the longest prefix of [cut] within the limit, and nothing else;
    [af.Targets] has gained the files of [whole] but not [cut]. *)
Theorem X20_limit_stops_the_stream (af : ArchiveFile) (limitSize : Z) (w : World)
    (cs : list byte) (whole : list FileRecord) (cut : FileRecord) (later : list byte) :
  r_data (reader w)
  = QpressMagic ++ cs ++ concat (map file_bytes whole) ++ file_bytes cut ++ later ->
  length cs = 8%nat ->
  littleEndian cs + 400 <= maxAlloc ->
  Forall (file_decodes (littleEndian cs)) (whole ++ [cut]) ->
  0 < limitSize <= max_int64 - maxAlloc ->
  Forall (fun f => blocks_within limitSize 0 (fr_blocks f) = fr_blocks f) whole ->
  length (blocks_within limitSize 0 (fr_blocks cut)) <> length (fr_blocks cut) ->
  quicklz_New = None -> w_broken (writer w) = None ->
  "tmp" ∉ denied (fs w) ->
  exists af' w',
    ArchiveFile_DecompressStream af limitSize w = Val (af', true, None) w'
    /\ Targets af' = Targets af ++ map (fun f => FileTarget_ (file_target f)) whole
    /\ w_written (writer w')
       = w_written (writer w) ++ concat (map (file_output (littleEndian cs)) whole)
         ++ concat (map (fun b => fst (block_decoded (littleEndian cs) b))
                        (blocks_within limitSize 0 (fr_blocks cut))).
Proof.
  intros Hd H8 Hcs1 Hok Hlim Hall Hcut Hq Hbr Htmp.
  pose proof (ReadFileHeader_good (af_header af) w cs _ Hd H8) as Hh.
  assert (Hcs0 : 0 <= littleEndian cs).
  { rewrite littleEndian_le_value. pose proof (le_value_range cs). lia. }
  set (w0 := set_ChunkSize (littleEndian cs)
               (advance w (concat (map file_bytes whole) ++ file_bytes cut ++ later)))
    in Hh.
  destruct (ArchiveFile_run_mkdir (fun t => FileTarget_DecompressStream t limitSize)
              af w w0 _ Hh) as (A1 & A2 & _).
  unfold ArchiveFile_DecompressStream.
  pose proof (length_file_records whole) as Hl.
  apply Forall_app in Hok. destruct Hok as [Hok1 Hok2].
  inversion Hok2 as [|? ? Hcut_ok _]; subst.
  assert (Hloop : forall w1 : World,
             reader w1 = reader w0 -> ChunkSize w1 = littleEndian cs ->
             writer w1 = writer w ->
             exists af' w',
               ArchiveFile_loop (fun t => FileTarget_DecompressStream t limitSize)
                 (S (length (r_data (reader w0))))
                 (with_ArchiveHeader {| Magic := QpressMagic;
                                        ah_ChunkSize := littleEndian cs |} af) w1
               = Val (af', true, None) w'
               /\ Targets af' = Targets af ++ map (fun f => FileTarget_ (file_target f)) whole
               /\ w_written (writer w')
                  = w_written (writer w)
                    ++ concat (map (file_output (littleEndian cs)) whole)
                    ++ concat (map (fun b => fst (block_decoded (littleEndian cs) b))
                                   (blocks_within limitSize 0 (fr_blocks cut)))).
  { intros w1 Hr1 Hc1 Hw1.
    destruct (ArchiveFile_loop_stream_cut limitSize whole cut Hlim Hq
                (S (length (r_data (reader w0))))
                (with_ArchiveHeader {| Magic := QpressMagic;
                                       ah_ChunkSize := littleEndian cs |} af) w1 later)
      as (w' & Erun & _ & Hw).
    - rewrite Hr1. reflexivity.
    - rewrite Hc1. exact Hok1.
    - rewrite Hc1. exact Hcut_ok.
    - exact Hall.
    - exact Hcut.
    - rewrite Hc1. exact Hcs0.
    - rewrite Hc1. exact Hcs1.
    - rewrite Hw1. exact Hbr.
    - cbn [w0 set_ChunkSize advance set_reader reader r_data]. rewrite length_app. lia.
    - eexists _, w'. split; [exact Erun|]. split; [reflexivity|].
      rewrite Hw, Hc1, Hw1. reflexivity. }
  destruct (nodes (fs w0) !! "tmp") as [n|] eqn:Hn.
  - rewrite A2 by (try exact Htmp; eauto). apply Hloop; reflexivity.
  - rewrite A1 by (try exact Htmp; reflexivity). apply Hloop; reflexivity.
Qed.

End Further.

(** * The theorems at work on the sample archives *)

Lemma sample_codec_contract (src : slice) (d out : list byte) :
  @qlz_Decompress sample_codec src d = (out, None) -> length out = length d.
Proof.
  cbn [qlz_Decompress sample_codec]. unfold sample_Decompress.
  set (literals := if Z.testbit (byte_to_Z (hd x00 (slice_bytes src))) 0
                   then drop 4 (drop (1 + 2 * sample_width (slice_bytes src))
                                     (slice_bytes src))
                   else drop (1 + 2 * sample_width (slice_bytes src)) (slice_bytes src)).
  destruct (Nat.leb_spec (length d) (length literals)) as [Hle|Hgt];
    intros H; inversion H.
  rewrite length_take. lia.
Qed.

(** The two blocks of "c.txt", completed last block first, give the file
    "helloworld!". *)
Example sample_decode_last_first :
  match @FileTarget_Decompress sample_codec sample_Join last_first
          (fresh_FileTarget TypeFile) "out" 0 (sample_at 17) with
  | Val (_, err) w' =>
      err = None
      /\ nodes (fs w') !! "out/c.txt"
         = Some (RegularFile (list_byte_of_string "helloworld!"))
  | _ => False
  end.
Proof. vm_compute. split; reflexivity. Qed.

Lemma C1_witness :
  @FileTarget_Decompress sample_codec sample_Join last_first
     (fresh_FileTarget TypeFile) "out" 0 (sample_at 17)
  = @FileTarget_Decompress sample_codec sample_Join sequential
      (fresh_FileTarget TypeFile) "out" 0 (sample_at 17).
Proof.
  refine (proj1 (@C1_completion_order_is_irrelevant sample_codec sample_Join last_first
                   (fresh_FileTarget TypeFile) "out" 0 (sample_at 17)
                   sample_codec_contract _ _)).
  - vm_compute. repeat constructor; discriminate.
  - vm_compute. discriminate.
Defined.

Lemma C2_witness :
  let w0 := set_pool [] (sample_at 27) in
  let blocks :=
    map task_block
        (pool (world_of (@FileTarget_Decompress_loop sample_codec 200 "out/c.txt" 0 0
                           (fresh_FileTarget TypeFile) w0) w0)) in
  length blocks = 2%nat
  /\ (forall i b, blocks !! i = Some b -> DecompressedOffset b = sum_sizes (take i blocks))
  /\ (forall i j bi bj, blocks !! i = Some bi -> blocks !! j = Some bj ->
        (i < j)%nat -> DecompressedOffset bi < DecompressedOffset bj).
Proof.
  intros w0 blocks.
  pose proof (@C2_block_offsets sample_codec 200 "out/c.txt" 0
                (fresh_FileTarget TypeFile) (sample_at 27)) as H.
  cbv zeta in H. fold w0 in H. fold blocks in H. destruct H as (_ & _ & H).
  assert (Hnn : Forall (fun b => 0 <= DecompressedSize b) blocks)
    by (vm_compute; repeat constructor; discriminate).
  assert (Hmax : sum_sizes blocks <= max_int64) by (vm_compute; discriminate).
  destruct (H Hnn Hmax) as (Hsum & _ & Hstrict).
  split; [vm_compute; reflexivity|]. split; [exact Hsum|].
  apply Hstrict. vm_compute. repeat constructor.
Defined.

Lemma C3_witness :
  @FileTarget_Decompress_loop sample_codec 10 "out/c.txt" 5 0
     (fresh_FileTarget TypeFile) (sample_at 27)
  = @FileTarget_Decompress_loop sample_codec 9 "out/c.txt" 5 (0 + 5)
      (fresh_FileTarget TypeFile)
      (set_pool (pool sample_parsed_world
                 ++ [{| task_file := "out/c.txt";
                        task_block := with_DecompressedOffset 0 sample_parsed_block |}])
                sample_parsed_world).
Proof.
  assert (Hd : r_data (reader (sample_at 27)) = TypeNew :: r_data (reader (sample_at 28)))
    by (vm_compute; reflexivity).
  assert (Hblk : (let* blk := NewDataBlock in @ReadBlock sample_codec blk)
                   (advance (sample_at 27) (r_data (reader (sample_at 28))))
                 = Val (sample_parsed_block, None) sample_parsed_world)
    by (vm_compute; reflexivity).
  assert (Hrange : min_int64 <= 0 + DecompressedSize sample_parsed_block <= max_int64)
    by (vm_compute; split; discriminate).
  pose proof (@C3_limit_is_strict sample_codec 9 "out/c.txt" 5 0
                (fresh_FileTarget TypeFile) (sample_at 27) sample_parsed_world
                (r_data (reader (sample_at 28))) sample_parsed_block Hd Hblk Hrange) as H.
  cbv zeta in H. destruct H as (_ & H & _).
  assert (Hsz : DecompressedSize sample_parsed_block = 5) by (vm_compute; reflexivity).
  rewrite Hsz in H. apply H. lia.
Defined.

Lemma C4_witness :
  ArchiveFile_loop
    (fun t => @FileTarget_Decompress sample_codec sample_Join sequential t "out" 8)
    200 zero_ArchiveFile (sample_at 16)
  = Val (zero_ArchiveFile, true, None) sample_limited_world.
Proof.
  refine (proj1 (@C4_limit_abort_is_a_flag sample_codec sample_Join sequential "out" 8 199
                   zero_ArchiveFile (sample_at 16) sample_limited_world
                   (r_data (reader (sample_at 17))) sample_limited_target _) _).
  - vm_compute. reflexivity.
  - vm_compute. reflexivity.
Defined.


Lemma C6_witness :
  exists af' e w',
    @ArchiveFile_Decompress sample_codec sample_Join sequential zero_ArchiveFile "out" 0
       (sample_world (list_byte_of_string "qpress11" ++ zeros 8))
    = Val (af', false, Some e) w'
    /\ Targets af' = [] /\ nodes (fs w') = ∅ /\ pool w' = []
    /\ e = errorString "read file header failed: invalid magic: qpress11"
    /\ r_data (reader w') = zeros 8.
Proof.
  destruct (proj1 (@C6_magic_and_chunk_size sample_codec sample_Join sequential
                     zero_ArchiveFile "out" 0
                     (sample_world (list_byte_of_string "qpress11" ++ zeros 8))))
    as (af' & e & w' & Hrun & HT & Hfs & Hp & Hlen).
  { vm_compute. discriminate. }
  exists af', e, w'. split; [exact Hrun|]. split; [exact HT|].
  split; [rewrite Hfs; reflexivity|]. split; [exact Hp|].
  apply Hlen. vm_compute. repeat constructor.
Defined.

Lemma C7_witness :
  ArchiveFile_loop
    (fun t => @FileTarget_Decompress sample_codec sample_Join sequential t "out" 0)
    1 zero_ArchiveFile (sample_world [])
  = Val (zero_ArchiveFile, false, None) (sample_world []).
Proof.
  apply (proj1 (@C7_clean_end_of_archive sample_codec sample_Join sequential "out" 0
                  zero_ArchiveFile (sample_world []))); reflexivity.
Defined.

Lemma C8_witness :
  exists t' e w',
    @ReadBlock sample_codec sample_fresh_block (sample_world (take 20 tiny_block))
    = Val (t', Some e) w'.
Proof.
  refine (proj2 (proj2 (@C8_ReadBlock_record sample_codec sample_fresh_block
                          (sample_world (take 20 tiny_block)) _)) _).
  - vm_compute. discriminate.
  - left. vm_compute. repeat constructor.
Defined.

Lemma C9_witness :
  exists msg w',
    @ReadBlock sample_codec sample_fresh_block (set_ChunkSize 64 (sample_world tiny_block))
    = Panic msg w'.
Proof.
  refine (proj2 (@C9_block_parse_panics sample_codec
                   (set_ChunkSize 64 (sample_world tiny_block))
                   (set_ChunkSize 64 (sample_world tiny_block))
                   sample_fresh_block _ _ _ _) _).
  - vm_compute. split; [discriminate|reflexivity].
  - vm_compute. reflexivity.
  - vm_compute. repeat constructor.
  - vm_compute. reflexivity.
  - left. vm_compute. reflexivity.
Defined.

(** The claim C9 says a declared chunk size below 9 makes the parse panic.
    With the chunk size 5 the buffer of a block has length 5 and capacity
    405: the block of [small_chunk_archive] is parsed, and the whole decode
    returns without error. *)
Lemma C9_small_chunk_size_parses :
  (exists af' w',
      @ArchiveFile_Decompress sample_codec sample_Join sequential zero_ArchiveFile "out" 0
         (sample_world small_chunk_archive)
      = Val (af', false, None) w'
      /\ ah_ChunkSize (af_header af') = 5
      /\ ChunkSize w' = 5)
  /\ (exists b t' w',
         NewDataBlock (set_ChunkSize 5 (sample_world (drop 28 small_chunk_archive)))
         = Val b (set_ChunkSize 5 (sample_world (drop 28 small_chunk_archive)))
         /\ s_len (CompressedChunk b) = 5
         /\ @ReadBlock sample_codec b
              (set_ChunkSize 5 (sample_world (drop 28 small_chunk_archive)))
            = Val (t', None) w').
Proof.
  split.
  - eexists _, _. vm_compute. repeat split; reflexivity.
  - eexists _, _, _. vm_compute. repeat split; reflexivity.
Qed.

Lemma C10_witness :
  match @ArchiveFile_Decompress sample_codec sample_Join sequential zero_ArchiveFile
          "out" 0 (sample_world (sample_header x40)) with
  | Val _ w' | Panic _ w' => nodes (fs w') !! "tmp" = Some Dir
  | OutOfFuel => False
  end.
Proof.
  assert (Hh : ReadFileHeader (af_header zero_ArchiveFile)
                              (sample_world (sample_header x40))
               = Val ({| Magic := QpressMagic; ah_ChunkSize := 64 |}, None)
                     (set_ChunkSize 64 (sample_world [])))
    by (vm_compute; reflexivity).
  pose proof (@C10_tmp_directory sample_codec sample_Join sequential zero_ArchiveFile
                "out" 0 (sample_world (sample_header x40))
                (set_ChunkSize 64 (sample_world [])) _ Hh) as H.
  cbv zeta in H. destruct H as [H _].
  apply H.
  - cbn. apply not_elem_of_empty.
  - reflexivity.
Defined.

Lemma X1_witness :
  exists h w',
    ReadHeader zero_TargetHeader (sample_at 17) = Val (h, None) w'
    /\ Name h = list_byte_of_string "c.txt".
Proof.
  eexists _, _. split.
  - apply (proj2 (proj1 (X1_ReadHeader_wellformed zero_TargetHeader (sample_at 17)) _ _)).
    exists [x05; x00; x00; x00], (list_byte_of_string "c.txt"), (drop 27 sample_archive).
    repeat split; reflexivity.
  - reflexivity.
Defined.

Lemma X2_witness :
  exists t' w',
    ReadTrailer zero_FileTrailer (sample_world (drop 1 TrailerStarter ++ zeros 8))
    = Val (t', None) w'
    /\ ft_RecoverInfo t' = zeros 8.
Proof.
  eexists _, _. split.
  - apply (proj2 (proj1 (X2_ReadTrailer_wellformed zero_FileTrailer
                           (sample_world (drop 1 TrailerStarter ++ zeros 8))) _ _)).
    exists (zeros 8), []. repeat split; reflexivity.
  - reflexivity.
Defined.

Lemma X3_witness :
  NewDataBlock (set_ChunkSize (2 ^ 48) (sample_world []))
  = Panic "makeslice: len or cap out of range" (set_ChunkSize (2 ^ 48) (sample_world [])).
Proof.
  refine (proj2 (X3_NewDataBlock_buffer (set_ChunkSize (2 ^ 48) (sample_world [])) _) _).
  - vm_compute. split; [discriminate|reflexivity].
  - vm_compute. reflexivity.
Defined.


Lemma X5_witness :
  ArchiveFile_loop
    (fun t => @FileTarget_DecompressStream sample_codec t 0) 1 zero_ArchiveFile
    (sample_world [TypeUp; TypeFile])
  = Val (append_Target (UpTarget (with_TargetType TypeUp zero_TargetHeader))
                       zero_ArchiveFile,
         false, Some (errorString "unsupport up directory"))
        (advance (sample_world [TypeUp; TypeFile]) [TypeFile]).
Proof.
  apply (proj1 (X5_directory_records_are_refused
                  (fun t => @FileTarget_DecompressStream sample_codec t 0) 0
                  zero_ArchiveFile (sample_world [TypeUp; TypeFile]) [TypeFile])).
  reflexivity.
Defined.


Lemma X7_witness :
  exists record,
    r_data (reader (sample_at 17)) = record ++ r_data (reader sample_streamed_world)
    /\ @file_record sample_codec (Name (ft_header sample_streamed_target))
         (ft_RecoverInfo (ft_trailer sample_streamed_target)) record.
Proof.
  apply (@X7_accepted_file_is_a_record sample_codec sample_Join sequential
           (fresh_FileTarget TypeFile) sample_streamed_target "out" 0 (sample_at 17)
           sample_streamed_world).
  left. vm_compute. reflexivity.
Defined.

Lemma X8_witness :
  match @FileTarget_DecompressStream sample_codec (fresh_FileTarget TypeFile) 8
          (sample_at 17) with
  | Val _ w' | Panic _ w' =>
      exists out, w_written (writer w') = w_written (writer (sample_at 17)) ++ out
                  /\ Z.of_nat (length out) <= 8
  | OutOfFuel => False
  end.
Proof.
  apply (@X8_stream_output_within_limit sample_codec (fresh_FileTarget TypeFile) 8
           (sample_at 17) sample_codec_contract).
  vm_compute. split; [reflexivity|discriminate].
Defined.


Lemma X10_witness :
  match @FileTarget_Decompress sample_codec sample_Join last_first
          (fresh_FileTarget TypeFile) "out" 0 (sample_taken 17) with
  | Val _ w' | Panic _ w' =>
      denied (fs w') = denied (fs (sample_taken 17))
      /\ nodes (fs w') !! "out/d.txt" = nodes (fs (sample_taken 17)) !! "out/d.txt"
  | OutOfFuel => False
  end.
Proof.
  apply (@X10_directory_decode_touches_one_path sample_codec sample_Join last_first
           (fresh_FileTarget TypeFile) "out" 0 (sample_taken 17) "out/d.txt").
  intros h w0 Hh.
  assert (E : ReadHeader (ft_header (fresh_FileTarget TypeFile)) (sample_taken 17)
              = Val (sample_target_header, None) (sample_taken 27))
    by (vm_compute; reflexivity).
  rewrite E in Hh. injection Hh as <- _. vm_compute. discriminate.
Defined.



Lemma X14_witness :
  exists t' w',
    @FileTarget_DecompressStream sample_codec (fresh_FileTarget TypeFile) 0 (sample_at 17)
    = Val (t', None) w'
    /\ w_written (writer w') = list_byte_of_string "helloworld!"
    /\ r_data (reader w') = sample_file "d.txt" ["there"].
Proof.
  destruct (@X14_stream_output_is_the_decoded_blocks sample_codec
              (sample_file_record "c.txt" ["hello"; "world!"]) (fresh_FileTarget TypeFile)
              0 (sample_at 17) (sample_file "d.txt" ["there"]))
    as (t' & w' & Hrun & _ & _ & Hw & Hr & _).
  - vm_compute. reflexivity.
  - split; [reflexivity|]. split; [reflexivity|]. split; [|reflexivity].
    repeat constructor; vm_compute; try reflexivity; discriminate.
  - vm_compute. discriminate.
  - vm_compute. discriminate.
  - lia.
  - reflexivity.
  - reflexivity.
  - exists t', w'. split; [exact Hrun|]. split; [rewrite Hw; vm_compute; reflexivity|exact Hr].
Defined.

Lemma X15_witness :
  exists af' w',
    @ArchiveFile_DecompressStream sample_codec zero_ArchiveFile 11
       (sample_world sample_archive)
    = Val (af', false, None) w'
    /\ length (Targets af') = 2%nat
    /\ w_written (writer w') = list_byte_of_string "helloworld!there".
Proof.
  destruct (@X15_stream_decode_of_an_archive sample_codec zero_ArchiveFile 11
              (sample_world sample_archive) (x40 :: zeros 7)
              [sample_file_record "c.txt" ["hello"; "world!"];
               sample_file_record "d.txt" ["there"]] [])
    as (af' & w' & Hrun & _ & HT & Hw & _).
  - vm_compute. reflexivity.
  - reflexivity.
  - left. split; reflexivity.
  - vm_compute. discriminate.
  - repeat constructor; vm_compute; try reflexivity; discriminate.
  - do 2 (apply Forall_cons_2;
            [right; split; [vm_compute; discriminate|vm_compute; reflexivity]|]).
    apply Forall_nil_2.
  - reflexivity.
  - reflexivity.
  - cbn. apply not_elem_of_empty.
  - exists af', w'. split; [exact Hrun|].
    split; [rewrite HT; reflexivity|rewrite Hw; vm_compute; reflexivity].
Defined.


Lemma X17_witness :
  exists t' w',
    @FileTarget_DecompressStream sample_codec (fresh_FileTarget TypeFile) 8 (sample_at 17)
    = Val (t', Some (partial_limit_error 8)) w'
    /\ w_written (writer w') = list_byte_of_string "hello".
Proof.
  destruct (@X17_limit_cuts_between_blocks sample_codec
              (sample_file_record "c.txt" ["hello"; "world!"]) (fresh_FileTarget TypeFile)
              8 (sample_at 17) (sample_file "d.txt" ["there"]))
    as (t' & err & w' & Hrun & Hw & _ & Hcut).
  - vm_compute. reflexivity.
  - split; [reflexivity|]. split; [reflexivity|]. split; [|reflexivity].
    repeat constructor; vm_compute; try reflexivity; discriminate.
  - vm_compute. discriminate.
  - vm_compute. discriminate.
  - vm_compute. split; [reflexivity|discriminate].
  - reflexivity.
  - reflexivity.
  - destruct Hcut as [He _]; [vm_compute; discriminate|]. subst err.
    exists t', w'. split; [exact Hrun|]. rewrite Hw. vm_compute. reflexivity.
Defined.



Lemma X20_witness :
  exists af' w',
    @ArchiveFile_DecompressStream sample_codec zero_ArchiveFile 8
       (sample_world (sample_header x40 ++ sample_file "d.txt" ["there"]
                        ++ sample_file "c.txt" ["hello"; "world!"]
                        ++ sample_file "e.txt" ["never"]))
    = Val (af', true, None) w'
    /\ length (Targets af') = 1%nat
    /\ w_written (writer w') = list_byte_of_string "therehello".
Proof.
  destruct (@X20_limit_stops_the_stream sample_codec zero_ArchiveFile 8
              (sample_world (sample_header x40 ++ sample_file "d.txt" ["there"]
                               ++ sample_file "c.txt" ["hello"; "world!"]
                               ++ sample_file "e.txt" ["never"]))
              (x40 :: zeros 7)
              [sample_file_record "d.txt" ["there"]]
              (sample_file_record "c.txt" ["hello"; "world!"])
              (sample_file "e.txt" ["never"]))
    as (af' & w' & Hrun & HT & Hw).
  - vm_compute. reflexivity.
  - reflexivity.
  - vm_compute. discriminate.
  - repeat constructor; vm_compute; try reflexivity; discriminate.
  - vm_compute. split; [reflexivity|discriminate].
  - apply Forall_cons_2; [vm_compute; reflexivity|apply Forall_nil_2].
  - vm_compute. discriminate.
  - reflexivity.
  - reflexivity.
  - cbn. apply not_elem_of_empty.
  - exists af', w'. split; [exact Hrun|].
    split; [rewrite HT; reflexivity|rewrite Hw; vm_compute; reflexivity].
Defined.
